(** * RepoCleaner: the naming-convention checker of [case_checker.py]

    A shallow embedding of the tokenizer ([extract_words]), the case
    renderer ([convert_case]) and the convention registry
    ([Convention.get_pattern], [Convention.check],
    [Convention.get_suggested_name]), together with the part of Python's
    [re] and [str] that these functions use.

    Conventions of the embedding:
    - a Python [str] is a [string]; the embedding covers names made of
      ASCII code points, on which [str.lower], [str.capitalize], [\b] and
      the character classes of the patterns act as defined here;
    - a call that can raise returns a [result]: [Ok v] or [Raise e];
    - a compiled pattern is its abstract syntax ([regex]); the built-in
      patterns are transcribed from their source text, which is quoted
      next to each of them;
    - the backtracking matcher returns the list of all ways a pattern can
      match at a position, in the order in which Python's engine tries
      them, so that the head of the list is the match Python reports. *)

From stdpp Require Import base option list strings gmap.
From Stdlib Require Import Ascii String Arith Lia Bool.

Local Open Scope string_scope.
Local Open Scope list_scope.
Local Open Scope nat_scope.

(** ** Errors *)

Inductive exn : Type :=
| ValueError (msg : string)
| IndexError (msg : string).

Inductive result (A : Type) : Type :=
| Ok (a : A)
| Raise (e : exn).
Arguments Ok {A} a.
Arguments Raise {A} e.

Definition bind {A B : Type} (x : result A) (f : A -> result B) : result B :=
  match x with
  | Ok a => f a
  | Raise e => Raise e
  end.

Notation "'let*' x ':=' e1 'in' e2" := (bind e1 (fun x => e2))
  (at level 10, x name, e1 at level 100, e2 at level 200).

(** A value a function of the module can return: a string or [None]. *)
Inductive pyval : Type :=
| PyNone
| PyStr (s : string).

(** [str(v)], as an f-string interpolates it. *)
Definition py_str (v : pyval) : string :=
  match v with
  | PyNone => "None"
  | PyStr s => s
  end.

(** [v == PyStr s] *)
Definition pyval_eqb (v w : pyval) : bool :=
  match v, w with
  | PyNone, PyNone => true
  | PyStr s, PyStr t => String.eqb s t
  | _, _ => false
  end.

(** ** Characters and [str] methods *)

Module Str.

Definition LF : ascii := ascii_of_nat 10.

Definition in_range (lo hi c : ascii) : bool :=
  (nat_of_ascii lo <=? nat_of_ascii c) && (nat_of_ascii c <=? nat_of_ascii hi).

Definition is_upper (c : ascii) : bool := in_range "A" "Z" c.
Definition is_lower (c : ascii) : bool := in_range "a" "z" c.
Definition is_digit (c : ascii) : bool := in_range "0" "9" c.
Definition is_letter (c : ascii) : bool := is_lower c || is_upper c.

(** [\w] on ASCII text: letters, digits and the underscore. On a [str]
    Python's [\w] and [\b] also count letters and digits outside ASCII;
    names with such characters are outside the embedding. *)
Definition is_word (c : ascii) : bool :=
  is_letter c || is_digit c || Ascii.eqb c "_".

(** [c.lower()] and [c.upper()] for an ASCII character. *)
Definition lower_char (c : ascii) : ascii :=
  if is_upper c then ascii_of_nat (nat_of_ascii c + 32) else c.

Definition upper_char (c : ascii) : ascii :=
  if is_lower c then ascii_of_nat (nat_of_ascii c - 32) else c.

(** [s.lower()] *)
Fixpoint lower (s : string) : string :=
  match s with
  | EmptyString => EmptyString
  | String c t => String (lower_char c) (lower t)
  end.

(** [s.capitalize()]: first character upper-cased, the rest lower-cased. *)
Definition capitalize (s : string) : string :=
  match s with
  | EmptyString => EmptyString
  | String c t => String (upper_char c) (lower t)
  end.

(** [c in s] for a one-character [c]. *)
Fixpoint contains (c : ascii) (s : string) : bool :=
  match s with
  | EmptyString => false
  | String d t => Ascii.eqb d c || contains c t
  end.

(** [s.lstrip(chars)] *)
Fixpoint lstrip (chars s : string) : string :=
  match s with
  | EmptyString => EmptyString
  | String c t => if contains c chars then lstrip chars t else s
  end.

(** [s.rstrip(chars)] *)
Fixpoint rstrip (chars s : string) : string :=
  match s with
  | EmptyString => EmptyString
  | String c t =>
      match rstrip chars t with
      | EmptyString => if contains c chars then EmptyString else String c EmptyString
      | t' => String c t'
      end
  end.

(** [s.strip(chars)] *)
Definition strip (chars s : string) : string := rstrip chars (lstrip chars s).

(** [sep.join(words)] *)
Definition join (sep : string) (words : list string) : string :=
  String.concat sep words.

(** [s[0]]: on ASCII text a character is one [ascii]. *)
Definition first_char (s : string) : result string :=
  match s with
  | EmptyString => Raise (IndexError "string index out of range")
  | String c _ => Ok (String c EmptyString)
  end.

(** The first [n] characters of [s]. *)
Fixpoint take (n : nat) (s : string) : string :=
  match n, s with
  | S k, String c t => String c (take k t)
  | _, _ => EmptyString
  end.

End Str.

(** ** The fragment of [re] used by the module *)

Module Re.

Import Str.

Inductive regex : Type :=
| Eps                                  (* the empty pattern *)
| Lit (c : ascii)                      (* a literal character *)
| Class (rs : list (ascii * ascii))    (* [a-z0-9]: a union of ranges *)
| Seq (r1 r2 : regex)                  (* r1r2 *)
| Alt (r1 r2 : regex)                  (* r1|r2 *)
| Opt (r : regex)                      (* r? *)
| Star (r : regex)                     (* r* *)
| Plus (r : regex)                     (* r+ *)
| Lookahead (r : regex)                (* (?=r) *)
| WordB                                (* \b *)
| Bol                                  (* ^ *)
| Eol.                                 (* $ *)

Definition in_class (rs : list (ascii * ascii)) (c : ascii) : bool :=
  existsb (fun r => in_range (fst r) (snd r) c) rs.

(** A position in the subject string: the character just before it
    ([None] at the start of the string) and the text from it on. *)
Definition state : Type := option ascii * string.

Definition rest (st : state) : string := snd st.

Definition prev_is_word (st : state) : bool :=
  match fst st with
  | Some c => is_word c
  | None => false
  end.

Definition next_is_word (st : state) : bool :=
  match snd st with
  | String c _ => is_word c
  | EmptyString => false
  end.

(** [$] without MULTILINE: at the end of the string, or just before a
    line feed that ends the string. *)
Definition at_eol (st : state) : bool :=
  match snd st with
  | EmptyString => true
  | String c EmptyString => Ascii.eqb c LF
  | _ => false
  end.

Definition step_char (p : ascii -> bool) (st : state) : list state :=
  match snd st with
  | String c t => if p c then [(Some c, t)] else []
  | EmptyString => []
  end.

(** Greedy repetition of [body]: one more round first, then stopping
    here. A round that consumes nothing is not repeated; for a body that
    can match the empty text Python's engine may report another text for
    the same match. No loop body of the module's patterns matches the
    empty text. *)
Fixpoint star_loop (body : state -> list state) (fuel : nat) (st : state)
  : list state :=
  match fuel with
  | 0 => [st]
  | S f =>
      flat_map (fun st' =>
                  if String.length (rest st') <? String.length (rest st)
                  then star_loop body f st' else [])
               (body st) ++ [st]
  end.

(** All the ways [r] matches at [st], as the positions where the match
    ends, in the order a backtracking engine tries them. *)
Fixpoint exec (r : regex) (st : state) : list state :=
  match r with
  | Eps => [st]
  | Lit c => step_char (Ascii.eqb c) st
  | Class rs => step_char (in_class rs) st
  | Seq r1 r2 => flat_map (exec r2) (exec r1 st)
  | Alt r1 r2 => exec r1 st ++ exec r2 st
  | Opt r1 => exec r1 st ++ [st]
  | Star r1 => star_loop (exec r1) (String.length (rest st)) st
  | Plus r1 =>
      flat_map (fun st' => star_loop (exec r1) (String.length (rest st')) st')
               (exec r1 st)
  | Lookahead r1 =>
      match exec r1 st with
      | [] => []
      | _ :: _ => [st]
      end
  | WordB => if xorb (prev_is_word st) (next_is_word st) then [st] else []
  | Bol => match fst st with None => [st] | Some _ => [] end
  | Eol => if at_eol st then [st] else []
  end.

(** The match the engine reports at [st]: the first in its order. *)
Definition match_at (r : regex) (st : state) : option state :=
  head (exec r st).

(** The text between position [st] and a later position [st']. *)
Definition consumed (st st' : state) : string :=
  take (String.length (rest st) - String.length (rest st')) (rest st).

(** [re.match(r, s)]: the matched text, or [None]. *)
Definition re_match (r : regex) (s : string) : option string :=
  match match_at r (None, s) with
  | Some st' => Some (consumed (None, s) st')
  | None => None
  end.

(** [re.fullmatch(r, s)]: a way to match that ends at the end of [s]. *)
Definition re_fullmatch (r : regex) (s : string) : option string :=
  match filter (fun st' => rest st' = EmptyString) (exec r (None, s)) with
  | _ :: _ => Some s
  | [] => None
  end.

(** [re.search(r, s)]: the leftmost match. *)
Fixpoint search_from (r : regex) (prev : option ascii) (s : string)
  : option string :=
  match match_at r (prev, s) with
  | Some st' => Some (consumed (prev, s) st')
  | None =>
      match s with
      | EmptyString => None
      | String c t => search_from r (Some c) t
      end
  end.

Definition re_search (r : regex) (s : string) : option string :=
  search_from r None s.

(** [re.findall(r, s)] for a pattern without capturing groups: the
    non-overlapping matches, left to right. Where nothing matches the scan
    moves one character on; an empty match is recorded and the scan moves
    one character on as well. *)
Fixpoint findall_loop (r : regex) (fuel : nat) (prev : option ascii) (s : string)
  : list string :=
  match fuel with
  | 0 => []
  | S f =>
      let skip :=
        match s with
        | EmptyString => []
        | String c t => findall_loop r f (Some c) t
        end in
      match match_at r (prev, s) with
      | Some st' =>
          if String.length (rest st') <? String.length s
          then consumed (prev, s) st' :: findall_loop r f (fst st') (rest st')
          else EmptyString :: skip
      | None => skip
      end
  end.

Definition re_findall (r : regex) (s : string) : list string :=
  findall_loop r (S (String.length s)) None s.

(** [re.split(r, s)] for a pattern without capturing groups whose matches
    are never empty: the pieces of [s] between the matches. [piece] is
    the text since the last match. *)
Fixpoint split_loop (r : regex) (fuel : nat) (prev : option ascii) (s piece : string)
  : list string :=
  match fuel, s with
  | S f, String c t =>
      match match_at r (prev, s) with
      | Some st' =>
          if String.length (rest st') <? String.length s
          then piece :: split_loop r f (fst st') (rest st') EmptyString
          else split_loop r f (Some c) t (piece +:+ String c EmptyString)
      | None => split_loop r f (Some c) t (piece +:+ String c EmptyString)
      end
  | _, _ => [piece]
  end.

Definition re_split (r : regex) (s : string) : list string :=
  split_loop r (String.length s) None s EmptyString.

End Re.

(** ** [case_checker.py] *)

Import Str Re.

(** [[a-zA-Z]] *)
Definition letter_re : regex := Class [("a", "z"); ("A", "Z")]%char.

(** [[-_]] *)
Definition separator_re : regex := Class [("-", "-"); ("_", "_")]%char.

Definition upper_cls : regex := Class [("A", "Z")]%char.
Definition lower_cls : regex := Class [("a", "z")]%char.
Definition lower_digit_cls : regex := Class [("a", "z"); ("0", "9")]%char.
Definition alnum_cls : regex := Class [("a", "z"); ("A", "Z"); ("0", "9")]%char.
Definition snake_cls : regex := Class [("a", "z"); ("0", "9"); ("_", "_")]%char.

(** [[A-Z]?[a-z0-9]+|[A-Z]+(?=[A-Z][a-z]|\b)] *)
Definition camel_word_re : regex :=
  Alt (Seq (Opt upper_cls) (Plus lower_digit_cls))
      (Seq (Plus upper_cls)
           (Lookahead (Alt (Seq upper_cls lower_cls) WordB))).

(** [extract_words(name)] *)
Definition extract_words (name : string) : result (list string) :=
  match re_search letter_re name with
  | None =>
      Raise (ValueError ("Name must contain at least one letter: '" +:+ name +:+ "'"))
  | Some _ =>
      let name := strip "-_" name in
      if contains "_" name || contains "-" name
      then Ok (map lower (re_split separator_re name))
      else
        let words := re_findall camel_word_re name in
        match words with
        | [] => Ok [lower name]
        | _ :: _ => Ok (map lower words)
        end
  end.

(** The first argument of [convert_case]: a name, or words already
    extracted. *)
Inductive name_or_words : Type :=
| Name (name : string)
| Words (words : list string).

(** [[w[0] for w in words]], stopping at the first word without a first
    character. *)
Fixpoint first_chars (words : list string) : result (list string) :=
  match words with
  | [] => Ok []
  | w :: ws =>
      let* c := first_char w in
      let* cs := first_chars ws in
      Ok (c :: cs)
  end.

(** [convert_case(name_or_words, target_case)]. A target outside the four
    branches falls through the chain and the function returns [None]. *)
Definition convert_case (name_or_words : name_or_words) (target_case : string)
  : result pyval :=
  let* words :=
    match name_or_words with
    | Name name => extract_words name
    | Words words => Ok words
    end in
  let* words :=
    if 3 <? List.length words
    then let* cs := first_chars words in Ok [join "" cs]
    else Ok words in
  if String.eqb target_case "kebab-case" then Ok (PyStr (join "-" words))
  else if String.eqb target_case "snake_case" then Ok (PyStr (join "_" words))
  else if String.eqb target_case "camelCase" then
    match words with
    | [] => Raise (IndexError "list index out of range")
    | w :: ws => Ok (PyStr (w +:+ join "" (map capitalize ws)))
    end
  else if String.eqb target_case "PascalCase" then
    Ok (PyStr (join "" (map capitalize words)))
  else Ok PyNone.

Definition CASE_STYLES : list string :=
  ["kebab-case"; "snake_case"; "camelCase"; "PascalCase"].

(** [^[a-z0-9]+(-[a-z0-9]+)*$] *)
Definition kebab_pattern : regex :=
  Seq Bol (Seq (Plus lower_digit_cls)
          (Seq (Star (Seq (Lit "-") (Plus lower_digit_cls))) Eol)).

(** [^[a-z][a-z0-9_]*$] *)
Definition snake_pattern : regex :=
  Seq Bol (Seq lower_cls (Seq (Star snake_cls) Eol)).

(** [^[a-z][a-zA-Z0-9]*$] *)
Definition camel_pattern : regex :=
  Seq Bol (Seq lower_cls (Seq (Star alnum_cls) Eol)).

(** [^[A-Z][a-zA-Z0-9]*$] *)
Definition pascal_pattern : regex :=
  Seq Bol (Seq upper_cls (Seq (Star alnum_cls) Eol)).

Definition CASE_PATTERNS : gmap string regex :=
  list_to_map [("kebab-case", kebab_pattern);
               ("snake_case", snake_pattern);
               ("camelCase", camel_pattern);
               ("PascalCase", pascal_pattern)].

(** An entry of [naming.case] in the conventions document: the pattern
    it gives for a style, [None] when the entry has no pattern or an
    empty one. The entry is a mapping and its pattern a regular
    expression that compiles: a document with a null entry, or with a
    pattern that [re] rejects, makes the code raise [AttributeError] or
    [re.error] and is outside the embedding. *)
Record case_entry : Type := { pattern : option regex }.

(** [Convention]: the part of the conventions document that [check]
    reads, [self.cases]. *)
Record Convention : Type := { cases : gmap string case_entry }.

(** A conventions document without a [naming.case] section. *)
Definition no_overrides : Convention := {| cases := ∅ |}.

(** [Convention.get_pattern(case_name)] *)
Definition get_pattern (self : Convention) (case_name : string) : option regex :=
  match cases self !! case_name ≫= pattern with
  | Some p => Some p
  | None => CASE_PATTERNS !! case_name
  end.

(** [Convention.check(name, case_name)] *)
Definition check (self : Convention) (name case_name : string)
  : result (list string) :=
  match get_pattern self case_name with
  | None => Ok ["Unknown case style: " +:+ case_name]
  | Some pattern =>
      match re_match pattern name with
      | Some _ => Ok []
      | None =>
          let issues := ["Does not match " +:+ case_name] in
          let* words := extract_words name in
          if 3 <? List.length words
          then Ok (issues ++ ["Too many segments (>3) - needs manual review"])
          else
            let* suggested := convert_case (Words words) case_name in
            if pyval_eqb suggested (PyStr name)
            then Ok issues
            else Ok (issues ++ ["Suggested: '" +:+ py_str suggested +:+ "'"])
      end
  end.

(** [Convention.get_suggested_name(name, case_name)] *)
Definition get_suggested_name (self : Convention) (name case_name : string)
  : result pyval :=
  convert_case (Name name) case_name.

(** ** Specification-side definitions *)

(** [any p s]: some character of [s] satisfies [p]. *)
Fixpoint any (p : ascii -> bool) (s : string) : bool :=
  match s with
  | EmptyString => false
  | String c t => p c || any p t
  end.

(** The word made of the first character of each word: the initialism
    of the specification. *)
Fixpoint initialism (words : list string) : string :=
  match words with
  | [] => EmptyString
  | String c _ :: ws => String c (initialism ws)
  | EmptyString :: ws => initialism ws
  end.

(** ** Reference semantics of patterns

    The texts a pattern stands for, independent of the order in which the
    matcher above tries them. *)

(** The character before the position reached after reading [w]. *)
Fixpoint last_of (prev : option ascii) (w : string) : option ascii :=
  match w with
  | EmptyString => prev
  | String c t => last_of (Some c) t
  end.

(** [lang r w]: [r] can consume the text [w]. Assertions ([(?=r)], [\b],
    [^], [$]) consume nothing; whether they hold depends on the context
    and is not part of this relation. *)
Inductive lang : regex -> string -> Prop :=
| L_eps : lang Eps EmptyString
| L_lit c : lang (Lit c) (String c EmptyString)
| L_class rs c : in_class rs c = true -> lang (Class rs) (String c EmptyString)
| L_seq r1 r2 w1 w2 : lang r1 w1 -> lang r2 w2 -> lang (Seq r1 r2) (w1 +:+ w2)
| L_alt_l r1 r2 w : lang r1 w -> lang (Alt r1 r2) w
| L_alt_r r1 r2 w : lang r2 w -> lang (Alt r1 r2) w
| L_opt_none r : lang (Opt r) EmptyString
| L_opt_some r w : lang r w -> lang (Opt r) w
| L_star_nil r : lang (Star r) EmptyString
| L_star_cons r w1 w2 :
    lang r w1 -> w1 <> EmptyString -> lang (Star r) w2 -> lang (Star r) (w1 +:+ w2)
| L_plus r w1 w2 : lang r w1 -> lang (Star r) w2 -> lang (Plus r) (w1 +:+ w2)
| L_look r : lang (Lookahead r) EmptyString
| L_wordb : lang WordB EmptyString
| L_bol : lang Bol EmptyString
| L_eol : lang Eol EmptyString.

(** A pattern without assertions. *)
Fixpoint plain (r : regex) : bool :=
  match r with
  | Eps | Lit _ | Class _ => true
  | Seq r1 r2 | Alt r1 r2 => plain r1 && plain r2
  | Opt r1 | Star r1 | Plus r1 => plain r1
  | Lookahead _ | WordB | Bol | Eol => false
  end.

(** [^body$] *)
Definition anchored (body : regex) : regex := Seq Bol (Seq body Eol).

(** [all p s]: every character of [s] satisfies [p]. *)
Fixpoint all (p : ascii -> bool) (s : string) : bool :=
  match s with
  | EmptyString => true
  | String c t => p c && all p t
  end.

(** The bodies of the four built-in patterns. *)
Definition kebab_body : regex :=
  Seq (Plus lower_digit_cls) (Star (Seq (Lit "-") (Plus lower_digit_cls))).
Definition snake_body : regex := Seq lower_cls (Star snake_cls).
Definition camel_body : regex := Seq lower_cls (Star alnum_cls).
Definition pascal_body : regex := Seq upper_cls (Star alnum_cls).

Definition builtin_body (case_name : string) : option regex :=
  if String.eqb case_name "kebab-case" then Some kebab_body
  else if String.eqb case_name "snake_case" then Some snake_body
  else if String.eqb case_name "camelCase" then Some camel_body
  else if String.eqb case_name "PascalCase" then Some pascal_body
  else None.

(** [reach r st st']: [st'] is the position after a text of [lang r]
    read from [st]. *)
Definition reach (r : regex) (st st' : state) : Prop :=
  exists w, rest st = w +:+ rest st' /\ lang r w /\ fst st' = last_of (fst st) w.

(** ** Reference functions for the two tokenizer paths *)

Definition is_ld (c : ascii) : bool := is_lower c || is_digit c.
Definition is_alnum (c : ascii) : bool := is_lower c || is_upper c || is_digit c.
Definition is_sep (c : ascii) : bool := Ascii.eqb c "-" || Ascii.eqb c "_".

(** The pieces of [s] between the characters that satisfy [p]: every such
    character is a split point of its own. *)
Fixpoint pieces (p : ascii -> bool) (s : string) : list string :=
  match s with
  | EmptyString => [EmptyString]
  | String c t =>
      if p c then EmptyString :: pieces p t
      else match pieces p t with
           | w :: ws => String c w :: ws
           | [] => [String c EmptyString]
           end
  end.

(** The positions the greedy repetition of a character class can stop at,
    the farthest first. *)
Fixpoint run_ends (p : ascii -> bool) (prev : option ascii) (s : string)
  : list state :=
  match s with
  | String c t => if p c then run_ends p (Some c) t ++ [(prev, s)] else [(prev, s)]
  | EmptyString => [(prev, s)]
  end.

(** The position after the longest run of characters that satisfy [p]. *)
Fixpoint skip_run (p : ascii -> bool) (prev : option ascii) (s : string) : state :=
  match s with
  | String c t => if p c then skip_run p (Some c) t else (prev, s)
  | EmptyString => (prev, s)
  end.

(** [s] is empty or starts with a character that fails [p]. *)
Definition stops (p : ascii -> bool) (s : string) : bool :=
  match s with
  | EmptyString => true
  | String c _ => negb (p c)
  end.

(** A word of a compound-capital name as the tokenizer cuts it when no
    acronym is involved: lower-case letters and digits, after an optional
    upper-case letter that does not stand alone. *)
Definition is_token (w : string) : bool :=
  match w with
  | EmptyString => false
  | String c t =>
      all is_ld t && (is_ld c || (is_upper c && negb (String.eqb t EmptyString)))
  end.

Definition starts_upper (w : string) : bool :=
  match w with
  | EmptyString => false
  | String c _ => is_upper c
  end.

(** [s] does not start with a separator. *)
Definition first_ok (s : string) : bool := stops is_sep s.

(** [s] does not end with a separator. *)
Definition last_ok (s : string) : bool :=
  match last_of None s with
  | Some c => negb (is_sep c)
  | None => true
  end.

(** [smap f s]: [f] applied to every character of [s]. *)
Fixpoint smap (f : ascii -> ascii) (s : string) : string :=
  match s with
  | EmptyString => EmptyString
  | String c t => String (f c) (smap f t)
  end.

(** ** The category checks of [Convention] and their caller *)

(** [self.naming], the [naming] section of the conventions document, as
    the category checks read it:
    - [naming_case] is [naming.case], which [Convention] keeps as
      [self.cases];
    - [naming_repository] and [naming_directory] are the values under
      [case] of [naming.repository] and [naming.directory], [None] when
      the section or the key is missing;
    - [naming_language] is [naming.language]: for a language, the style of
      each element type.
    Every section is a mapping and every style a string: a document in
    which a section is null or of another type (as in [repository: null],
    where the code raises [AttributeError]) is outside the embedding. *)
Record Naming : Type := {
  naming_case : gmap string case_entry;
  naming_repository : option string;
  naming_directory : option string;
  naming_language : gmap string (gmap string string)
}.

(** [Convention.__init__]: [self.cases = self.naming.get('case', {})]. *)
Definition convention_of (naming : Naming) : Convention :=
  {| cases := naming_case naming |}.

(** What [if not case_style] lets through: a style that is neither
    missing nor the empty string. *)
Definition truthy (style : option string) : option string :=
  match style with
  | Some EmptyString => None
  | _ => style
  end.

(** [Convention.check_repository(name)] *)
Definition check_repository (self : Naming) (name : string) : result (list string) :=
  match truthy (naming_repository self) with
  | None => Ok ["No repository convention defined"]
  | Some case_style => check (convention_of self) name case_style
  end.

(** [Convention.check_directory(name)] *)
Definition check_directory (self : Naming) (name : string) : result (list string) :=
  match truthy (naming_directory self) with
  | None => Ok ["No directory convention defined"]
  | Some case_style => check (convention_of self) name case_style
  end.

(** [Convention.check_language(name, language, element_type)]. A language
    that is missing and one whose mapping is empty are both falsy. *)
Definition check_language (self : Naming) (name language element_type : string)
  : result (list string) :=
  let lang := default ∅ (naming_language self !! language) in
  if decide (lang = ∅)
  then Ok ["No conventions for language: " +:+ language]
  else
    match truthy (lang !! element_type) with
    | None => Ok ["No convention for " +:+ language +:+ " " +:+ element_type]
    | Some case_style => check (convention_of self) name case_style
    end.

(** [check_naming_convention(repo_name, convention)] of
    [repo_conventions_enforcer.py] *)
Definition check_naming_convention (repo_name : string) (convention : Naming)
  : result (list string) :=
  check_repository convention repo_name.

(** [count p s]: the number of characters of [s] that satisfy [p]. *)
Fixpoint count (p : ascii -> bool) (s : string) : nat :=
  match s with
  | EmptyString => 0
  | String c t => (if p c then 1 else 0) + count p t
  end.

(** No two adjacent characters of [s] both satisfy [p]. *)
Fixpoint no_adjacent (p : ascii -> bool) (s : string) : bool :=
  match s with
  | EmptyString => true
  | String c t => (negb (p c) || stops p t) && no_adjacent p t
  end.


(** What lets the acronym branch [[A-Z]+(?=[A-Z][a-z]|\b)] stop before
    [s]: the end of the text, a character that is not a word character,
    or an upper-case letter followed by a lower-case letter. *)
Definition ends_acronym (s : string) : bool :=
  match s with
  | EmptyString => true
  | String u t =>
      negb (is_word u) ||
      (is_upper u && match t with String d _ => is_lower d | EmptyString => false end)
  end.

(** [c] is an ASCII code point: the characters on which the embedding of
    [str.lower], [str.capitalize], [\w] and [\b] is the one of Python. *)
Definition is_ascii (c : ascii) : bool := nat_of_ascii c <? 128.

(** The rendering rules of the four styles, applied to a word sequence as
    it stands: words joined with a hyphen, joined with an underscore,
    first word unchanged and the others capitalized, every word
    capitalized. A style outside the four, or camelCase without a first
    word, has no rendering. *)
Definition render (words : list string) (style : string) : option string :=
  if String.eqb style "kebab-case" then Some (join "-" words)
  else if String.eqb style "snake_case" then Some (join "_" words)
  else if String.eqb style "camelCase" then
    match words with
    | [] => None
    | w :: ws => Some (w +:+ join "" (map capitalize ws))
    end
  else if String.eqb style "PascalCase" then Some (join "" (map capitalize words))
  else None.

(** Every word has a first character. *)
Definition all_nonempty (words : list string) : bool :=
  forallb (fun w => negb (String.eqb w EmptyString)) words.

(** A single upper-case letter. *)
Definition is_capital (w : string) : bool :=
  match w with
  | String c EmptyString => is_upper c
  | _ => false
  end.

(** [blocks_ok bs]: each of the texts [bs] is a well-formed word in front
    of the end of the text or of a character that is no lower-case letter
    or digit, or a single upper-case letter in front of what ends an
    acronym. These are the texts the compound-capital pattern cuts
    [join "" bs] into. *)
Fixpoint blocks_ok (bs : list string) : bool :=
  match bs with
  | [] => true
  | b :: rest =>
      ((is_token b && stops is_ld (join "" rest)) ||
       (is_capital b && ends_acronym (join "" rest))) &&
      blocks_ok rest
  end.

(** What follows an upper-case letter that comes back unchanged from the
    tokenizer and the renderer: the end of the name, a lower-case letter
    or digit, or an upper-case letter with a lower-case letter behind it. *)
Definition capital_follow (t : string) : bool :=
  match t with
  | EmptyString => true
  | String d u =>
      is_ld d ||
      (is_upper d && match u with String e _ => is_lower e | EmptyString => false end)
  end.

(** Every upper-case letter of [s] is followed as [capital_follow] says. *)
Fixpoint single_capitals (s : string) : bool :=
  match s with
  | EmptyString => true
  | String c t => (negb (is_upper c) || capital_follow t) && single_capitals t
  end.

(** A non-empty word of lower-case letters and digits. *)
Definition plain_word (w : string) : bool :=
  negb (String.eqb w EmptyString) && all is_ld w.

(** A word that the tokenizer finds again once it is capitalized and
    followed by the capitalized words [rest]: it starts with a lower-case
    letter, goes on with lower-case letters and digits, and if it is a
    single letter it is the last word or the next word has a lower-case
    letter as its second character. *)
Definition cap_word_ok (w : string) (rest : list string) : bool :=
  match w with
  | EmptyString => false
  | String c t =>
      is_lower c && all is_ld t &&
      (negb (String.eqb t EmptyString) ||
       match rest with
       | [] => true
       | String _ (String d _) :: _ => is_lower d
       | _ => false
       end)
  end.

Fixpoint cap_words_ok (ws : list string) : bool :=
  match ws with
  | [] => true
  | w :: rest => cap_word_ok w rest && cap_words_ok rest
  end.

(** The word sequences that come back from camelCase: a plain first word,
    then words that can be capitalized. *)
Definition camel_words_ok (words : list string) : bool :=
  match words with
  | [] => false
  | w :: ws => plain_word w && cap_words_ok ws
  end.

(** The word sequences that come back from PascalCase: as for camelCase
    when the first word starts with a digit, which capitalizing leaves
    alone; otherwise the first word is capitalized like the others. *)
Definition pascal_words_ok (words : list string) : bool :=
  match words with
  | [] => false
  | String c t :: ws =>
      if is_digit c then plain_word (String c t) && cap_words_ok ws
      else cap_words_ok words
  | EmptyString :: _ => false
  end.

(** [s] ends with the character [c]. *)
Definition ends_with (c : ascii) (s : string) : bool :=
  match last_of None s with
  | Some d => Ascii.eqb d c
  | None => false
  end.

(** * Properties *)

(** ** Basic facts *)

#[local] Arguments in_range : simpl never.
#[local] Arguments in_class : simpl never.
#[local] Arguments is_word : simpl never.
#[local] Arguments lower_char : simpl never.
#[local] Arguments upper_char : simpl never.
#[local] Arguments String.append !s1 s2 : simpl nomatch.

Lemma in_class_letter c : in_class [("a", "z"); ("A", "Z")]%char c = is_letter c.
Proof. unfold in_class, is_letter, is_lower, is_upper. cbn. now rewrite orb_false_r. Qed.

(** [re.search('[a-zA-Z]', s)] finds something exactly when [s] has an
    ASCII letter. *)
Lemma search_letter_none prev s :
  search_from letter_re prev s = None <-> any is_letter s = false.
Proof.
  revert prev. induction s as [|c t IH]; intros prev; simpl.
  - unfold match_at. simpl. tauto.
  - unfold match_at, letter_re. simpl. unfold step_char. simpl.
    fold letter_re. rewrite in_class_letter. destruct (is_letter c); simpl.
    + split; discriminate.
    + apply IH.
Qed.

Lemma re_search_letter_none s :
  re_search letter_re s = None <-> any is_letter s = false.
Proof. apply search_letter_none. Qed.

(** Without a letter the tokenizer raises [ValueError]. *)
Lemma extract_words_no_letter name :
  any is_letter name = false ->
  extract_words name =
    Raise (ValueError ("Name must contain at least one letter: '" +:+ name +:+ "'")).
Proof.
  intros H. unfold extract_words.
  apply re_search_letter_none in H. now rewrite H.
Qed.

(** Rendering a non-empty list of at most three words does not raise. *)
Lemma convert_case_small words target_case :
  words <> [] -> List.length words <= 3 ->
  exists v, convert_case (Words words) target_case = Ok v.
Proof.
  intros Hne Hlen. unfold convert_case. simpl.
  assert (E : (3 <? List.length words) = false) by (apply Nat.ltb_ge; lia).
  rewrite E. simpl.
  destruct (String.eqb target_case "kebab-case"); [eauto|].
  destruct (String.eqb target_case "snake_case"); [eauto|].
  destruct (String.eqb target_case "camelCase").
  - destruct words; [contradiction|eauto].
  - destruct (String.eqb target_case "PascalCase"); eauto.
Qed.

(** ** The collapse of long word sequences in [convert_case] *)

Lemma first_chars_initialism words :
  Forall (fun w => w <> EmptyString) words ->
  exists cs, first_chars words = Ok cs /\ join "" cs = initialism words.
Proof.
  induction 1 as [|w ws Hw _ [cs [Hcs Hj]]]; simpl.
  - exists []. split; reflexivity.
  - destruct w as [|c t]; [contradiction|]. simpl. rewrite Hcs. cbn [bind].
    eexists. split; [reflexivity|].
    unfold join in *. simpl. rewrite <- Hj.
    destruct cs; reflexivity.
Qed.

(** C4 as stated fails: the four words are rendered in kebab-case as one
    word, so no separator appears between the initials. *)
Lemma convert_case_four_words_not_hyphenated :
  convert_case (Words ["open"; "pdf"; "studio"; "tool"]) "kebab-case"
    <> Ok (PyStr "o-p-s-t").
Proof. vm_compute. discriminate. Qed.

(** C4, amended. The 4-word sequence ["open","pdf","studio","tool"] is
    rendered in kebab-case as the single initialism "opst". *)
Theorem convert_case_four_words_kebab :
  convert_case (Words ["open"; "pdf"; "studio"; "tool"]) "kebab-case"
    = Ok (PyStr "opst").
Proof. reflexivity. Qed.

(** ** Styles outside the four branches of [convert_case] *)

(** C5. A style outside the supported set makes [convert_case] and
    [get_suggested_name] return [None]: no error that names the style is
    raised. *)
Theorem convert_case_unknown_style_returns_none :
  convert_case (Words ["my"; "repo"]) "Title-Case" = Ok PyNone /\
  get_suggested_name no_overrides "my-repo" "Title-Case" = Ok PyNone /\
  get_pattern no_overrides "Title-Case" = None.
Proof. repeat split; vm_compute; reflexivity. Qed.

(** For every word sequence, a style outside the supported set gives
    [None], or the [IndexError] of the collapse. *)
Lemma convert_case_unknown_style (words : list string) (target_case : string) :
  ~ In target_case CASE_STYLES ->
  convert_case (Words words) target_case = Ok PyNone \/
  exists msg, convert_case (Words words) target_case = Raise (IndexError msg).
Proof.
  intros Hout. unfold convert_case. cbn [bind].
  assert (forall ws, (if String.eqb target_case "kebab-case" then Ok (PyStr (join "-" ws))
    else if String.eqb target_case "snake_case" then Ok (PyStr (join "_" ws))
    else if String.eqb target_case "camelCase" then
      match ws with
      | [] => Raise (IndexError "list index out of range")
      | w :: ws' => Ok (PyStr (w +:+ join "" (map capitalize ws')))
      end
    else if String.eqb target_case "PascalCase" then
      Ok (PyStr (join "" (map capitalize ws)))
    else Ok PyNone) = Ok PyNone) as Hfall.
  { intros ws.
    destruct (String.eqb_spec target_case "kebab-case") as [->|_];
      [exfalso; apply Hout; simpl; tauto|].
    destruct (String.eqb_spec target_case "snake_case") as [->|_];
      [exfalso; apply Hout; simpl; tauto|].
    destruct (String.eqb_spec target_case "camelCase") as [->|_];
      [exfalso; apply Hout; simpl; tauto|].
    destruct (String.eqb_spec target_case "PascalCase") as [->|_];
      [exfalso; apply Hout; simpl; tauto|].
    reflexivity. }
  destruct (3 <? List.length words).
  - destruct (first_chars words) as [cs|e] eqn:Hcs; cbn [bind].
    + left. apply Hfall.
    + right. clear - Hcs. revert e Hcs.
      induction words as [|w ws IH]; intros e; simpl; [discriminate|].
      destruct w as [|c t]; simpl.
      * intros [= <-]. eauto.
      * destruct (first_chars ws) as [cs|e']; cbn [bind]; [discriminate|].
        intros [= <-]. eapply IH. reflexivity.
  - left. apply Hfall.
Qed.

(** ** The delimiter path of [extract_words] *)

(** C6. Two adjacent separators are two split points: for a name with
    a letter whose stripped form has a separator, the tokenizer returns an
    empty segment between them. *)
Theorem extract_words_adjacent_separators :
  any is_letter "a--b" = true /\
  contains "-" (strip "-_" "a--b") = true /\
  extract_words "a--b" = Ok ["a"; ""; "b"] /\
  extract_words "my-_repo" = Ok ["my"; ""; "repo"].
Proof. repeat split; vm_compute; reflexivity. Qed.

(** C9. A name with a letter and two adjacent separators among four
    segments makes [get_suggested_name] raise [IndexError] in the
    collapse. *)
Theorem get_suggested_name_index_error :
  any is_letter "a--b-c" = true /\
  In "kebab-case" CASE_STYLES /\
  extract_words "a--b-c" = Ok ["a"; ""; "b"; "c"] /\
  get_suggested_name no_overrides "a--b-c" "kebab-case" =
    Raise (IndexError "string index out of range").
Proof. repeat split; vm_compute; auto. Qed.

(** ** [check] on a name without letters *)

(** C10 as stated fails at one of its examples: "1234" matches the
    built-in kebab-case pattern, so [check] returns the empty list. *)
Lemma check_digits_kebab_conformant :
  any is_letter "1234" = false /\
  get_pattern no_overrides "kebab-case" = Some kebab_pattern /\
  re_match kebab_pattern "1234" = Some "1234" /\
  check no_overrides "1234" "kebab-case" = Ok [].
Proof. repeat split; vm_compute; reflexivity. Qed.

(** C10, amended. For a known style and a name without an ASCII letter
    that fails the pattern, [check] raises the tokenizer's [ValueError];
    so do [check("", "kebab-case")] and [check("1234", "snake_case")]
    under the built-in patterns. *)
Theorem check_no_letter_raises :
  (forall (self : Convention) (name case_name : string) (pat : regex),
      get_pattern self case_name = Some pat ->
      re_match pat name = None ->
      any is_letter name = false ->
      check self name case_name =
        Raise (ValueError ("Name must contain at least one letter: '" +:+ name +:+ "'"))) /\
  check no_overrides "" "kebab-case" =
    Raise (ValueError "Name must contain at least one letter: ''") /\
  check no_overrides "1234" "snake_case" =
    Raise (ValueError "Name must contain at least one letter: '1234'").
Proof.
  split; [|split; vm_compute; reflexivity].
  intros self name case_name pat Hpat Hfail Hletters.
  unfold check. rewrite Hpat, Hfail.
  rewrite (extract_words_no_letter name Hletters). reflexivity.
Qed.

Lemma check_no_letter_raises_witness :
  get_pattern no_overrides "PascalCase" = Some pascal_pattern /\
  re_match pascal_pattern "2024_01" = None /\
  any is_letter "2024_01" = false /\
  check no_overrides "2024_01" "PascalCase" =
    Raise (ValueError "Name must contain at least one letter: '2024_01'").
Proof.
  split; [vm_compute; reflexivity|].
  split; [vm_compute; reflexivity|].
  split; [vm_compute; reflexivity|].
  apply (proj1 check_no_letter_raises no_overrides "2024_01" "PascalCase" pascal_pattern);
    vm_compute; reflexivity.
Defined.

(** ** The matcher against the reference semantics *)

Lemma sapp_nil_r (s : string) : s +:+ "" = s.
Proof. induction s as [|c t IH]; cbn; [reflexivity|f_equal; exact IH]. Qed.

Lemma sapp_assoc (s t u : string) : (s +:+ t) +:+ u = s +:+ (t +:+ u).
Proof. induction s as [|c s IH]; cbn; [reflexivity|f_equal; exact IH]. Qed.

Lemma slength_app (s t : string) :
  String.length (s +:+ t) = String.length s + String.length t.
Proof. induction s as [|c s IH]; cbn; [reflexivity|f_equal; exact IH]. Qed.

Lemma last_of_app prev w1 w2 :
  last_of prev (w1 +:+ w2) = last_of (last_of prev w1) w2.
Proof. revert prev. induction w1 as [|c t IH]; intros prev; simpl; auto. Qed.

Lemma step_char_in p st st' :
  In st' (step_char p st) <->
  exists c, p c = true /\ rest st = String c (rest st') /\ fst st' = Some c.
Proof.
  unfold step_char, rest. destruct st as [prev [|c t]]; simpl.
  - split; [intros []|intros [c [_ [E _]]]; discriminate].
  - destruct (p c) eqn:Hp; simpl.
    + split.
      * intros [<-|[]]. exists c. auto.
      * intros [d [_ [[= -> E] F]]]. left. destruct st' as [q u]; simpl in *.
        now subst.
    + split; [intros []|]. intros [d [Hd [[= -> _] _]]]. congruence.
Qed.

Lemma star_loop_sound r body :
  (forall a b, In b (body a) -> reach r a b) ->
  forall fuel st st', In st' (star_loop body fuel st) -> reach (Star r) st st'.
Proof.
  intros Hbody. induction fuel as [|f IH]; intros st st' Hin; simpl in Hin.
  - destruct Hin as [<-|[]]. exists "". repeat split. constructor.
  - apply in_app_or in Hin. destruct Hin as [Hin|[<-|[]]].
    + apply in_flat_map in Hin. destruct Hin as [st1 [H1 H2]].
      destruct (String.length (rest st1) <? String.length (rest st)) eqn:Hlt;
        [|destruct H2].
      apply Nat.ltb_lt in Hlt.
      destruct (Hbody _ _ H1) as [w1 [E1 [L1 P1]]].
      destruct (IH _ _ H2) as [w2 [E2 [L2 P2]]].
      exists (w1 +:+ w2). split; [|split].
      * now rewrite sapp_assoc, <- E2.
      * constructor; auto. intros ->. simpl in E1. rewrite E1 in Hlt. lia.
      * now rewrite last_of_app, <- P1.
    + exists "". repeat split. constructor.
Qed.

(** Every way the matcher finds consumes a text of the pattern. *)
Lemma exec_sound r : forall st st', In st' (exec r st) -> reach r st st'.
Proof.
  induction r as [|c|rs|r1 IH1 r2 IH2|r1 IH1 r2 IH2|r1 IH1|r1 IH1|r1 IH1|r1 IH1| | | ];
    intros st st' Hin; simpl in Hin.
  - destruct Hin as [<-|[]]. exists "". repeat split. constructor.
  - apply step_char_in in Hin. destruct Hin as [d [Hd [E P]]].
    apply Ascii.eqb_eq in Hd. subst d. exists (String c "").
    repeat split; auto. constructor.
  - apply step_char_in in Hin. destruct Hin as [d [Hd [E P]]].
    exists (String d ""). repeat split; auto. now constructor.
  - apply in_flat_map in Hin. destruct Hin as [st1 [H1 H2]].
    destruct (IH1 _ _ H1) as [w1 [E1 [L1 P1]]].
    destruct (IH2 _ _ H2) as [w2 [E2 [L2 P2]]].
    exists (w1 +:+ w2). split; [|split].
    + now rewrite sapp_assoc, <- E2.
    + now constructor.
    + now rewrite last_of_app, <- P1.
  - apply in_app_or in Hin. destruct Hin as [Hin|Hin].
    + destruct (IH1 _ _ Hin) as [w [E [L P]]]. exists w. repeat split; auto.
      now apply L_alt_l.
    + destruct (IH2 _ _ Hin) as [w [E [L P]]]. exists w. repeat split; auto.
      now apply L_alt_r.
  - apply in_app_or in Hin. destruct Hin as [Hin|[<-|[]]].
    + destruct (IH1 _ _ Hin) as [w [E [L P]]]. exists w. repeat split; auto.
      now apply L_opt_some.
    + exists "". repeat split. constructor.
  - eapply star_loop_sound; eauto.
  - apply in_flat_map in Hin. destruct Hin as [st1 [H1 H2]].
    destruct (IH1 _ _ H1) as [w1 [E1 [L1 P1]]].
    destruct (star_loop_sound r1 (exec r1) IH1 _ _ _ H2) as [w2 [E2 [L2 P2]]].
    exists (w1 +:+ w2). split; [|split].
    + now rewrite sapp_assoc, <- E2.
    + now constructor.
    + now rewrite last_of_app, <- P1.
  - destruct (exec r1 st); [destruct Hin|]. destruct Hin as [<-|[]].
    exists "". repeat split. constructor.
  - destruct (xorb _ _); [|destruct Hin]. destruct Hin as [<-|[]].
    exists "". repeat split. constructor.
  - destruct (fst st); [destruct Hin|]. destruct Hin as [<-|[]].
    exists "". repeat split. constructor.
  - destruct (at_eol st); [|destruct Hin]. destruct Hin as [<-|[]].
    exists "". repeat split. constructor.
Qed.

Lemma flat_map_nil {A B} (f : A -> list B) (l : list A) :
  (forall a, In a l -> f a = []) -> flat_map f l = [].
Proof.
  induction l as [|a l IH]; intros H; simpl; [reflexivity|].
  rewrite (H a) by (now left). apply IH. intros b Hb. apply H. now right.
Qed.

Lemma flat_map_ext_in {A B} (f g : A -> list B) (l : list A) :
  (forall a, In a l -> f a = g a) -> flat_map f l = flat_map g l.
Proof.
  induction l as [|a l IH]; intros H; simpl; [reflexivity|].
  rewrite (H a) by (now left). f_equal. apply IH. intros b Hb. apply H. now right.
Qed.

(** Enough fuel: the repetition does not depend on it. *)
Lemma star_loop_fuel body : forall f1 f2 st,
  String.length (rest st) <= f1 -> String.length (rest st) <= f2 ->
  star_loop body f1 st = star_loop body f2 st.
Proof.
  assert (Hzero : forall f st, String.length (rest st) = 0 ->
                               star_loop body f st = [st]).
  { intros [|f] st H0; simpl; [reflexivity|]. rewrite flat_map_nil; [reflexivity|].
    intros a _. rewrite H0. reflexivity. }
  induction f1 as [|f1 IH]; intros f2 st H1 H2.
  - rewrite (Hzero f2) by lia. reflexivity.
  - destruct f2 as [|f2].
    + rewrite (Hzero (S f1)) by lia. reflexivity.
    + simpl. f_equal. apply flat_map_ext_in. intros a _.
      destruct (String.length (rest a) <? String.length (rest st)) eqn:Hlt;
        [|reflexivity].
      apply Nat.ltb_lt in Hlt. apply IH; lia.
Qed.

(** The matcher finds every text of a pattern without assertions. *)
Lemma exec_complete r w :
  lang r w -> plain r = true ->
  forall prev s', In (last_of prev w, s') (exec r (prev, w +:+ s')).
Proof.
  induction 1 as [|c|rs c Hc|r1 r2 w1 w2 _ IH1 _ IH2|r1 r2 w _ IH|r1 r2 w _ IH
                  |r|r w _ IH|r|r w1 w2 _ IH1 Hne _ IH2|r w1 w2 _ IH1 _ IH2
                  |r| | | ];
    intros Hplain prev s'; simpl in Hplain; try discriminate.
  - now left.
  - simpl. unfold step_char. simpl. rewrite Ascii.eqb_refl. now left.
  - simpl. unfold step_char. simpl. rewrite Hc. now left.
  - apply andb_prop in Hplain. destruct Hplain as [P1 P2]. simpl.
    apply in_flat_map. exists (last_of prev w1, w2 +:+ s'). split.
    + rewrite sapp_assoc. now apply IH1.
    + rewrite last_of_app. now apply IH2.
  - apply andb_prop in Hplain. destruct Hplain as [P1 P2]. simpl.
    apply in_or_app. left. now apply IH.
  - apply andb_prop in Hplain. destruct Hplain as [P1 P2]. simpl.
    apply in_or_app. right. now apply IH.
  - simpl. apply in_or_app. right. now left.
  - simpl. apply in_or_app. left. now apply IH.
  - simpl. destruct (String.length _); simpl; [now left|].
    apply in_or_app. right. now left.
  - simpl. unfold rest. simpl.
    destruct w1 as [|c w1]; [contradiction|]. simpl String.length.
    cbn [star_loop]. apply in_or_app. left. apply in_flat_map.
    exists (last_of prev (String c w1), w2 +:+ s'). split.
    + specialize (IH1 Hplain prev (w2 +:+ s')). rewrite <- sapp_assoc in IH1.
      exact IH1.
    + unfold rest. simpl.
      assert (Hlt : (String.length (w2 +:+ s') <? S (String.length ((w1 +:+ w2) +:+ s'))) = true).
      { apply Nat.ltb_lt. rewrite !slength_app. lia. }
      rewrite Hlt. rewrite last_of_app.
      specialize (IH2 Hplain (last_of prev (String c w1)) s'). simpl in IH2.
      erewrite star_loop_fuel; [exact IH2| |]; unfold rest; simpl;
        rewrite !slength_app; lia.
  - simpl. apply in_flat_map. exists (last_of prev w1, w2 +:+ s'). split.
    + rewrite sapp_assoc. now apply IH1.
    + rewrite last_of_app. specialize (IH2 Hplain (last_of prev w1) s').
      simpl in IH2. exact IH2.
Qed.

(** ** Anchored patterns: [re.match] against [re.fullmatch] *)

Lemma flat_map_flat_map {A B C} (f : A -> list B) (g : B -> list C) (l : list A) :
  flat_map g (flat_map f l) = flat_map (fun a => flat_map g (f a)) l.
Proof.
  induction l as [|a l IH]; simpl; [reflexivity|].
  now rewrite flat_map_app, IH.
Qed.

Lemma exec_anchored_shape A B st :
  exec (Seq Bol (Seq A (Seq B Eol))) st = exec (anchored (Seq A B)) st.
Proof.
  unfold anchored. simpl. destruct (fst st); simpl; [reflexivity|].
  rewrite !List.app_nil_r. now rewrite flat_map_flat_map.
Qed.

Lemma at_eol_iff st :
  at_eol st = true <-> rest st = "" \/ rest st = String LF "".
Proof.
  unfold at_eol, rest. destruct (snd st) as [|c [|d t]].
  - split; auto.
  - rewrite Ascii.eqb_eq. split.
    + intros ->. now right.
    + intros [H|H]; [discriminate|now injection H].
  - split; [discriminate|]. intros [H|H]; discriminate.
Qed.

Lemma exec_anchored_in body s st' :
  In st' (exec (anchored body) (None, s)) <->
  In st' (exec body (None, s)) /\ at_eol st' = true.
Proof.
  unfold anchored. simpl. rewrite List.app_nil_r. rewrite in_flat_map. split.
  - intros [st1 [H1 H2]]. destruct (at_eol st1) eqn:E; [|destruct H2].
    destruct H2 as [<-|[]]. auto.
  - intros [H1 H2]. exists st'. rewrite H2. split; [assumption|now left].
Qed.

Lemma re_match_some r s :
  re_match r s <> None <-> exists st', In st' (exec r (None, s)).
Proof.
  unfold re_match, match_at. destruct (exec r (None, s)) as [|st l]; simpl.
  - split; [congruence|intros [st' []]].
  - split; [|discriminate]. intros _. exists st. now left.
Qed.

Lemma re_fullmatch_some r s :
  re_fullmatch r s <> None <->
  exists st', In st' (exec r (None, s)) /\ rest st' = "".
Proof.
  unfold re_fullmatch.
  destruct (filter (fun st' => rest st' = "") (exec r (None, s))) as [|st l] eqn:E.
  - split; [congruence|]. intros [st' [H1 H2]].
    assert (Hin : st' ∈ filter (fun st' => rest st' = "") (exec r (None, s))).
    { apply list_elem_of_filter. split; [assumption|now apply list_elem_of_In]. }
    rewrite E in Hin. inversion Hin.
  - split; [|discriminate]. intros _. exists st.
    assert (Hin : st ∈ filter (fun st' => rest st' = "") (exec r (None, s))).
    { rewrite E. left. }
    apply list_elem_of_filter in Hin. destruct Hin as [H1 H2].
    split; [now apply list_elem_of_In|assumption].
Qed.

(** [re.fullmatch] with [^body$]: the whole text is a text of [body]. *)
Lemma fullmatch_anchored body s :
  plain body = true ->
  re_fullmatch (anchored body) s <> None <-> lang body s.
Proof.
  intros Hplain. rewrite re_fullmatch_some. split.
  - intros [st' [Hin Hrest]]. apply exec_anchored_in in Hin. destruct Hin as [Hin _].
    apply exec_sound in Hin. destruct Hin as [w [E [L _]]].
    simpl in E. rewrite Hrest, sapp_nil_r in E. now subst.
  - intros L. exists (last_of None s, ""). split; [|reflexivity].
    apply exec_anchored_in. split; [|reflexivity].
    pose proof (exec_complete body s L Hplain None "") as H.
    now rewrite sapp_nil_r in H.
Qed.

(** [re.match] with [^body$]: the whole text, or the text without a final
    line feed, is a text of [body]. *)
Lemma match_anchored body s :
  plain body = true ->
  re_match (anchored body) s <> None <->
  lang body s \/ exists w, s = w +:+ String LF "" /\ lang body w.
Proof.
  intros Hplain. rewrite re_match_some. split.
  - intros [st' [Hin Heol]%exec_anchored_in].
    apply exec_sound in Hin. destruct Hin as [w [E [L _]]]. simpl in E.
    apply at_eol_iff in Heol. destruct Heol as [Hr|Hr]; rewrite Hr in E.
    + left. rewrite sapp_nil_r in E. now subst.
    + right. exists w. auto.
  - intros [L|[w [-> L]]].
    + exists (last_of None s, ""). apply exec_anchored_in. split; [|reflexivity].
      pose proof (exec_complete body s L Hplain None "") as H.
      now rewrite sapp_nil_r in H.
    + exists (last_of None w, String LF ""). apply exec_anchored_in.
      split; [|reflexivity]. now apply exec_complete.
Qed.

Lemma match_fullmatch_anchored body s :
  plain body = true ->
  re_match (anchored body) s <> None <->
  re_fullmatch (anchored body) s <> None \/
  exists w, s = w +:+ String LF "" /\ re_fullmatch (anchored body) w <> None.
Proof.
  intros Hplain. rewrite match_anchored by assumption.
  rewrite fullmatch_anchored by assumption.
  split; (intros [H|[w [E H]]]; [now left|right; exists w; split; [assumption|]]).
  - now apply fullmatch_anchored.
  - now apply fullmatch_anchored in H.
Qed.

Lemma CASE_PATTERNS_lookup case_name pat :
  CASE_PATTERNS !! case_name = Some pat ->
  (case_name = "kebab-case" /\ pat = kebab_pattern) \/
  (case_name = "snake_case" /\ pat = snake_pattern) \/
  (case_name = "camelCase" /\ pat = camel_pattern) \/
  (case_name = "PascalCase" /\ pat = pascal_pattern).
Proof.
  unfold CASE_PATTERNS. simpl. rewrite !lookup_insert.
  repeat (destruct (decide _) as [<-|_]; [intros [= <-]; tauto|]).
  rewrite lookup_empty. discriminate.
Qed.

Lemma builtin_pattern_anchored case_name pat :
  CASE_PATTERNS !! case_name = Some pat ->
  exists body, builtin_body case_name = Some body /\ plain body = true /\
               (forall st, exec pat st = exec (anchored body) st).
Proof.
  intros H. apply CASE_PATTERNS_lookup in H.
  destruct H as [[-> ->]|[[-> ->]|[[-> ->]|[-> ->]]]].
  - exists kebab_body. repeat split. intros st. apply exec_anchored_shape.
  - exists snake_body. repeat split. intros st. apply exec_anchored_shape.
  - exists camel_body. repeat split. intros st. apply exec_anchored_shape.
  - exists pascal_body. repeat split. intros st. apply exec_anchored_shape.
Qed.

Lemma re_match_exec_ext r1 r2 s :
  (forall st, exec r1 st = exec r2 st) -> re_match r1 s = re_match r2 s.
Proof. intros H. unfold re_match, match_at. now rewrite H. Qed.

Lemma re_fullmatch_exec_ext r1 r2 s :
  (forall st, exec r1 st = exec r2 st) -> re_fullmatch r1 s = re_fullmatch r2 s.
Proof. intros H. unfold re_fullmatch. now rewrite H. Qed.

Lemma check_empty_iff self name case_name pat :
  get_pattern self case_name = Some pat ->
  check self name case_name = Ok [] <-> re_match pat name <> None.
Proof.
  intros Hpat. unfold check. rewrite Hpat.
  destruct (re_match pat name) as [m|]; [split; [discriminate|reflexivity]|].
  split; [|congruence]. intros H. exfalso. revert H.
  destruct (extract_words name) as [words|e]; cbn [bind]; [|discriminate].
  destruct (3 <? List.length words); [discriminate|].
  destruct (convert_case (Words words) case_name) as [v|e]; cbn [bind];
    [|discriminate].
  destruct (pyval_eqb v (PyStr name)); discriminate.
Qed.

(** C2 as stated fails: [check] accepts a name of which the pattern
    matches a proper prefix only. Under the built-in kebab-case pattern
    "abc" followed by a line feed is conformant, and under an override
    without the closing anchor so is "my-repo_Name". *)
Lemma check_accepts_prefix_match :
  (get_pattern no_overrides "kebab-case" = Some kebab_pattern /\
   check no_overrides ("abc" +:+ String LF "") "kebab-case" = Ok [] /\
   re_match kebab_pattern ("abc" +:+ String LF "") = Some "abc" /\
   re_fullmatch kebab_pattern ("abc" +:+ String LF "") = None) /\
  (let unanchored := Seq Bol kebab_body in
   let conv := {| cases := {[ "kebab-case" := {| pattern := Some unanchored |} ]} |} in
   get_pattern conv "kebab-case" = Some unanchored /\
   check conv "my-repo_Name" "kebab-case" = Ok [] /\
   re_match unanchored "my-repo_Name" = Some "my-repo" /\
   re_fullmatch unanchored "my-repo_Name" = None).
Proof. repeat split; vm_compute; reflexivity. Qed.

(** C2, amended. For a known style, [check] returns the empty list if
    and only if [re.match] finds a match of the pattern at the start of
    the name. For the four built-in patterns and a name that does not end
    with a line feed this is the case exactly when the pattern matches the
    whole name. [check("openaec-tools", "kebab-case")] returns the empty
    list. *)
Theorem check_empty_iff_match :
  (forall (self : Convention) (name case_name : string) (pat : regex),
      get_pattern self case_name = Some pat ->
      (check self name case_name = Ok [] <-> re_match pat name <> None)) /\
  (forall (name case_name : string) (pat : regex),
      CASE_PATTERNS !! case_name = Some pat ->
      last_of None name <> Some LF ->
      (re_match pat name <> None <-> re_fullmatch pat name <> None)) /\
  check no_overrides "openaec-tools" "kebab-case" = Ok [].
Proof.
  split; [|split; [|vm_compute; reflexivity]].
  - intros self name case_name pat. apply check_empty_iff.
  - intros name case_name pat Hpat Hlast.
    destruct (builtin_pattern_anchored _ _ Hpat) as [body [_ [Hplain Hexec]]].
    rewrite (re_match_exec_ext _ _ name Hexec).
    rewrite (re_fullmatch_exec_ext _ _ name Hexec).
    rewrite (match_fullmatch_anchored body name Hplain).
    split; [|now left]. intros [H|[w [E _]]]; [assumption|].
    exfalso. apply Hlast. rewrite E, last_of_app. reflexivity.
Qed.

Lemma check_empty_iff_match_witness :
  get_pattern no_overrides "snake_case" = Some snake_pattern /\
  CASE_PATTERNS !! "snake_case" = Some snake_pattern /\
  last_of None "repo_cleaner" <> Some LF /\
  (check no_overrides "repo_cleaner" "snake_case" = Ok [] <->
   re_match snake_pattern "repo_cleaner" <> None) /\
  (re_match snake_pattern "repo_cleaner" <> None <->
   re_fullmatch snake_pattern "repo_cleaner" <> None).
Proof.
  assert (H1 : get_pattern no_overrides "snake_case" = Some snake_pattern)
    by (vm_compute; reflexivity).
  assert (H2 : CASE_PATTERNS !! "snake_case" = Some snake_pattern)
    by (vm_compute; reflexivity).
  assert (H3 : last_of None "repo_cleaner" <> Some LF)
    by (vm_compute; discriminate).
  split; [exact H1|]. split; [exact H2|]. split; [exact H3|]. split.
  - exact (proj1 check_empty_iff_match no_overrides "repo_cleaner" "snake_case"
                 snake_pattern H1).
  - exact (proj1 (proj2 check_empty_iff_match) "repo_cleaner" "snake_case"
                 snake_pattern H2 H3).
Defined.

(** ** Characters *)

Ltac ascii_cases c :=
  destruct c as [[] [] [] [] [] [] [] []]; vm_compute; try reflexivity;
  try discriminate; try tauto; intuition discriminate.

Lemma in_class_ld c : in_class [("a", "z"); ("0", "9")]%char c = is_ld c.
Proof. unfold in_class, is_ld, is_lower, is_digit. cbn. now rewrite orb_false_r. Qed.

Lemma in_class_upper c : in_class [("A", "Z")]%char c = is_upper c.
Proof. unfold in_class, is_upper. cbn. now rewrite orb_false_r. Qed.

Lemma in_class_lower c : in_class [("a", "z")]%char c = is_lower c.
Proof. unfold in_class, is_lower. cbn. now rewrite orb_false_r. Qed.

Lemma in_class_alnum c :
  in_class [("a", "z"); ("A", "Z"); ("0", "9")]%char c = is_alnum c.
Proof.
  unfold in_class, is_alnum, is_lower, is_upper, is_digit. cbn.
  now rewrite orb_false_r, orb_assoc.
Qed.

Lemma in_class_sep c : in_class [("-", "-"); ("_", "_")]%char c = is_sep c.
Proof. ascii_cases c. Qed.

Lemma in_class_snake c :
  in_class [("a", "z"); ("0", "9"); ("_", "_")]%char c = is_ld c || Ascii.eqb c "_".
Proof. ascii_cases c. Qed.

Lemma contains_seps c : contains c "-_" = is_sep c.
Proof. ascii_cases c. Qed.

Lemma upper_not_ld c : is_upper c = true -> is_ld c = false.
Proof. ascii_cases c. Qed.

Lemma ld_not_upper c : is_ld c = true -> is_upper c = false.
Proof. ascii_cases c. Qed.

Lemma ld_alnum c : is_ld c = true -> is_alnum c = true.
Proof. ascii_cases c. Qed.

Lemma upper_alnum c : is_upper c = true -> is_alnum c = true.
Proof. ascii_cases c. Qed.

Lemma lower_ld c : is_lower c = true -> is_ld c = true.
Proof. ascii_cases c. Qed.

Lemma alnum_cases c : is_alnum c = true -> is_ld c = true \/ is_upper c = true.
Proof. ascii_cases c. Qed.

Lemma alnum_not_sep c : is_alnum c = true -> is_sep c = false.
Proof. ascii_cases c. Qed.

Lemma upper_word c : is_upper c = true -> is_word c = true.
Proof. ascii_cases c. Qed.

Lemma word_cases c :
  is_word c = true -> is_ld c = true \/ is_upper c = true \/ c = "_"%char.
Proof. ascii_cases c. Qed.

Lemma letter_cases c :
  is_letter c = true -> is_ld c = true \/ is_upper c = true.
Proof. ascii_cases c. Qed.

Lemma lower_char_ld c : is_ld c = true -> lower_char c = c.
Proof. ascii_cases c. Qed.

Lemma lower_char_not_upper c : is_upper c = false -> lower_char c = c.
Proof. ascii_cases c. Qed.

Lemma lower_char_alnum c : is_alnum c = true -> is_ld (lower_char c) = true.
Proof. ascii_cases c. Qed.

Lemma lower_char_idem c : lower_char (lower_char c) = lower_char c.
Proof. ascii_cases c. Qed.

Lemma lower_char_letter c : is_letter (lower_char c) = is_letter c.
Proof. ascii_cases c. Qed.

Lemma lower_char_sep c : is_sep (lower_char c) = is_sep c.
Proof. ascii_cases c. Qed.

Lemma upper_lower_char c : is_upper c = true -> upper_char (lower_char c) = c.
Proof. ascii_cases c. Qed.

Lemma upper_char_lower c : is_lower c = true -> is_upper (upper_char c) = true.
Proof. ascii_cases c. Qed.

Lemma lower_upper_char c : is_lower c = true -> lower_char (upper_char c) = c.
Proof. ascii_cases c. Qed.

Lemma lower_letter c : is_lower c = true -> is_letter c = true.
Proof. ascii_cases c. Qed.

Lemma upper_letter c : is_upper c = true -> is_letter c = true.
Proof. ascii_cases c. Qed.

(** ** Strings *)

Lemma all_app p s t : all p (s +:+ t) = all p s && all p t.
Proof.
  induction s as [|c s IH]; simpl; [reflexivity|]. now rewrite IH, andb_assoc.
Qed.

Lemma any_app p s t : any p (s +:+ t) = any p s || any p t.
Proof.
  induction s as [|c s IH]; simpl; [reflexivity|]. now rewrite IH, orb_assoc.
Qed.

Lemma all_impl (p q : ascii -> bool) s :
  (forall c, p c = true -> q c = true) -> all p s = true -> all q s = true.
Proof.
  intros Hpq. induction s as [|c s IH]; simpl; [reflexivity|].
  intros [Hc Hs]%andb_prop. rewrite (Hpq c Hc). now apply IH.
Qed.

Lemma lower_no_upper s :
  all (fun c => negb (is_upper c)) s = true -> lower s = s.
Proof.
  induction s as [|c s IH]; simpl; [reflexivity|].
  intros [Hc Hs]%andb_prop. apply negb_true_iff in Hc.
  now rewrite lower_char_not_upper, IH.
Qed.

Lemma lower_all_ld s : all is_ld s = true -> lower s = s.
Proof.
  intros H. apply lower_no_upper. revert H. apply all_impl.
  intros c Hc. now rewrite ld_not_upper.
Qed.

Lemma lower_idem s : lower (lower s) = lower s.
Proof.
  induction s as [|c s IH]; simpl; [reflexivity|]. now rewrite lower_char_idem, IH.
Qed.

Lemma any_letter_lower s : any is_letter (lower s) = any is_letter s.
Proof.
  induction s as [|c s IH]; simpl; [reflexivity|]. now rewrite lower_char_letter, IH.
Qed.

Lemma all_alnum_lower s : all is_alnum s = true -> all is_ld (lower s) = true.
Proof.
  induction s as [|c s IH]; simpl; [reflexivity|].
  intros [Hc Hs]%andb_prop. now rewrite lower_char_alnum, IH.
Qed.

Lemma lower_nonempty s : s <> "" -> lower s <> "".
Proof. destruct s; [congruence|discriminate]. Qed.

Lemma take_app w r : take (String.length w) (w +:+ r) = w.
Proof.
  induction w as [|c w IH]; simpl.
  - destruct r; reflexivity.
  - now rewrite IH.
Qed.

Lemma consumed_app (st st' : state) w :
  rest st = w +:+ rest st' -> consumed st st' = w.
Proof.
  intros E. unfold consumed. rewrite E, slength_app.
  replace (String.length w + String.length (rest st') - String.length (rest st'))
    with (String.length w) by lia.
  apply take_app.
Qed.

(** ** [re.split] on the separator class *)

Lemma pieces_nonempty p s : pieces p s <> [].
Proof.
  destruct s as [|c t]; simpl; [discriminate|].
  destruct (p c); [discriminate|]. destruct (pieces p t); discriminate.
Qed.

Lemma match_at_separator prev c t :
  match_at separator_re (prev, String c t) =
    if is_sep c then Some (Some c, t) else None.
Proof.
  unfold match_at, separator_re. simpl. unfold step_char. simpl.
  rewrite in_class_sep. destruct (is_sep c); reflexivity.
Qed.

Lemma split_loop_pieces : forall fuel prev s piece,
  String.length s <= fuel ->
  split_loop separator_re fuel prev s piece =
    match pieces is_sep s with
    | w :: ws => (piece +:+ w) :: ws
    | [] => [piece]
    end.
Proof.
  induction fuel as [|f IH]; intros prev s piece Hlen.
  - destruct s; simpl in *; [now rewrite sapp_nil_r|lia].
  - destruct s as [|c t]; [simpl; now rewrite sapp_nil_r|].
    cbn [split_loop]. rewrite match_at_separator. simpl in Hlen.
    cbn [pieces]. destruct (is_sep c).
    + cbn [rest snd fst].
      assert (Hlt : (String.length t <? String.length (String c t)) = true)
        by (apply Nat.ltb_lt; simpl; lia).
      rewrite Hlt, sapp_nil_r, IH by lia.
      destruct (pieces is_sep t) eqn:E; [now apply pieces_nonempty in E|reflexivity].
    + rewrite IH by lia.
      destruct (pieces is_sep t) eqn:E; [now apply pieces_nonempty in E|].
      now rewrite sapp_assoc.
Qed.

(** [re.split('[-_]', s)] cuts [s] at every separator character. *)
Lemma re_split_pieces s : re_split separator_re s = pieces is_sep s.
Proof.
  unfold re_split. rewrite split_loop_pieces by lia.
  destruct (pieces is_sep s) eqn:E; [now apply pieces_nonempty in E|reflexivity].
Qed.

Lemma join_one sep w : join sep [w] = w.
Proof. reflexivity. Qed.

Lemma join_cons sep w w' ws :
  join sep (w :: w' :: ws) = w +:+ sep +:+ join sep (w' :: ws).
Proof. reflexivity. Qed.

Lemma join_empty_cons w ws : join "" (w :: ws) = w +:+ join "" ws.
Proof.
  destruct ws as [|w' ws]; [simpl; now rewrite sapp_nil_r|].
  now rewrite join_cons.
Qed.

Lemma pieces_free p s : all (fun c => negb (p c)) s = true -> pieces p s = [s].
Proof.
  induction s as [|c t IH]; [reflexivity|]. simpl.
  intros [Hc Ht]%andb_prop. apply negb_true_iff in Hc. now rewrite Hc, IH.
Qed.

Lemma pieces_app_sep p w sc r :
  all (fun c => negb (p c)) w = true -> p sc = true ->
  pieces p (w +:+ String sc r) = w :: pieces p r.
Proof.
  intros Hw Hsc. induction w as [|c t IH]; simpl.
  - now rewrite Hsc.
  - simpl in Hw. apply andb_prop in Hw. destruct Hw as [Hc Ht].
    apply negb_true_iff in Hc. now rewrite Hc, IH.
Qed.

(** Cutting a joined list of separator-free words gives the words back. *)
Lemma pieces_join p sc ws :
  ws <> [] -> p sc = true ->
  Forall (fun w => all (fun c => negb (p c)) w = true) ws ->
  pieces p (join (String sc "") ws) = ws.
Proof.
  intros Hne Hsc Hall. induction Hall as [|w ws Hw Hws IH]; [contradiction|].
  destruct ws as [|w' ws].
  - rewrite join_one. now apply pieces_free.
  - rewrite join_cons.
    change (String sc "" +:+ join (String sc "") (w' :: ws))
      with (String sc (join (String sc "") (w' :: ws))).
    rewrite pieces_app_sep by assumption. f_equal. apply IH. discriminate.
Qed.

(** ** [str.strip] and the separator test *)

Lemma contains_any_sep s : contains "_" s || contains "-" s = any is_sep s.
Proof.
  induction s as [|d t IH]; [reflexivity|]. simpl. rewrite <- IH. unfold is_sep.
  destruct (Ascii.eqb d "_"), (Ascii.eqb d "-"), (contains "_" t),
    (contains "-" t); reflexivity.
Qed.

Lemma last_ok_cons c d u : last_ok (String c (String d u)) = last_ok (String d u).
Proof. reflexivity. Qed.

Lemma last_ok_app s t : t <> "" -> last_ok (s +:+ t) = last_ok t.
Proof.
  intros Ht. unfold last_ok. rewrite last_of_app.
  destruct t as [|c u]; [contradiction|]. reflexivity.
Qed.

Lemma lstrip_id s : first_ok s = true -> lstrip "-_" s = s.
Proof.
  destruct s as [|c t]; [reflexivity|]. cbn [lstrip first_ok stops].
  rewrite contains_seps.
  intros H. apply negb_true_iff in H. now rewrite H.
Qed.

Lemma rstrip_id s : last_ok s = true -> rstrip "-_" s = s.
Proof.
  induction s as [|c t IH]; [reflexivity|]. destruct t as [|d u].
  - unfold last_ok. cbn [rstrip last_of]. rewrite contains_seps. intros H.
    apply negb_true_iff in H. now rewrite H.
  - rewrite last_ok_cons. intros H. specialize (IH H).
    change (rstrip "-_" (String c (String d u))) with
      (match rstrip "-_" (String d u) with
       | "" => if contains c "-_" then "" else String c ""
       | t' => String c t'
       end).
    now rewrite IH.
Qed.

Lemma strip_id s : first_ok s = true -> last_ok s = true -> strip "-_" s = s.
Proof. intros H1 H2. unfold strip. rewrite lstrip_id by assumption. now apply rstrip_id. Qed.

Lemma lstrip_first_ok s : first_ok (lstrip "-_" s) = true.
Proof.
  induction s as [|c t IH]; [reflexivity|]. cbn [lstrip]. rewrite contains_seps.
  destruct (is_sep c) eqn:E; [assumption|]. simpl. now rewrite E.
Qed.

Lemma rstrip_first_ok s : first_ok s = true -> first_ok (rstrip "-_" s) = true.
Proof.
  destruct s as [|c t]; [reflexivity|]. cbn [rstrip first_ok stops]. intros H.
  rewrite contains_seps. apply negb_true_iff in H. rewrite H.
  destruct (rstrip "-_" t); simpl; now rewrite H.
Qed.

Lemma rstrip_last_ok s : last_ok (rstrip "-_" s) = true.
Proof.
  induction s as [|c t IH]; [reflexivity|]. cbn [rstrip]. rewrite contains_seps.
  destruct (rstrip "-_" t) as [|d u].
  - destruct (is_sep c) eqn:E; [reflexivity|]. unfold last_ok. simpl. now rewrite E.
  - now rewrite last_ok_cons.
Qed.

Lemma strip_first_ok s : first_ok (strip "-_" s) = true.
Proof. apply rstrip_first_ok, lstrip_first_ok. Qed.

Lemma strip_last_ok s : last_ok (strip "-_" s) = true.
Proof. apply rstrip_last_ok. Qed.

Lemma sep_not_letter c : is_sep c = true -> is_letter c = false.
Proof. ascii_cases c. Qed.

Lemma lstrip_letter s : any is_letter (lstrip "-_" s) = any is_letter s.
Proof.
  induction s as [|c t IH]; [reflexivity|]. cbn [lstrip any]. rewrite contains_seps.
  destruct (is_sep c) eqn:E; [|reflexivity].
  now rewrite IH, (sep_not_letter c E).
Qed.

Lemma rstrip_letter s : any is_letter (rstrip "-_" s) = any is_letter s.
Proof.
  induction s as [|c t IH]; [reflexivity|]. cbn [rstrip any]. rewrite contains_seps.
  destruct (rstrip "-_" t) as [|d u].
  - rewrite <- IH. destruct (is_sep c) eqn:E; simpl.
    + now rewrite (sep_not_letter c E).
    + now rewrite orb_false_r.
  - cbn [any]. cbn [any] in IH. now rewrite IH.
Qed.

Lemma strip_letter s : any is_letter (strip "-_" s) = any is_letter s.
Proof. unfold strip. now rewrite rstrip_letter, lstrip_letter. Qed.

Lemma sep_free_first_ok s :
  all (fun c => negb (is_sep c)) s = true -> first_ok s = true.
Proof. destruct s; simpl; [reflexivity|]. now intros [H _]%andb_prop. Qed.

Lemma sep_free_last_ok s :
  all (fun c => negb (is_sep c)) s = true -> last_ok s = true.
Proof.
  induction s as [|c t IH]; [reflexivity|]. simpl. intros [Hc Ht]%andb_prop.
  destruct t as [|d u]; [unfold last_ok; simpl; assumption|].
  rewrite last_ok_cons. now apply IH.
Qed.

Lemma sep_free_no_sep s :
  all (fun c => negb (is_sep c)) s = true -> any is_sep s = false.
Proof.
  induction s as [|c t IH]; [reflexivity|]. simpl. intros [Hc Ht]%andb_prop.
  apply negb_true_iff in Hc. now rewrite Hc, IH.
Qed.

Lemma alnum_sep_free s :
  all is_alnum s = true -> all (fun c => negb (is_sep c)) s = true.
Proof. apply all_impl. intros c H. now rewrite alnum_not_sep. Qed.

(** ** The rendering of the delimiter path, character by character *)

Lemma join_lower_pieces sc s :
  join (String sc "") (map lower (pieces is_sep s)) =
    smap (fun c => if is_sep c then sc else lower_char c) s.
Proof.
  induction s as [|c t IH]; [reflexivity|]. simpl. rewrite <- IH.
  destruct (pieces is_sep t) as [|w ws] eqn:E; [now apply pieces_nonempty in E|].
  destruct (is_sep c); [reflexivity|]. destruct ws; reflexivity.
Qed.

Lemma lower_pieces_smap sc s :
  is_sep sc = true ->
  pieces is_sep (smap (fun c => if is_sep c then sc else lower_char c) s) =
    map lower (pieces is_sep s).
Proof.
  intros Hsc. induction s as [|c t IH]; [reflexivity|]. simpl.
  destruct (is_sep c) eqn:E.
  - rewrite Hsc, IH. reflexivity.
  - rewrite lower_char_sep, E, IH.
    destruct (pieces is_sep t) as [|w ws] eqn:Ep; [now apply pieces_nonempty in Ep|].
    reflexivity.
Qed.

Section Smap.
Variable sc : ascii.
Hypothesis Hsc : is_sep sc = true.
Let f := fun c => if is_sep c then sc else lower_char c.

Lemma smap_sep c : is_sep (f c) = is_sep c.
Proof. unfold f. destruct (is_sep c) eqn:E; [assumption|]. now rewrite lower_char_sep. Qed.

Lemma smap_letter c : is_letter (f c) = is_letter c.
Proof.
  unfold f. destruct (is_sep c) eqn:E.
  - now rewrite (sep_not_letter sc Hsc), (sep_not_letter c E).
  - apply lower_char_letter.
Qed.

Lemma smap_first_ok s : first_ok (smap f s) = first_ok s.
Proof. destruct s; simpl; [reflexivity|]. now rewrite smap_sep. Qed.

Lemma smap_last_of prev s :
  last_of (option_map f prev) (smap f s) = option_map f (last_of prev s).
Proof. revert prev. induction s as [|c t IH]; intros prev; simpl; [reflexivity|]. apply (IH (Some c)). Qed.

Lemma smap_last_ok s : last_ok (smap f s) = last_ok s.
Proof.
  unfold last_ok. pose proof (smap_last_of None s) as H. simpl in H. rewrite H.
  destruct (last_of None s); simpl; [|reflexivity]. now rewrite smap_sep.
Qed.

Lemma smap_any_letter s : any is_letter (smap f s) = any is_letter s.
Proof. induction s as [|c t IH]; simpl; [reflexivity|]. now rewrite smap_letter, IH. Qed.

Lemma smap_any_sep s : any is_sep (smap f s) = any is_sep s.
Proof. induction s as [|c t IH]; simpl; [reflexivity|]. now rewrite smap_sep, IH. Qed.

End Smap.

(** ** The matcher on character classes *)

Lemma step_char_ext (p q : ascii -> bool) st :
  (forall c, p c = q c) -> step_char p st = step_char q st.
Proof.
  intros H. unfold step_char. destruct (snd st) as [|c t]; [reflexivity|].
  now rewrite H.
Qed.

Lemma star_class_run body p :
  (forall st, body st = step_char p st) ->
  forall fuel prev s, String.length s <= fuel ->
    star_loop body fuel (prev, s) = run_ends p prev s.
Proof.
  intros Hbody. induction fuel as [|f IH]; intros prev s Hlen.
  - destruct s; simpl in *; [reflexivity|lia].
  - cbn [star_loop]. rewrite Hbody. unfold step_char. cbn [snd rest].
    destruct s as [|c t]; [reflexivity|]. cbn [run_ends].
    destruct (p c); [|reflexivity]. cbn [flat_map rest snd].
    assert (Hlt : (String.length t <? String.length (String c t)) = true)
      by (apply Nat.ltb_lt; simpl; lia).
    rewrite Hlt, List.app_nil_r. simpl in Hlen. now rewrite IH by lia.
Qed.

Lemma exec_plus_class rs p prev s :
  (forall c, in_class rs c = p c) ->
  exec (Plus (Class rs)) (prev, s) =
    match s with
    | String c t => if p c then run_ends p (Some c) t else []
    | EmptyString => []
    end.
Proof.
  intros Hp. cbn [exec]. unfold step_char. cbn [snd].
  destruct s as [|c t]; [reflexivity|]. rewrite Hp.
  destruct (p c); [|reflexivity]. cbn [flat_map]. rewrite List.app_nil_r.
  apply star_class_run; [|unfold rest; simpl; lia].
  intros st. cbn [exec]. now apply step_char_ext.
Qed.

Lemma run_ends_head p prev s :
  exists l, run_ends p prev s = skip_run p prev s :: l.
Proof.
  revert prev. induction s as [|c t IH]; intros prev; simpl; [eauto|].
  destruct (p c); [|eauto]. destruct (IH (Some c)) as [l ->]. simpl. eauto.
Qed.

Lemma skip_run_app p prev t more :
  all p t = true -> stops p more = true ->
  skip_run p prev (t +:+ more) = (last_of prev t, more).
Proof.
  revert prev. induction t as [|c t IH]; intros prev Ht Hmore; simpl.
  - destruct more as [|d u]; [reflexivity|]. simpl in Hmore. simpl.
    apply negb_true_iff in Hmore. now rewrite Hmore.
  - simpl in Ht. apply andb_prop in Ht. destruct Ht as [Hc Ht].
    rewrite Hc. now apply IH.
Qed.

Lemma head_in {A} (l : list A) x : head l = Some x -> In x l.
Proof. destruct l; simpl; [discriminate|]. intros [= ->]. now left. Qed.

Lemma in_head {A} (l : list A) x : In x l -> head l <> None.
Proof. destruct l; simpl; [intros []|discriminate]. Qed.

(** ** The compound-capital pattern *)

Lemma exec_camel_word st :
  exec camel_word_re st =
    flat_map (exec (Plus lower_digit_cls)) (exec upper_cls st ++ [st]) ++
    flat_map (exec (Lookahead (Alt (Seq upper_cls lower_cls) WordB)))
             (exec (Plus upper_cls) st).
Proof. reflexivity. Qed.

Lemma exec_class rs prev c t :
  exec (Class rs) (prev, String c t) = if in_class rs c then [(Some c, t)] else [].
Proof. reflexivity. Qed.

(** A lower-case letter or digit starts a word that runs as far as such
    characters go. *)
Lemma match_at_camel_ld prev c t :
  is_ld c = true ->
  match_at camel_word_re (prev, String c t) = Some (skip_run is_ld (Some c) t).
Proof.
  intros Hc. unfold match_at. rewrite exec_camel_word.
  unfold upper_cls at 1. rewrite exec_class, in_class_upper, (ld_not_upper c Hc).
  cbn [app flat_map]. unfold lower_digit_cls.
  rewrite (exec_plus_class _ is_ld) by apply in_class_ld.
  rewrite Hc. destruct (run_ends_head is_ld (Some c) t) as [l ->]. reflexivity.
Qed.

(** So does an upper-case letter followed by a lower-case letter or
    digit. *)
Lemma match_at_camel_upper_ld prev c d u :
  is_upper c = true -> is_ld d = true ->
  match_at camel_word_re (prev, String c (String d u)) =
    Some (skip_run is_ld (Some d) u).
Proof.
  intros Hc Hd. unfold match_at. rewrite exec_camel_word.
  unfold upper_cls at 1. rewrite exec_class, in_class_upper, Hc.
  cbn [app flat_map]. unfold lower_digit_cls.
  rewrite (exec_plus_class _ is_ld (Some c)) by apply in_class_ld.
  rewrite Hd. destruct (run_ends_head is_ld (Some d) u) as [l ->]. reflexivity.
Qed.

(** An upper-case letter before the end of the text or before a
    character that is not a word character is matched. *)
Lemma match_at_camel_upper_boundary prev c t :
  is_upper c = true -> stops is_word t = true ->
  match_at camel_word_re (prev, String c t) <> None.
Proof.
  intros Hc Ht. unfold match_at. apply in_head with (x := (Some c, t)).
  rewrite exec_camel_word. apply in_or_app. right.
  unfold upper_cls at 2. rewrite (exec_plus_class _ is_upper) by apply in_class_upper.
  rewrite Hc.
  assert (Hrun : run_ends is_upper (Some c) t = [(Some c, t)]).
  { destruct t as [|d u]; [reflexivity|]. simpl in Ht. apply negb_true_iff in Ht.
    simpl. destruct (is_upper d) eqn:Hd; [|reflexivity].
    now rewrite (upper_word d Hd) in Ht. }
  rewrite Hrun. cbn [flat_map]. rewrite List.app_nil_r.
  cbn [exec].
  assert (Hb : xorb (prev_is_word (Some c, t)) (next_is_word (Some c, t)) = true).
  { unfold prev_is_word, next_is_word. cbn [fst snd]. rewrite (upper_word c Hc).
    destruct t as [|d u]; [reflexivity|]. simpl in Ht. apply negb_true_iff in Ht.
    now rewrite Ht. }
  rewrite Hb.
  assert (Hlook : forall (l : list state) (st : state),
             match l ++ [st] with [] => [] | _ :: _ => [st] end = [st]).
  { intros [|a l] st; reflexivity. }
  cbn [exec]. rewrite Hlook. apply in_eq.
Qed.

Lemma lang_class_inv rs w :
  lang (Class rs) w -> exists c, w = String c "" /\ in_class rs c = true.
Proof. inversion 1; subst. eauto. Qed.

Lemma lang_star_class rs w : lang (Star (Class rs)) w -> all (in_class rs) w = true.
Proof.
  remember (Star (Class rs)) as r eqn:Er.
  induction 1 as [ | | | | | | | | |r w1 w2 H1 IH1 Hne H2 IH2| | | | | ];
    try discriminate.
  - reflexivity.
  - assert (Hr : r = Class rs) by congruence. subst r. rewrite all_app.
    apply lang_class_inv in H1. destruct H1 as [c [-> Hc]]. simpl.
    rewrite Hc. simpl. now apply IH2.
Qed.

Lemma lang_plus_class rs w :
  lang (Plus (Class rs)) w -> w <> "" /\ all (in_class rs) w = true.
Proof.
  inversion 1 as [| | | | | | | | | |r w1 w2 Ha Hb| | | | ]; subst.
  apply lang_class_inv in Ha. destruct Ha as [c [-> Hc]].
  apply lang_star_class in Hb. simpl. rewrite Hc, Hb. split; [discriminate|reflexivity].
Qed.

Lemma sapp_nonempty_r (s t : string) : t <> "" -> s +:+ t <> "".
Proof.
  intros Ht E. apply (f_equal String.length) in E. rewrite slength_app in E.
  destruct t; [contradiction|]. simpl in E. lia.
Qed.

Lemma sapp_nonempty_l (s t : string) : s <> "" -> s +:+ t <> "".
Proof. destruct s; [contradiction|discriminate]. Qed.

(** The words the pattern cuts are non-empty and alphanumeric. *)
Lemma camel_word_lang w :
  lang camel_word_re w -> w <> "" /\ all is_alnum w = true.
Proof.
  unfold camel_word_re. inversion 1 as [| | | | r1 r2 w0 H1| r1 r2 w0 H1 | | | | | | | | | ];
    subst.
  - inversion H1 as [| | |r1 r2 w1 w2 Ha Hb| | | | | | | | | | | ]; subst.
    apply lang_plus_class in Hb. destruct Hb as [Hne Hall].
    split; [now apply sapp_nonempty_r|]. rewrite all_app.
    assert (Hw2 : all is_alnum w2 = true).
    { revert Hall. apply all_impl. intros c Hc. rewrite in_class_ld in Hc.
      now apply ld_alnum. }
    rewrite Hw2, andb_true_r.
    inversion Ha as [| | | | | |r|r w Hu| | | | | | | ]; subst; [reflexivity|].
    apply lang_class_inv in Hu. destruct Hu as [c [-> Hc]].
    rewrite in_class_upper in Hc. simpl. now rewrite upper_alnum.
  - inversion H1 as [| | |r1 r2 w1 w2 Ha Hb| | | | | | | | | | | ]; subst.
    apply lang_plus_class in Ha. destruct Ha as [Hne Hall].
    inversion Hb; subst. rewrite sapp_nil_r. split; [assumption|].
    revert Hall. apply all_impl. intros c Hc. rewrite in_class_upper in Hc.
    now apply upper_alnum.
Qed.

Lemma camel_match_sound prev s st' :
  match_at camel_word_re (prev, s) = Some st' ->
  exists w, s = w +:+ rest st' /\ w <> "" /\ all is_alnum w = true /\
            fst st' = last_of prev w.
Proof.
  intros H. apply head_in, exec_sound in H. destruct H as [w [E [L P]]].
  apply camel_word_lang in L. destruct L as [Hne Hall]. exists w. auto.
Qed.

(** ** [re.findall] with the compound-capital pattern *)

Lemma findall_camel_empty fuel prev : findall_loop camel_word_re fuel prev "" = [].
Proof. destruct fuel; reflexivity. Qed.

Lemma findall_camel_match fuel prev s st' w :
  match_at camel_word_re (prev, s) = Some st' ->
  s = w +:+ rest st' -> w <> "" ->
  findall_loop camel_word_re (S fuel) prev s =
    w :: findall_loop camel_word_re fuel (fst st') (rest st').
Proof.
  intros Hm E Hne. cbn [findall_loop]. rewrite Hm.
  assert (Hlt : (String.length (rest st') <? String.length s) = true).
  { apply Nat.ltb_lt. rewrite E, slength_app.
    destruct w; [contradiction|]. simpl. lia. }
  rewrite Hlt. f_equal. now apply consumed_app.
Qed.

Lemma findall_camel_skip fuel prev c t :
  match_at camel_word_re (prev, String c t) = None ->
  findall_loop camel_word_re (S fuel) prev (String c t) =
    findall_loop camel_word_re fuel (Some c) t.
Proof. intros Hm. cbn [findall_loop]. now rewrite Hm. Qed.

(** Every word found is non-empty and alphanumeric. *)
Lemma findall_camel_words : forall fuel prev s w,
  In w (findall_loop camel_word_re fuel prev s) ->
  w <> "" /\ all is_alnum w = true.
Proof.
  induction fuel as [|f IH]; intros prev s w Hin; [destruct Hin|].
  destruct (match_at camel_word_re (prev, s)) as [st'|] eqn:Hm.
  - destruct (camel_match_sound _ _ _ Hm) as [w0 [E [Hne [Hall _]]]].
    rewrite (findall_camel_match f prev s st' w0 Hm E Hne) in Hin.
    destruct Hin as [<-|Hin]; [auto|]. eapply IH; eassumption.
  - destruct s as [|c t]; [rewrite findall_camel_empty in Hin; destruct Hin|].
    rewrite (findall_camel_skip f prev c t Hm) in Hin. eapply IH; eassumption.
Qed.

(** A text with a letter and without separators has a word with a
    letter. *)
Lemma findall_camel_letter : forall fuel prev s,
  String.length s < fuel ->
  any is_letter s = true -> any is_sep s = false ->
  exists w, In w (findall_loop camel_word_re fuel prev s) /\ any is_letter w = true.
Proof.
  induction fuel as [|f IH]; intros prev s Hlen Hlet Hsep; [lia|].
  destruct (match_at camel_word_re (prev, s)) as [st'|] eqn:Hm.
  - destruct (camel_match_sound _ _ _ Hm) as [w0 [E [Hne [Hall _]]]].
    rewrite (findall_camel_match f prev s st' w0 Hm E Hne).
    destruct (any is_letter w0) eqn:Hw0; [exists w0; split; [now left|assumption]|].
    rewrite E, any_app, Hw0 in Hlet. rewrite E, any_app in Hsep.
    apply orb_false_elim in Hsep. destruct Hsep as [_ Hsep]. simpl in Hlet.
    destruct (IH (fst st') (rest st')) as [w [Hin Hw]]; [|assumption|assumption|].
    + rewrite E, slength_app in Hlen. destruct w0; [contradiction|].
      simpl in Hlen. lia.
    + exists w. split; [now right|assumption].
  - destruct s as [|c t]; [discriminate|].
    rewrite (findall_camel_skip f prev c t Hm).
    simpl in Hlen, Hlet, Hsep. apply orb_false_elim in Hsep.
    destruct Hsep as [Hc Hsep].
    assert (Ht : any is_letter t = true).
    { destruct (is_letter c) eqn:Hl; [|exact Hlet].
      destruct (letter_cases c Hl) as [Hld|Hup].
      - rewrite (match_at_camel_ld prev c t Hld) in Hm. discriminate.
      - destruct (stops is_word t) eqn:Hst.
        + now apply match_at_camel_upper_boundary in Hm.
        + destruct t as [|d u]; [discriminate|]. simpl in Hst.
          apply negb_false_iff in Hst.
          destruct (word_cases d Hst) as [Hd|[Hd| ->]].
          * rewrite (match_at_camel_upper_ld prev c d u Hup Hd) in Hm. discriminate.
          * simpl. now rewrite (upper_letter d Hd).
          * simpl in Hsep. discriminate. }
    destruct (IH (Some c) t) as [w [Hin Hw]]; [lia|assumption|assumption|].
    exists w. auto.
Qed.

Lemma join_empty_stops toks :
  Forall (fun w => starts_upper w = true) toks -> stops is_ld (join "" toks) = true.
Proof.
  intros H. destruct H as [|w ws Hw _]; [reflexivity|].
  rewrite join_empty_cons. destruct w as [|c t]; [discriminate|].
  simpl in *. now rewrite (upper_not_ld c Hw).
Qed.

(** A text made of well-formed words is cut back into these words. *)
Lemma findall_camel_tokens : forall toks fuel prev,
  Forall (fun w => is_token w = true) toks ->
  Forall (fun w => starts_upper w = true) (tail toks) ->
  String.length (join "" toks) < fuel ->
  findall_loop camel_word_re fuel prev (join "" toks) = toks.
Proof.
  induction toks as [|tok toks IH]; intros fuel prev Htok Hup Hlen.
  - apply findall_camel_empty.
  - rewrite join_empty_cons in *. simpl in Hup.
    inversion Htok as [|? ? Ht Htoks]; subst.
    pose proof (join_empty_stops toks Hup) as Hstop.
    destruct fuel as [|f]; [lia|].
    assert (Hrec : forall p, findall_loop camel_word_re f p (join "" toks) = toks).
    { intros p. apply IH; [assumption|now destruct Hup|].
      rewrite slength_app in Hlen. destruct tok; [discriminate|]. simpl in Hlen. lia. }
    destruct tok as [|c t]; [discriminate|]. simpl in Ht.
    apply andb_prop in Ht. destruct Ht as [Hall Hc].
    destruct (is_ld c) eqn:Hld.
    + pose proof (match_at_camel_ld prev c (t +:+ join "" toks) Hld) as Hm.
      rewrite (skip_run_app is_ld (Some c) t _ Hall Hstop) in Hm.
      change (String c t +:+ join "" toks) with (String c (t +:+ join "" toks)).
      rewrite (findall_camel_match f prev _ _ (String c t) Hm);
        [now rewrite Hrec|reflexivity|discriminate].
    + simpl in Hc. apply andb_prop in Hc. destruct Hc as [Hupc Hne].
      destruct t as [|d u]; [discriminate|]. simpl in Hall.
      apply andb_prop in Hall. destruct Hall as [Hd Hu].
      pose proof (match_at_camel_upper_ld prev c d (u +:+ join "" toks) Hupc Hd) as Hm.
      rewrite (skip_run_app is_ld (Some d) u _ Hu Hstop) in Hm.
      change (String c (String d u) +:+ join "" toks)
        with (String c (String d (u +:+ join "" toks))).
      rewrite (findall_camel_match f prev _ _ (String c (String d u)) Hm);
        [now rewrite Hrec|reflexivity|discriminate].
Qed.

Lemma is_token_alnum w : is_token w = true -> all is_alnum w = true.
Proof.
  destruct w as [|c t]; [discriminate|]. simpl.
  intros [Hall Hc]%andb_prop. apply andb_true_intro. split.
  - apply orb_prop in Hc. destruct Hc as [Hc|Hc].
    + now apply ld_alnum.
    + apply andb_prop in Hc. destruct Hc as [Hc _]. now apply upper_alnum.
  - revert Hall. apply all_impl. apply ld_alnum.
Qed.

Lemma all_join_empty p ws :
  Forall (fun w => all p w = true) ws -> all p (join "" ws) = true.
Proof.
  induction 1 as [|w ws Hw _ IH]; [reflexivity|].
  now rewrite join_empty_cons, all_app, Hw, IH.
Qed.

(** ** [extract_words] on texts of a known shape *)

Lemma extract_words_ok_letter name words :
  extract_words name = Ok words -> any is_letter name = true.
Proof.
  intros H. destruct (any is_letter name) eqn:E; [reflexivity|].
  rewrite (extract_words_no_letter name E) in H. discriminate.
Qed.

Lemma re_search_letter_some s :
  any is_letter s = true -> exists m, re_search letter_re s = Some m.
Proof.
  intros H. destruct (re_search letter_re s) as [m|] eqn:E; [eauto|].
  apply re_search_letter_none in E. congruence.
Qed.

(** The tokenizer on a name without separators. *)
Lemma extract_words_camel_path name :
  any is_letter name = true -> first_ok name = true -> last_ok name = true ->
  any is_sep name = false ->
  extract_words name =
    match re_findall camel_word_re name with
    | [] => Ok [lower name]
    | w :: ws => Ok (map lower (w :: ws))
    end.
Proof.
  intros Hlet Hf Hl Hsep. unfold extract_words.
  destruct (re_search_letter_some name Hlet) as [m ->].
  rewrite (strip_id name Hf Hl), contains_any_sep, Hsep.
  destruct (re_findall camel_word_re name); reflexivity.
Qed.

(** The tokenizer on a name with separators. *)
Lemma extract_words_delimiter_path name :
  any is_letter name = true -> first_ok name = true -> last_ok name = true ->
  any is_sep name = true ->
  extract_words name = Ok (map lower (pieces is_sep name)).
Proof.
  intros Hlet Hf Hl Hsep. unfold extract_words.
  destruct (re_search_letter_some name Hlet) as [m ->].
  rewrite (strip_id name Hf Hl), contains_any_sep, Hsep, re_split_pieces. reflexivity.
Qed.

(** A text made of well-formed words is tokenized into these words,
    lower-cased. *)
Lemma extract_words_tokens toks :
  toks <> [] ->
  Forall (fun w => is_token w = true) toks ->
  Forall (fun w => starts_upper w = true) (tail toks) ->
  any is_letter (join "" toks) = true ->
  extract_words (join "" toks) = Ok (map lower toks).
Proof.
  intros Hne Htok Hup Hlet.
  assert (Hfree : all (fun c => negb (is_sep c)) (join "" toks) = true).
  { apply alnum_sep_free, all_join_empty.
    eapply Forall_impl; [exact Htok|]. apply is_token_alnum. }
  rewrite extract_words_camel_path;
    [|assumption|now apply sep_free_first_ok|now apply sep_free_last_ok
     |now apply sep_free_no_sep].
  unfold re_findall. rewrite findall_camel_tokens by (assumption || lia).
  destruct toks; [contradiction|reflexivity].
Qed.

Lemma all_ld_token w : w <> "" -> all is_ld w = true -> is_token w = true.
Proof.
  destruct w as [|c t]; [contradiction|]. simpl. intros _ [Hc Ht]%andb_prop.
  now rewrite Ht, Hc.
Qed.

(** One word of lower-case letters and digits is tokenized as itself. *)
Lemma extract_words_single w :
  w <> "" -> all is_ld w = true -> any is_letter w = true ->
  extract_words w = Ok [w].
Proof.
  intros Hne Hall Hlet.
  pose proof (extract_words_tokens [w]) as H. rewrite join_one in H.
  rewrite H; [|discriminate|repeat constructor; now apply all_ld_token
              |constructor|assumption].
  simpl. now rewrite lower_all_ld.
Qed.

Lemma any_sep_join sc w w' ws :
  is_sep sc = true -> any is_sep (join (String sc "") (w :: w' :: ws)) = true.
Proof.
  intros Hsc. rewrite join_cons, any_app. simpl. rewrite Hsc.
  now rewrite orb_true_r.
Qed.

(** Words joined by a separator are tokenized back into these words. *)
Lemma extract_words_joined sc ws :
  is_sep sc = true -> 2 <= List.length ws ->
  Forall (fun w => all (fun c => negb (is_sep c)) w = true) ws ->
  first_ok (join (String sc "") ws) = true ->
  last_ok (join (String sc "") ws) = true ->
  any is_letter (join (String sc "") ws) = true ->
  map lower ws = ws ->
  extract_words (join (String sc "") ws) = Ok ws.
Proof.
  intros Hsc Hlen Hfree Hf Hl Hlet Hlow.
  rewrite extract_words_delimiter_path; try assumption.
  - rewrite pieces_join; [now rewrite Hlow|destruct ws; [simpl in Hlen; lia|discriminate]
                         |assumption|assumption].
  - destruct ws as [|w [|w' ws]]; simpl in Hlen; try lia. now apply any_sep_join.
Qed.

(** ** Tokenizing a rendered name again *)

Lemma extract_words_unfold name :
  any is_letter name = true ->
  extract_words name =
    if any is_sep (strip "-_" name)
    then Ok (map lower (pieces is_sep (strip "-_" name)))
    else match re_findall camel_word_re (strip "-_" name) with
         | [] => Ok [lower (strip "-_" name)]
         | w :: ws => Ok (map lower (w :: ws))
         end.
Proof.
  intros Hlet. unfold extract_words.
  destruct (re_search_letter_some name Hlet) as [m ->].
  rewrite contains_any_sep, re_split_pieces.
  destruct (any is_sep (strip "-_" name)); [reflexivity|].
  destruct (re_findall camel_word_re (strip "-_" name)); reflexivity.
Qed.

Lemma map_lower_idem ws : map lower (map lower ws) = map lower ws.
Proof.
  induction ws as [|w ws IH]; simpl; [reflexivity|]. now rewrite lower_idem, IH.
Qed.

Lemma first_ok_app w x : w <> "" -> first_ok (w +:+ x) = first_ok w.
Proof. destruct w; [contradiction|reflexivity]. Qed.

Lemma any_join_in p sep ws w :
  In w ws -> any p w = true -> any p (join sep ws) = true.
Proof.
  intros Hin Hw. induction ws as [|w1 ws IH]; [destruct Hin|].
  destruct ws as [|w2 ws].
  - destruct Hin as [->|[]]. now rewrite join_one.
  - rewrite join_cons, !any_app. destruct Hin as [->|Hin].
    + now rewrite Hw.
    + rewrite (IH Hin). now rewrite !orb_true_r.
Qed.

Lemma ld_sep_free w : all is_ld w = true -> all (fun c => negb (is_sep c)) w = true.
Proof. intros H. apply alnum_sep_free. revert H. apply all_impl, ld_alnum. Qed.

Lemma last_ok_join sc ws :
  ws <> [] ->
  Forall (fun w => w <> "" /\ all is_ld w = true) ws ->
  last_ok (join (String sc "") ws) = true.
Proof.
  intros Hne Hall. induction Hall as [|w ws [Hw Hld] Hws IH]; [contradiction|].
  destruct ws as [|w' ws].
  - rewrite join_one. now apply sep_free_last_ok, ld_sep_free.
  - rewrite join_cons. rewrite last_ok_app by discriminate.
    specialize (IH ltac:(discriminate)).
    destruct (join (String sc "") (w' :: ws)) as [|d u] eqn:E.
    + exfalso. inversion Hws as [|? ? [Hw' _] _]; subst.
      destruct ws as [|w'' ws]; [now rewrite join_one in E|].
      rewrite join_cons in E. revert E. now apply sapp_nonempty_l.
    + simpl. now rewrite last_ok_cons.
Qed.

Lemma map_lower_ld ws :
  Forall (fun w => w <> "" /\ all is_ld w = true) ws -> map lower ws = ws.
Proof.
  induction 1 as [|w ws [_ Hld] _ IH]; simpl; [reflexivity|].
  now rewrite lower_all_ld, IH.
Qed.

(** Non-empty words of lower-case letters and digits, one of them with a
    letter, joined by a separator, are tokenized back into these words. *)
Lemma extract_words_joined_words sc ws :
  is_sep sc = true -> ws <> [] ->
  Forall (fun w => w <> "" /\ all is_ld w = true) ws ->
  (exists w, In w ws /\ any is_letter w = true) ->
  extract_words (join (String sc "") ws) = Ok ws.
Proof.
  intros Hsc Hne Hall [wl [Hin Hlet]].
  destruct ws as [|w [|w' ws]]; [contradiction| |].
  - destruct Hin as [->|[]]. inversion Hall as [|? ? [Hw Hld] _]; subst.
    rewrite join_one. now apply extract_words_single.
  - apply extract_words_joined; try assumption.
    + simpl. lia.
    + eapply Forall_impl; [exact Hall|]. intros x [_ Hx]. now apply ld_sep_free.
    + rewrite join_cons. inversion Hall as [|? ? [Hw Hld] _]; subst.
      rewrite first_ok_app by assumption. now apply sep_free_first_ok, ld_sep_free.
    + now apply last_ok_join.
    + eapply any_join_in; eassumption.
    + now apply map_lower_ld.
Qed.

(** Rendering the words of any name with a separator and tokenizing the
    result gives the words back. *)
Lemma roundtrip_separator name words sc :
  extract_words name = Ok words -> is_sep sc = true ->
  extract_words (join (String sc "") words) = Ok words.
Proof.
  intros Hwords Hsc.
  pose proof (extract_words_ok_letter name words Hwords) as Hlet.
  rewrite (extract_words_unfold name Hlet) in Hwords.
  pose proof (strip_letter name) as Hslet. rewrite Hlet in Hslet.
  set (stripped := strip "-_" name) in *.
  destruct (any is_sep stripped) eqn:Hsep.
  - injection Hwords as <-. rewrite join_lower_pieces.
    rewrite extract_words_delimiter_path.
    + now rewrite (lower_pieces_smap sc stripped Hsc), map_lower_idem.
    + now rewrite (smap_any_letter sc Hsc).
    + rewrite (smap_first_ok sc Hsc). apply strip_first_ok.
    + rewrite (smap_last_ok sc Hsc). apply strip_last_ok.
    + now rewrite (smap_any_sep sc Hsc).
  - destruct (findall_camel_letter (S (String.length stripped)) None stripped)
      as [wl [Hin Hwl]]; [lia|assumption|assumption|].
    fold (re_findall camel_word_re stripped) in Hin.
    assert (Hall : Forall (fun w => w <> "" /\ all is_alnum w = true)
                          (re_findall camel_word_re stripped)).
    { apply List.Forall_forall. intros w Hw. eapply findall_camel_words. exact Hw. }
    destruct (re_findall camel_word_re stripped) as [|w ws] eqn:E; [destruct Hin|].
    injection Hwords as <-.
    apply extract_words_joined_words; [assumption|discriminate| |].
    + apply List.Forall_forall. intros x Hx.
      apply (in_map_iff lower (w :: ws)) in Hx. destruct Hx as [y [<- Hy]].
      rewrite List.Forall_forall in Hall. destruct (Hall y Hy) as [Hne Hal].
      split; [now apply lower_nonempty|now apply all_alnum_lower].
    + exists (lower wl). split; [|now rewrite any_letter_lower].
      now apply (in_map lower (w :: ws)).
Qed.

Lemma convert_case_no_collapse words target_case :
  List.length words <= 3 ->
  convert_case (Words words) target_case =
    if String.eqb target_case "kebab-case" then Ok (PyStr (join "-" words))
    else if String.eqb target_case "snake_case" then Ok (PyStr (join "_" words))
    else if String.eqb target_case "camelCase" then
      match words with
      | [] => Raise (IndexError "list index out of range")
      | w :: ws => Ok (PyStr (w +:+ join "" (map capitalize ws)))
      end
    else if String.eqb target_case "PascalCase" then
      Ok (PyStr (join "" (map capitalize words)))
    else Ok PyNone.
Proof.
  intros Hlen. unfold convert_case. cbn [bind].
  assert (E : (3 <? List.length words) = false) by (apply Nat.ltb_ge; lia).
  now rewrite E.
Qed.

(** C8 as stated fails: the words "a" and "b" of "a-b" are rendered in
    PascalCase as "AB", which is tokenized as the single word "ab"; the
    words "a" and "1" of "a-1" are rendered in camelCase as "a1", one
    word again; the one-letter words "b" and "c" of "a-b-c" become the
    acronym "BC" in camelCase; and a word with a character that is no
    letter or digit, as in "a.b-c", or an empty word, as in "a--b", does
    not come back from camelCase either. *)
Lemma roundtrip_camel_pascal_counterexample :
  (extract_words "a-b" = Ok ["a"; "b"] /\
   convert_case (Words ["a"; "b"]) "PascalCase" = Ok (PyStr "AB") /\
   extract_words "AB" = Ok ["ab"]) /\
  (extract_words "a-1" = Ok ["a"; "1"] /\
   convert_case (Words ["a"; "1"]) "camelCase" = Ok (PyStr "a1") /\
   extract_words "a1" = Ok ["a1"]) /\
  (extract_words "a-b-c" = Ok ["a"; "b"; "c"] /\
   convert_case (Words ["a"; "b"; "c"]) "camelCase" = Ok (PyStr "aBC") /\
   extract_words "aBC" = Ok ["a"; "bc"]) /\
  (extract_words "a.b-c" = Ok ["a.b"; "c"] /\
   convert_case (Words ["a.b"; "c"]) "camelCase" = Ok (PyStr "a.bC") /\
   extract_words "a.bC" = Ok ["a"; "b"; "c"]) /\
  (extract_words "a--b" = Ok ["a"; ""; "b"] /\
   convert_case (Words ["a"; ""; "b"]) "camelCase" = Ok (PyStr "aB") /\
   extract_words "aB" = Ok ["a"; "b"]).
Proof. repeat split; vm_compute; reflexivity. Qed.

(** ** Rendering the words of a conformant name *)

Lemma smap_fixed f s :
  all (fun c => Ascii.eqb (f c) c) s = true -> smap f s = s.
Proof.
  induction s as [|c t IH]; [reflexivity|]. simpl.
  intros [Hc Ht]%andb_prop. apply Ascii.eqb_eq in Hc. now rewrite Hc, IH.
Qed.

Lemma ld_not_sep c : is_ld c = true -> is_sep c = false.
Proof. intros H. now apply alnum_not_sep, ld_alnum. Qed.

(** The words of a name made of lower-case letters, digits and one kind
    of separator, none at its ends, joined by this separator, are the
    name. *)
Lemma join_words_identity sc name words :
  is_sep sc = true ->
  all (fun c => is_ld c || Ascii.eqb c sc) name = true ->
  first_ok name = true -> last_ok name = true ->
  extract_words name = Ok words ->
  join (String sc "") words = name.
Proof.
  intros Hsc Hall Hf Hl Hwords.
  pose proof (extract_words_ok_letter name words Hwords) as Hlet.
  destruct (any is_sep name) eqn:Hsep.
  - rewrite extract_words_delimiter_path in Hwords by assumption.
    injection Hwords as <-. rewrite join_lower_pieces. apply smap_fixed.
    revert Hall. apply all_impl. intros c Hc. apply Ascii.eqb_eq.
    destruct (is_ld c) eqn:Hld; simpl in Hc.
    + now rewrite (ld_not_sep c Hld), lower_char_ld.
    + apply Ascii.eqb_eq in Hc. subst c. now rewrite Hsc.
  - assert (Hld : all is_ld name = true).
    { clear - Hall Hsep Hsc. induction name as [|c t IH]; [reflexivity|].
      simpl in *. apply andb_prop in Hall. destruct Hall as [Hc Ht].
      apply orb_false_elim in Hsep. destruct Hsep as [Hcs Hts].
      rewrite (IH Ht Hts), andb_true_r.
      destruct (is_ld c); [reflexivity|]. simpl in Hc.
      apply Ascii.eqb_eq in Hc. subst c. congruence. }
    rewrite extract_words_single in Hwords; [|destruct name; discriminate
                                             |assumption|assumption].
    injection Hwords as <-. reflexivity.
Qed.

Lemma lang_lit_inv c w : lang (Lit c) w -> w = String c "".
Proof. now inversion 1. Qed.

Lemma lang_seq_inv r1 r2 w :
  lang (Seq r1 r2) w -> exists w1 w2, w = w1 +:+ w2 /\ lang r1 w1 /\ lang r2 w2.
Proof. inversion 1; subst. eauto. Qed.

Lemma kebab_tail_shape w :
  lang (Star (Seq (Lit "-") (Plus lower_digit_cls))) w ->
  all (fun c => is_ld c || Ascii.eqb c "-") w = true /\ last_ok w = true.
Proof.
  remember (Star (Seq (Lit "-") (Plus lower_digit_cls))) as r eqn:Er.
  induction 1 as [ | | | | | | | | |r w1 w2 H1 IH1 Hne H2 IH2| | | | | ];
    try discriminate.
  - split; reflexivity.
  - assert (Hr : r = Seq (Lit "-") (Plus lower_digit_cls)) by congruence. subst r.
    destruct (IH2 Er) as [Hall2 Hlast2].
    apply lang_seq_inv in H1. destruct H1 as (u & x & -> & Hu & Hx).
    apply lang_lit_inv in Hu. subst u.
    apply lang_plus_class in Hx. destruct Hx as [Hxne Hx].
    assert (Hxld : all is_ld x = true).
    { revert Hx. apply all_impl. intros c. now rewrite in_class_ld. }
    split.
    + rewrite !all_app, Hall2, andb_true_r. simpl.
      revert Hxld. apply all_impl. intros c ->. reflexivity.
    + destruct w2 as [|d u].
      * rewrite sapp_nil_r. rewrite last_ok_app by assumption.
        now apply sep_free_last_ok, ld_sep_free.
      * rewrite last_ok_app by discriminate. assumption.
Qed.

Lemma kebab_shape w :
  lang kebab_body w ->
  all (fun c => is_ld c || Ascii.eqb c "-") w = true /\
  first_ok w = true /\ last_ok w = true.
Proof.
  intros (w1 & w2 & -> & H1 & H2)%lang_seq_inv.
  apply lang_plus_class in H1. destruct H1 as [Hne H1].
  assert (Hld : all is_ld w1 = true).
  { revert H1. apply all_impl. intros c. now rewrite in_class_ld. }
  apply kebab_tail_shape in H2. destruct H2 as [Hall2 Hlast2].
  repeat split.
  - rewrite all_app, Hall2, andb_true_r. revert Hld. apply all_impl.
    intros c ->. reflexivity.
  - rewrite first_ok_app by assumption. now apply sep_free_first_ok, ld_sep_free.
  - destruct w2 as [|d u].
    + rewrite sapp_nil_r. now apply sep_free_last_ok, ld_sep_free.
    + rewrite last_ok_app by discriminate. assumption.
Qed.

Lemma class_star_shape rs1 rs2 w :
  lang (Seq (Class rs1) (Star (Class rs2))) w ->
  exists c t, w = String c t /\ in_class rs1 c = true /\ all (in_class rs2) t = true.
Proof.
  intros (w1 & w2 & -> & H1 & H2)%lang_seq_inv.
  apply lang_class_inv in H1. destruct H1 as [c [-> Hc]].
  apply lang_star_class in H2. exists c, w2. auto.
Qed.

Lemma last_of_all p w : forall prev c,
  all p w = true -> last_of prev w = Some c -> last_of prev w = prev \/ p c = true.
Proof.
  induction w as [|d t IH]; intros prev c Hall Hlast; simpl in *; [now left|].
  apply andb_prop in Hall. destruct Hall as [Hd Ht].
  destruct (IH (Some d) c Ht Hlast) as [E|Hc]; [|now right].
  right. rewrite E in Hlast. now injection Hlast as <-.
Qed.

Lemma snake_shape w :
  lang snake_body w -> last_of None w <> Some "_"%char ->
  all (fun c => is_ld c || Ascii.eqb c "_") w = true /\
  first_ok w = true /\ last_ok w = true.
Proof.
  intros (c & t & -> & Hc & Ht)%class_star_shape Hlast.
  rewrite in_class_lower in Hc.
  assert (Hall : all (fun c => is_ld c || Ascii.eqb c "_") (String c t) = true).
  { simpl. rewrite (lower_ld c Hc). simpl. revert Ht. apply all_impl.
    intros d. now rewrite in_class_snake. }
  repeat split; [assumption| |].
  - simpl. now rewrite (ld_not_sep c (lower_ld c Hc)).
  - unfold last_ok. destruct (last_of None (String c t)) as [d|] eqn:E; [|reflexivity].
    destruct (last_of_all _ _ None d Hall E) as [E'|Hd]; [congruence|].
    apply orb_prop in Hd. destruct Hd as [Hd|Hd].
    + now rewrite (ld_not_sep d Hd).
    + apply Ascii.eqb_eq in Hd. subst d. contradiction.
Qed.

Lemma token_head_ld c t0 :
  is_token (String c t0) = true -> is_ld c = true -> all is_ld (String c t0) = true.
Proof. simpl. intros [H _]%andb_prop Hc. now rewrite Hc, H. Qed.

Lemma capitalize_lower_token w :
  is_token w = true -> starts_upper w = true -> capitalize (lower w) = w.
Proof.
  destruct w as [|c t]; [discriminate|]. simpl.
  intros [Hall _]%andb_prop Hc.
  now rewrite (upper_lower_char c Hc), lower_idem, (lower_all_ld t Hall).
Qed.

(** C7 as stated fails: a snake_case name that ends with an underscore
    loses it, an acronym inside a camelCase or PascalCase name comes back
    with only its first letter in upper case, and the line feed that the
    patterns allow at the end of a name is not part of any word. *)
Lemma render_extract_counterexample :
  (re_match snake_pattern "a_" = Some "a_" /\
   extract_words "a_" = Ok ["a"] /\
   convert_case (Words ["a"]) "snake_case" = Ok (PyStr "a")) /\
  (re_match camel_pattern "aBC" = Some "aBC" /\
   extract_words "aBC" = Ok ["a"; "bc"] /\
   convert_case (Words ["a"; "bc"]) "camelCase" = Ok (PyStr "aBc")) /\
  (re_match pascal_pattern "ABC" = Some "ABC" /\
   extract_words "ABC" = Ok ["abc"] /\
   convert_case (Words ["abc"]) "PascalCase" = Ok (PyStr "Abc")) /\
  (re_match kebab_pattern ("abc" +:+ String LF "") = Some "abc" /\
   extract_words ("abc" +:+ String LF "") = Ok ["abc"] /\
   convert_case (Words ["abc"]) "kebab-case" = Ok (PyStr "abc")).
Proof. repeat split; vm_compute; reflexivity. Qed.

(** * Further properties of the tokenizer, the renderer and the checks *)

(** ** When [extract_words] fails, and what its words look like *)

Lemma extract_words_letter_ok name :
  any is_letter name = true ->
  exists words, extract_words name = Ok words /\ words <> [].
Proof.
  intros Hlet. rewrite (extract_words_unfold name Hlet).
  destruct (any is_sep (strip "-_" name)).
  - eexists. split; [reflexivity|]. intros E. apply map_eq_nil in E.
    revert E. apply pieces_nonempty.
  - destruct (re_findall camel_word_re (strip "-_" name));
      eexists; (split; [reflexivity|discriminate]).
Qed.

(** The tokenizer raises [ValueError] exactly for a name without an
    ASCII letter; for any other name it returns a non-empty list. *)
Theorem extract_words_ok_iff_letter (name : string) :
  if any is_letter name
  then exists words, extract_words name = Ok words /\ words <> []
  else extract_words name =
         Raise (ValueError ("Name must contain at least one letter: '" +:+ name +:+ "'")).
Proof.
  destruct (any is_letter name) eqn:Hlet.
  - now apply extract_words_letter_ok.
  - now apply extract_words_no_letter.
Qed.

Lemma strip_strip s : strip "-_" (strip "-_" s) = strip "-_" s.
Proof. apply strip_id; [apply strip_first_ok|apply strip_last_ok]. Qed.

(** Separators at the two ends of a name do not change its words. *)
Theorem extract_words_strip (name : string) :
  any is_letter name = true ->
  extract_words (strip "-_" name) = extract_words name.
Proof.
  intros Hlet. rewrite (extract_words_unfold name Hlet).
  rewrite extract_words_unfold by (now rewrite strip_letter).
  now rewrite strip_strip.
Qed.

Lemma extract_words_strip_witness :
  any is_letter "__init__" = true /\
  extract_words (strip "-_" "__init__") = extract_words "__init__" /\
  extract_words "__init__" = Ok ["init"].
Proof.
  assert (H : any is_letter "__init__" = true) by (vm_compute; reflexivity).
  split; [exact H|]. split; [exact (extract_words_strip "__init__" H)|].
  vm_compute. reflexivity.
Defined.

Lemma lower_char_no_upper c : is_upper (lower_char c) = false.
Proof. ascii_cases c. Qed.

Lemma lower_clean w :
  all (fun c => negb (is_sep c)) w = true ->
  all (fun c => negb (is_sep c) && negb (is_upper c)) (lower w) = true.
Proof.
  induction w as [|c t IH]; [reflexivity|]. simpl.
  intros [Hc Ht]%andb_prop. rewrite lower_char_sep, Hc, lower_char_no_upper.
  simpl. now apply IH.
Qed.

Lemma pieces_free_of p s :
  Forall (fun w => all (fun c => negb (p c)) w = true) (pieces p s).
Proof.
  induction s as [|c t IH]; [repeat constructor|]. simpl.
  destruct (p c) eqn:Hc; [now constructor|].
  destruct (pieces p t) as [|w ws]; [repeat constructor; simpl; now rewrite Hc|].
  inversion IH; subst. constructor; [simpl; now rewrite Hc|assumption].
Qed.

Lemma no_sep_sep_free s :
  any is_sep s = false -> all (fun c => negb (is_sep c)) s = true.
Proof.
  induction s as [|c t IH]; [reflexivity|]. simpl.
  intros [Hc Ht]%orb_false_elim. now rewrite Hc, IH.
Qed.

(** No word the tokenizer returns has a separator or an upper-case
    letter in it. *)
Theorem extract_words_clean (name : string) (words : list string) :
  extract_words name = Ok words ->
  Forall (fun w => all (fun c => negb (is_sep c) && negb (is_upper c)) w = true) words.
Proof.
  intros Hwords.
  pose proof (extract_words_ok_letter name words Hwords) as Hlet.
  rewrite (extract_words_unfold name Hlet) in Hwords.
  destruct (any is_sep (strip "-_" name)) eqn:Hsep.
  - injection Hwords as <-. apply List.Forall_forall. intros w Hw.
    apply in_map_iff in Hw. destruct Hw as [x [<- Hx]]. apply lower_clean.
    pose proof (pieces_free_of is_sep (strip "-_" name)) as Hfree.
    rewrite List.Forall_forall in Hfree. now apply Hfree.
  - destruct (re_findall camel_word_re (strip "-_" name)) as [|w ws] eqn:E;
      injection Hwords as <-.
    + repeat constructor. now apply lower_clean, no_sep_sep_free.
    + apply List.Forall_forall. intros x Hx.
      apply (in_map_iff lower (w :: ws)) in Hx. destruct Hx as [y [<- Hy]].
      apply lower_clean, alnum_sep_free.
      rewrite <- E in Hy. unfold re_findall in Hy.
      now apply findall_camel_words in Hy.
Qed.

Lemma extract_words_clean_witness :
  extract_words "My_HTTP-Server" = Ok ["my"; "http"; "server"] /\
  Forall (fun w => all (fun c => negb (is_sep c) && negb (is_upper c)) w = true)
         ["my"; "http"; "server"].
Proof.
  assert (H : extract_words "My_HTTP-Server" = Ok ["my"; "http"; "server"])
    by (vm_compute; reflexivity).
  split; [exact H|]. exact (extract_words_clean "My_HTTP-Server" _ H).
Defined.

(** ** The number of words of a name with separators *)

Lemma pieces_length p s : List.length (pieces p s) = S (count p s).
Proof.
  induction s as [|c t IH]; [reflexivity|]. simpl. destruct (p c); simpl.
  - now rewrite IH.
  - destruct (pieces p t) as [|w ws] eqn:E; [now apply pieces_nonempty in E|].
    simpl in *. exact IH.
Qed.

Lemma count_any p s : 0 < count p s -> any p s = true.
Proof.
  induction s as [|c t IH]; simpl; [lia|]. destruct (p c); [reflexivity|].
  simpl. exact IH.
Qed.

(** A name whose stripped form has separators is cut into one word more
    than it has separator characters. *)
Theorem extract_words_count (name : string) :
  any is_letter name = true ->
  any is_sep (strip "-_" name) = true ->
  exists words,
    extract_words name = Ok words /\
    List.length words = S (count is_sep (strip "-_" name)).
Proof.
  intros Hlet Hsep. rewrite (extract_words_unfold name Hlet), Hsep.
  eexists. split; [reflexivity|]. now rewrite length_map, pieces_length.
Qed.

Lemma extract_words_count_witness :
  any is_letter "_open-aec__tools_" = true /\
  any is_sep (strip "-_" "_open-aec__tools_") = true /\
  count is_sep (strip "-_" "_open-aec__tools_") = 3 /\
  exists words,
    extract_words "_open-aec__tools_" = Ok words /\
    List.length words = S (count is_sep (strip "-_" "_open-aec__tools_")).
Proof.
  assert (H1 : any is_letter "_open-aec__tools_" = true) by (vm_compute; reflexivity).
  assert (H2 : any is_sep (strip "-_" "_open-aec__tools_") = true)
    by (vm_compute; reflexivity).
  split; [exact H1|]. split; [exact H2|]. split; [vm_compute; reflexivity|].
  exact (extract_words_count "_open-aec__tools_" H1 H2).
Defined.

(** [check] asks for a manual review of a name that fails the pattern as
    soon as its stripped form has three separator characters, whatever
    lies between them. *)
Theorem check_manual_review_separators
    (self : Convention) (name case_name : string) (pat : regex) :
  get_pattern self case_name = Some pat ->
  re_match pat name = None ->
  any is_letter name = true ->
  3 <= count is_sep (strip "-_" name) ->
  check self name case_name =
    Ok ["Does not match " +:+ case_name;
        "Too many segments (>3) - needs manual review"].
Proof.
  intros Hpat Hfail Hlet Hcount.
  assert (Hsep : any is_sep (strip "-_" name) = true) by (apply count_any; lia).
  unfold check. rewrite Hpat, Hfail, (extract_words_unfold name Hlet), Hsep.
  cbn [bind]. rewrite length_map, pieces_length.
  assert (E : (3 <? S (count is_sep (strip "-_" name))) = true)
    by (apply Nat.ltb_lt; lia).
  now rewrite E.
Qed.

Lemma check_manual_review_separators_witness :
  get_pattern no_overrides "kebab-case" = Some kebab_pattern /\
  re_match kebab_pattern "a--b-c" = None /\
  any is_letter "a--b-c" = true /\
  3 <= count is_sep (strip "-_" "a--b-c") /\
  check no_overrides "a--b-c" "kebab-case" =
    Ok ["Does not match kebab-case"; "Too many segments (>3) - needs manual review"].
Proof.
  assert (H1 : get_pattern no_overrides "kebab-case" = Some kebab_pattern)
    by (vm_compute; reflexivity).
  assert (H2 : re_match kebab_pattern "a--b-c" = None) by (vm_compute; reflexivity).
  assert (H3 : any is_letter "a--b-c" = true) by (vm_compute; reflexivity).
  assert (H4 : 3 <= count is_sep (strip "-_" "a--b-c")) by (vm_compute; lia).
  split; [exact H1|]. split; [exact H2|]. split; [exact H3|]. split; [exact H4|].
  exact (check_manual_review_separators no_overrides "a--b-c" "kebab-case"
           kebab_pattern H1 H2 H3 H4).
Defined.

(** ** The words of a name without separators *)

Lemma compound_words name :
  any is_letter name = true ->
  any is_sep (strip "-_" name) = false ->
  exists toks,
    toks <> [] /\
    re_findall camel_word_re (strip "-_" name) = toks /\
    extract_words name = Ok (map lower toks) /\
    Forall (fun w => w <> "" /\ all is_ld w = true) (map lower toks).
Proof.
  intros Hlet Hsep.
  pose proof (strip_letter name) as Hslet. rewrite Hlet in Hslet.
  destruct (findall_camel_letter (S (String.length (strip "-_" name))) None
              (strip "-_" name)) as [wl [Hin _]]; [lia|assumption|assumption|].
  fold (re_findall camel_word_re (strip "-_" name)) in Hin.
  exists (re_findall camel_word_re (strip "-_" name)).
  split; [intros E; rewrite E in Hin; destruct Hin|]. split; [reflexivity|].
  split.
  - rewrite (extract_words_unfold name Hlet), Hsep.
    destruct (re_findall camel_word_re (strip "-_" name)); [destruct Hin|reflexivity].
  - apply List.Forall_forall. intros x Hx. apply in_map_iff in Hx.
    destruct Hx as [y [<- Hy]]. unfold re_findall in Hy.
    apply findall_camel_words in Hy. destruct Hy as [Hne Hal].
    split; [now apply lower_nonempty|now apply all_alnum_lower].
Qed.

(** For a name of ASCII characters without separators inside,
    [re.findall] always finds a word, so the fallback to the whole
    lower-cased name is never taken; the words are the matches
    lower-cased, each a non-empty text of lower-case letters and digits. *)
Theorem extract_words_compound (name : string) :
  all is_ascii name = true ->
  any is_letter name = true ->
  any is_sep (strip "-_" name) = false ->
  exists toks,
    toks <> [] /\
    re_findall camel_word_re (strip "-_" name) = toks /\
    extract_words name = Ok (map lower toks) /\
    Forall (fun w => w <> "" /\ all is_ld w = true) (map lower toks).
Proof. intros _. apply compound_words. Qed.

Lemma extract_words_compound_witness :
  all is_ascii "_XMLHttp2Request" = true /\
  any is_letter "_XMLHttp2Request" = true /\
  any is_sep (strip "-_" "_XMLHttp2Request") = false /\
  extract_words "_XMLHttp2Request" = Ok ["xml"; "http2"; "request"] /\
  exists toks,
    toks <> [] /\
    re_findall camel_word_re (strip "-_" "_XMLHttp2Request") = toks /\
    extract_words "_XMLHttp2Request" = Ok (map lower toks) /\
    Forall (fun w => w <> "" /\ all is_ld w = true) (map lower toks).
Proof.
  assert (H1 : any is_letter "_XMLHttp2Request" = true) by (vm_compute; reflexivity).
  assert (H2 : any is_sep (strip "-_" "_XMLHttp2Request") = false)
    by (vm_compute; reflexivity).
  split; [reflexivity|].
  split; [exact H1|]. split; [exact H2|]. split; [vm_compute; reflexivity|].
  exact (extract_words_compound "_XMLHttp2Request" eq_refl H1 H2).
Defined.

(** ** When [get_suggested_name] succeeds *)

Lemma last_ok_tail c t : t <> "" -> last_ok (String c t) = last_ok t.
Proof. destruct t; [contradiction|reflexivity]. Qed.

Lemma pieces_tail_nonempty s :
  no_adjacent is_sep s = true -> last_ok s = true ->
  Forall (fun w => w <> "") (tail (pieces is_sep s)) /\
  (s <> "" -> first_ok s = true ->
   exists w ws, pieces is_sep s = w :: ws /\ w <> "").
Proof.
  induction s as [|c t IH]; intros Hadj Hlast.
  - split; [constructor|]. intros H. contradiction.
  - cbn [no_adjacent] in Hadj. apply andb_prop in Hadj. destruct Hadj as [Hc Hadj].
    cbn [pieces]. destruct (String.eqb_spec t "") as [->|Hne].
    + destruct (is_sep c) eqn:Hsep.
      * unfold last_ok in Hlast. simpl in Hlast. now rewrite Hsep in Hlast.
      * simpl. split; [constructor|]. intros _ _. eexists _, _.
        split; [reflexivity|discriminate].
    + rewrite (last_ok_tail c t Hne) in Hlast.
      destruct (IH Hadj Hlast) as [Htail Hhead].
      destruct (pieces is_sep t) as [|w ws] eqn:E;
        [now apply pieces_nonempty in E|].
      destruct (is_sep c) eqn:Hsep.
      * simpl in Hc. destruct (Hhead Hne Hc) as (w' & ws' & [= <- <-] & Hw).
        split.
        -- simpl. now constructor.
        -- intros _ Hf. simpl in Hf. now rewrite Hsep in Hf.
      * split; [exact Htail|]. intros _ _. eexists _, _.
        split; [reflexivity|discriminate].
Qed.

Lemma pieces_words_nonempty s :
  s <> "" -> first_ok s = true -> last_ok s = true ->
  no_adjacent is_sep s = true ->
  Forall (fun w => w <> "") (pieces is_sep s).
Proof.
  intros Hne Hf Hl Hadj. destruct (pieces_tail_nonempty s Hadj Hl) as [Htail Hhead].
  destruct (Hhead Hne Hf) as (w & ws & E & Hw). rewrite E in *.
  now constructor.
Qed.

Lemma any_nonempty p s : any p s = true -> s <> "".
Proof. destruct s; [discriminate|discriminate]. Qed.

(** The words of a name whose stripped form has no two adjacent
    separators are all non-empty. *)
Lemma extract_words_nonempty_words name words :
  extract_words name = Ok words ->
  no_adjacent is_sep (strip "-_" name) = true ->
  Forall (fun w => w <> "") words.
Proof.
  intros Hwords Hadj.
  pose proof (extract_words_ok_letter name words Hwords) as Hlet.
  pose proof (strip_letter name) as Hslet. rewrite Hlet in Hslet.
  destruct (any is_sep (strip "-_" name)) eqn:Hsep.
  - rewrite (extract_words_unfold name Hlet), Hsep in Hwords.
    injection Hwords as <-. apply List.Forall_forall. intros w Hw.
    apply in_map_iff in Hw. destruct Hw as [x [<- Hx]]. apply lower_nonempty.
    pose proof (pieces_words_nonempty (strip "-_" name)
                  (any_nonempty _ _ Hslet) (strip_first_ok name)
                  (strip_last_ok name) Hadj) as Hall.
    rewrite List.Forall_forall in Hall. now apply Hall.
  - destruct (compound_words name Hlet Hsep) as (toks & _ & _ & E & Hall).
    rewrite E in Hwords. injection Hwords as <-.
    eapply Forall_impl; [exact Hall|]. now intros w [Hw _].
Qed.

(** Non-empty words are rendered as a string in each of the four
    styles, however many they are. *)
Lemma convert_case_nonempty_words words target_case :
  words <> [] -> Forall (fun w => w <> "") words ->
  In target_case CASE_STYLES ->
  exists s, convert_case (Words words) target_case = Ok (PyStr s).
Proof.
  intros Hne Hall Hstyle. unfold convert_case. cbn [bind].
  destruct (first_chars_initialism words Hall) as [cs [Hcs _]].
  simpl in Hstyle.
  destruct (3 <? List.length words); [rewrite Hcs|]; cbn [bind];
    destruct Hstyle as [<-|[<-|[<-|[<-|[]]]]]; cbn [String.eqb Ascii.eqb Bool.eqb];
    try (eexists; reflexivity).
  destruct words; [contradiction|eexists; reflexivity].
Qed.

(** For a supported style and a name with an ASCII letter whose stripped
    form has no two adjacent separators, [get_suggested_name] returns a
    string: it raises nothing and does not return [None]. *)
Theorem get_suggested_name_succeeds
    (self : Convention) (name case_name : string) :
  any is_letter name = true ->
  no_adjacent is_sep (strip "-_" name) = true ->
  In case_name CASE_STYLES ->
  exists s, get_suggested_name self name case_name = Ok (PyStr s).
Proof.
  intros Hlet Hadj Hstyle.
  destruct (extract_words_letter_ok name Hlet) as (words & Hwords & Hne).
  unfold get_suggested_name, convert_case. rewrite Hwords. cbn [bind].
  apply (convert_case_nonempty_words words case_name Hne); [|assumption].
  now apply (extract_words_nonempty_words name).
Qed.

Lemma get_suggested_name_succeeds_witness :
  any is_letter "open_aec-pdf_studio_tool" = true /\
  no_adjacent is_sep (strip "-_" "open_aec-pdf_studio_tool") = true /\
  In "camelCase" CASE_STYLES /\
  get_suggested_name no_overrides "open_aec-pdf_studio_tool" "camelCase" =
    Ok (PyStr "oapst") /\
  exists s, get_suggested_name no_overrides "open_aec-pdf_studio_tool" "camelCase" =
              Ok (PyStr s).
Proof.
  assert (H1 : any is_letter "open_aec-pdf_studio_tool" = true)
    by (vm_compute; reflexivity).
  assert (H2 : no_adjacent is_sep (strip "-_" "open_aec-pdf_studio_tool") = true)
    by (vm_compute; reflexivity).
  assert (H3 : In "camelCase" CASE_STYLES) by (simpl; tauto).
  split; [exact H1|]. split; [exact H2|]. split; [exact H3|].
  split; [vm_compute; reflexivity|].
  exact (get_suggested_name_succeeds no_overrides _ _ H1 H2 H3).
Defined.

(** ** When [check] raises *)

Lemma check_ok_with_letter self name case_name :
  any is_letter name = true -> exists issues, check self name case_name = Ok issues.
Proof.
  intros Hlet. unfold check.
  destruct (get_pattern self case_name) as [pat|]; [|eauto].
  destruct (re_match pat name); [eauto|].
  destruct (extract_words_letter_ok name Hlet) as (words & -> & Hne). cbn [bind].
  destruct (3 <? List.length words) eqn:Hlen; [eauto|].
  apply Nat.ltb_ge in Hlen.
  destruct (convert_case_small words case_name Hne Hlen) as [v ->]. cbn [bind].
  destruct (pyval_eqb v (PyStr name)); eauto.
Qed.

Lemma check_raise_inv self name case_name e :
  check self name case_name = Raise e ->
  (exists pat, get_pattern self case_name = Some pat /\ re_match pat name = None) /\
  any is_letter name = false /\
  e = ValueError ("Name must contain at least one letter: '" +:+ name +:+ "'").
Proof.
  intros Hraise. destruct (any is_letter name) eqn:Hlet.
  - destruct (check_ok_with_letter self name case_name Hlet) as [issues H].
    congruence.
  - unfold check in Hraise.
    destruct (get_pattern self case_name) as [pat|]; [|discriminate].
    destruct (re_match pat name) eqn:Hm; [discriminate|].
    rewrite (extract_words_no_letter name Hlet) in Hraise.
    cbn [bind] in Hraise. injection Hraise as <-. eauto.
Qed.

(** On a conventions document whose [naming.case] entries are mappings
    with well-formed patterns (the documents a [Convention] stands for),
    [check] raises the tokenizer's [ValueError] exactly when the style
    has a pattern, the name fails it and the name has no ASCII letter;
    the [IndexError] of the renderer's collapse never gets through
    [check], which renders at most 3 words. *)
Theorem check_value_error_iff (self : Convention) (name case_name : string) :
  (forall msg : string,
     check self name case_name = Raise (ValueError msg) <->
     (exists pat, get_pattern self case_name = Some pat /\ re_match pat name = None) /\
     any is_letter name = false /\
     msg = "Name must contain at least one letter: '" +:+ name +:+ "'") /\
  (forall msg : string, check self name case_name <> Raise (IndexError msg)).
Proof.
  split.
  - intros msg. split.
    + intros Hraise. destruct (check_raise_inv _ _ _ _ Hraise) as (Hpat & Hlet & E).
      repeat split; [exact Hpat|exact Hlet|congruence].
    + intros [[pat [Hpat Hm]] [Hlet ->]]. unfold check.
      now rewrite Hpat, Hm, (extract_words_no_letter name Hlet).
  - intros msg Hraise.
    destruct (check_raise_inv _ _ _ _ Hraise) as (_ & _ & E). discriminate.
Qed.

(** ** Styles without a pattern *)

Lemma CASE_PATTERNS_none_iff case_name :
  CASE_PATTERNS !! case_name = None <-> ~ In case_name CASE_STYLES.
Proof.
  split.
  - intros HNone Hin. simpl in Hin.
    destruct Hin as [<-|[<-|[<-|[<-|[]]]]]; vm_compute in HNone; discriminate.
  - intros Hnot. destruct (CASE_PATTERNS !! case_name) as [pat|] eqn:E; [|reflexivity].
    exfalso. apply Hnot. simpl.
    destruct (CASE_PATTERNS_lookup _ _ E) as [[-> _]|[[-> _]|[[-> _]|[-> _]]]]; tauto.
Qed.

Lemma get_pattern_none_iff self case_name :
  get_pattern self case_name = None <->
  cases self !! case_name ≫= pattern = None /\ ~ In case_name CASE_STYLES.
Proof.
  unfold get_pattern. rewrite <- CASE_PATTERNS_none_iff.
  destruct (cases self !! case_name ≫= pattern); split.
  - discriminate.
  - intros [H _]. discriminate.
  - tauto.
  - tauto.
Qed.

(** [check] reports a style as unknown exactly when the conventions
    document gives no pattern for it and it is none of the four supported
    styles; the verdict is then the same for every name, also for one
    without a letter. *)
Theorem check_unknown_style_iff (self : Convention) (name case_name : string) :
  check self name case_name = Ok ["Unknown case style: " +:+ case_name] <->
  cases self !! case_name ≫= pattern = None /\ ~ In case_name CASE_STYLES.
Proof.
  rewrite <- get_pattern_none_iff. unfold check. split.
  - destruct (get_pattern self case_name) as [pat|]; [|reflexivity].
    destruct (re_match pat name); [discriminate|].
    destruct (extract_words name) as [words|e]; cbn [bind]; [|discriminate].
    destruct (3 <? List.length words); [simpl; discriminate|].
    destruct (convert_case (Words words) case_name) as [v|e]; cbn [bind];
      [|discriminate].
    destruct (pyval_eqb v (PyStr name)); simpl; discriminate.
  - now intros ->.
Qed.

(** ** The category checks *)

Lemma truthy_some style case_style :
  truthy style = Some case_style <-> style = Some case_style /\ case_style <> "".
Proof.
  destruct style as [[|c t]|]; simpl; split.
  - discriminate.
  - intros [H Hne]. injection H as <-. now contradiction Hne.
  - intros H. split; [assumption|]. injection H as <-. discriminate.
  - tauto.
  - discriminate.
  - intros [H _]. discriminate.
Qed.

(** [check_naming_convention] of the enforcer finds a repository name
    conformant exactly when the conventions document names a style for
    repositories, that style has a pattern, and the pattern matches the
    name: without a configured style the issue list is never empty. *)
Theorem check_naming_convention_conformant_iff
    (repo_name : string) (convention : Naming) :
  check_naming_convention repo_name convention = Ok [] <->
  exists case_style pat,
    naming_repository convention = Some case_style /\ case_style <> "" /\
    get_pattern (convention_of convention) case_style = Some pat /\
    re_match pat repo_name <> None.
Proof.
  unfold check_naming_convention, check_repository. split.
  - destruct (truthy (naming_repository convention)) as [case_style|] eqn:E;
      [|discriminate].
    apply truthy_some in E. destruct E as [E Hne]. intros Hok.
    destruct (get_pattern (convention_of convention) case_style) as [pat|] eqn:Hpat.
    + exists case_style, pat. repeat split; try assumption.
      now apply (check_empty_iff _ _ _ _ Hpat).
    + unfold check in Hok. rewrite Hpat in Hok. discriminate.
  - intros (case_style & pat & E & Hne & Hpat & Hm).
    rewrite (proj2 (truthy_some _ _) (conj E Hne)).
    now apply (check_empty_iff _ _ _ _ Hpat).
Qed.

(** [check_language] finds a name conformant exactly when the language
    has a mapping, the mapping names a style for the element type, that
    style has a pattern, and the pattern matches the name. *)
Theorem check_language_conformant_iff
    (self : Naming) (name language element_type : string) :
  check_language self name language element_type = Ok [] <->
  exists lang case_style pat,
    naming_language self !! language = Some lang /\
    lang !! element_type = Some case_style /\ case_style <> "" /\
    get_pattern (convention_of self) case_style = Some pat /\
    re_match pat name <> None.
Proof.
  unfold check_language. split.
  - destruct (naming_language self !! language) as [lang|]; simpl.
    + destruct (decide (lang = ∅)) as [->|Hlang]; [discriminate|].
      destruct (truthy (lang !! element_type)) as [case_style|] eqn:E;
        [|discriminate].
      apply truthy_some in E. destruct E as [E Hne]. intros Hok.
      destruct (get_pattern (convention_of self) case_style) as [pat|] eqn:Hpat.
      * exists lang, case_style, pat. repeat split; try assumption.
        now apply (check_empty_iff _ _ _ _ Hpat).
      * unfold check in Hok. rewrite Hpat in Hok. discriminate.
    + destruct (decide (∅ = ∅)); [discriminate|congruence].
  - intros (lang & case_style & pat & El & E & Hne & Hpat & Hm).
    rewrite El. simpl.
    destruct (decide (lang = ∅)) as [->|Hlang].
    + rewrite lookup_empty in E. discriminate.
    + rewrite (proj2 (truthy_some _ _) (conj E Hne)).
      now apply (check_empty_iff _ _ _ _ Hpat).
Qed.

(** On a conventions document whose [naming] sections are mappings of
    the expected shape and whose patterns are well-formed (the documents
    a [Naming] stands for), the three category checks return an issue
    list for every name with an ASCII letter: neither the tokenizer's
    [ValueError] nor the renderer's [IndexError] gets through them. *)
Theorem category_checks_return
    (self : Naming) (name language element_type : string) :
  any is_letter name = true ->
  (exists issues, check_repository self name = Ok issues) /\
  (exists issues, check_directory self name = Ok issues) /\
  (exists issues, check_language self name language element_type = Ok issues).
Proof.
  intros Hlet. unfold check_repository, check_directory, check_language.
  repeat split.
  - destruct (truthy (naming_repository self)); [|eauto].
    now apply check_ok_with_letter.
  - destruct (truthy (naming_directory self)); [|eauto].
    now apply check_ok_with_letter.
  - destruct (decide (default ∅ (naming_language self !! language) = ∅)); [eauto|].
    destruct (truthy (default ∅ (naming_language self !! language) !! element_type));
      [|eauto].
    now apply check_ok_with_letter.
Qed.

Lemma category_checks_return_witness :
  any is_letter "MyRepo" = true /\
  check_repository
    {| naming_case := ∅; naming_repository := Some "kebab-case";
       naming_directory := None;
       naming_language := {[ "cpp" := {[ "class" := "PascalCase" ]} ]} |}
    "MyRepo" = Ok ["Does not match kebab-case"; "Suggested: 'my-repo'"] /\
  exists issues,
    check_language
      {| naming_case := ∅; naming_repository := Some "kebab-case";
         naming_directory := None;
         naming_language := {[ "cpp" := {[ "class" := "PascalCase" ]} ]} |}
      "MyRepo" "cpp" "class" = Ok issues.
Proof.
  split; [reflexivity|]. split; [vm_compute; reflexivity|].
  apply (category_checks_return
           {| naming_case := ∅; naming_repository := Some "kebab-case";
              naming_directory := None;
              naming_language := {[ "cpp" := {[ "class" := "PascalCase" ]} ]} |}
           "MyRepo" "cpp" "class").
  reflexivity.
Defined.

(** ** The suggestion for the separator styles *)

(** For kebab-case and snake_case and a name of ASCII characters with at
    most 3 words, the suggestion is a fixed point of
    [get_suggested_name]: suggesting a name for the suggestion gives the
    suggestion back. *)
Theorem get_suggested_name_idempotent
    (self : Convention) (name case_name : string) (words : list string) (s : string) :
  all is_ascii name = true ->
  case_name = "kebab-case" \/ case_name = "snake_case" ->
  extract_words name = Ok words ->
  List.length words <= 3 ->
  get_suggested_name self name case_name = Ok (PyStr s) ->
  get_suggested_name self s case_name = Ok (PyStr s).
Proof.
  intros _ Hstyle Hwords Hlen. unfold get_suggested_name.
  assert (Hconv : forall n, extract_words n = Ok words ->
            convert_case (Name n) case_name = convert_case (Words words) case_name).
  { intros n Hn. unfold convert_case. now rewrite Hn. }
  rewrite (Hconv name Hwords), (convert_case_no_collapse words case_name Hlen).
  destruct Hstyle as [-> | ->]; cbn [String.eqb Ascii.eqb Bool.eqb];
    intros Hs; injection Hs as <-.
  - rewrite (Hconv _ (roundtrip_separator name words "-" Hwords eq_refl)).
    now rewrite (convert_case_no_collapse words "kebab-case" Hlen).
  - rewrite (Hconv _ (roundtrip_separator name words "_" Hwords eq_refl)).
    now rewrite (convert_case_no_collapse words "snake_case" Hlen).
Qed.

Lemma get_suggested_name_idempotent_witness :
  all is_ascii "My_Repo-Name" = true /\
  extract_words "My_Repo-Name" = Ok ["my"; "repo"; "name"] /\
  get_suggested_name no_overrides "My_Repo-Name" "snake_case" =
    Ok (PyStr "my_repo_name") /\
  get_suggested_name no_overrides "my_repo_name" "snake_case" =
    Ok (PyStr "my_repo_name").
Proof.
  assert (H1 : extract_words "My_Repo-Name" = Ok ["my"; "repo"; "name"])
    by (vm_compute; reflexivity).
  assert (H2 : get_suggested_name no_overrides "My_Repo-Name" "snake_case" =
                 Ok (PyStr "my_repo_name")) by (vm_compute; reflexivity).
  split; [reflexivity|]. split; [exact H1|]. split; [exact H2|].
  apply (get_suggested_name_idempotent no_overrides "My_Repo-Name" "snake_case"
           ["my"; "repo"; "name"] "my_repo_name");
    [reflexivity|now right|exact H1| |exact H2].
  simpl. lia.
Defined.



(** ** The kebab-case suggestion conforms *)

Lemma lang_star_class_intro rs w :
  all (in_class rs) w = true -> lang (Star (Class rs)) w.
Proof.
  induction w as [|c t IH]; simpl; intros H.
  - constructor.
  - apply andb_prop in H. destruct H as [Hc Ht].
    change (String c t) with (String c "" +:+ t).
    apply L_star_cons; [now constructor|discriminate|now apply IH].
Qed.

Lemma lang_plus_class_intro rs w :
  w <> "" -> all (in_class rs) w = true -> lang (Plus (Class rs)) w.
Proof.
  destruct w as [|c t]; [contradiction|]. simpl. intros _ H.
  apply andb_prop in H. destruct H as [Hc Ht].
  change (String c t) with (String c "" +:+ t).
  apply L_plus; [now constructor|now apply lang_star_class_intro].
Qed.

Lemma all_ld_class w :
  all is_ld w = true -> all (in_class [("a", "z"); ("0", "9")]%char) w = true.
Proof.
  intros H. induction w as [|c t IH]; simpl in *; [reflexivity|].
  apply andb_prop in H. destruct H as [Hc Ht].
  now rewrite in_class_ld, Hc, (IH Ht).
Qed.

Lemma kebab_tail_lang ws :
  Forall (fun w => w <> "" /\ all is_ld w = true) ws ->
  lang (Star (Seq (Lit "-") (Plus lower_digit_cls)))
       (join "" (map (fun w => "-" +:+ w) ws)).
Proof.
  induction 1 as [|w ws [Hne Hld] _ IH]; [constructor|].
  cbn [map]. rewrite join_empty_cons.
  apply L_star_cons; [|discriminate|exact IH].
  apply L_seq; [constructor|].
  apply lang_plus_class_intro; [assumption|now apply all_ld_class].
Qed.

Lemma join_hyphen_tail w ws :
  join "-" (w :: ws) = w +:+ join "" (map (fun w => "-" +:+ w) ws).
Proof.
  revert w. induction ws as [|w' ws IH]; intros w.
  - rewrite join_one. simpl. now rewrite sapp_nil_r.
  - rewrite join_cons, IH. cbn [map]. rewrite join_empty_cons.
    now rewrite !sapp_assoc.
Qed.

Lemma kebab_join_lang ws :
  ws <> [] -> Forall (fun w => w <> "" /\ all is_ld w = true) ws ->
  lang kebab_body (join "-" ws).
Proof.
  destruct ws as [|w ws]; [contradiction|]. intros _ Hall.
  rewrite join_hyphen_tail. inversion Hall as [|? ? [Hne Hld] Hrest]; subst.
  apply L_seq.
  - apply lang_plus_class_intro; [assumption|now apply all_ld_class].
  - now apply kebab_tail_lang.
Qed.

Lemma kebab_words_conformant self ws :
  cases self !! "kebab-case" ≫= pattern = None ->
  ws <> [] -> Forall (fun w => w <> "" /\ all is_ld w = true) ws ->
  check self (join "-" ws) "kebab-case" = Ok [].
Proof.
  intros Hover Hne Hall.
  assert (Hpat : get_pattern self "kebab-case" = Some kebab_pattern).
  { unfold get_pattern. rewrite Hover. reflexivity. }
  apply (check_empty_iff _ _ _ _ Hpat).
  destruct (builtin_pattern_anchored "kebab-case" kebab_pattern eq_refl)
    as (body & Hbody & Hplain & Hexec).
  assert (body = kebab_body) by (cbn in Hbody; congruence). subst body.
  rewrite (re_match_exec_ext _ _ _ Hexec).
  apply (match_anchored _ _ Hplain). left. now apply kebab_join_lang.
Qed.

Lemma initialism_ld words :
  words <> [] -> Forall (fun w => w <> "" /\ all is_ld w = true) words ->
  initialism words <> "" /\ all is_ld (initialism words) = true.
Proof.
  intros Hne Hall. split.
  - destruct words as [|[|c t] ws]; [contradiction| |discriminate].
    inversion Hall as [|? ? [H _] _]. now contradiction H.
  - clear Hne. induction Hall as [|[|c t] ws [Hw Hld] _ IH]; simpl;
      [reflexivity|contradiction|].
    simpl in Hld. apply andb_prop in Hld. destruct Hld as [Hc _].
    now rewrite Hc, IH.
Qed.

Lemma all_lstrip p s : all p s = true -> all p (lstrip "-_" s) = true.
Proof.
  induction s as [|c t IH]; [reflexivity|]. intros H. cbn [lstrip].
  destruct (contains c "-_"); [|exact H].
  simpl in H. apply andb_prop in H. now apply IH.
Qed.

Lemma all_rstrip p s : all p s = true -> all p (rstrip "-_" s) = true.
Proof.
  induction s as [|c t IH]; [reflexivity|]. intros H. cbn [rstrip].
  simpl in H. apply andb_prop in H. destruct H as [Hc Ht].
  specialize (IH Ht). destruct (rstrip "-_" t) as [|d t'].
  - destruct (contains c "-_"); [reflexivity|]. simpl. now rewrite Hc.
  - cbn [all]. cbn [all] in IH. now rewrite Hc, IH.
Qed.

Lemma all_strip p s : all p s = true -> all p (strip "-_" s) = true.
Proof. intros H. unfold strip. now apply all_rstrip, all_lstrip. Qed.

Lemma pieces_all_alnum s :
  all (fun c => is_alnum c || is_sep c) s = true ->
  Forall (fun w => all is_alnum w = true) (pieces is_sep s).
Proof.
  induction s as [|c t IH]; intros H.
  - repeat constructor.
  - simpl in H. apply andb_prop in H. destruct H as [Hc Ht].
    specialize (IH Ht). cbn [pieces].
    destruct (is_sep c) eqn:Hsep.
    + constructor; [reflexivity|exact IH].
    + rewrite orb_false_r in Hc. destruct (pieces is_sep t) as [|w ws].
      * repeat constructor. simpl. now rewrite Hc.
      * inversion IH; subst. constructor; [|assumption].
        simpl. now rewrite Hc.
Qed.

Lemma extract_words_ld_words name words :
  extract_words name = Ok words ->
  all (fun c => is_alnum c || is_sep c) name = true ->
  no_adjacent is_sep (strip "-_" name) = true ->
  Forall (fun w => w <> "" /\ all is_ld w = true) words.
Proof.
  intros Hwords Hall Hadj.
  pose proof (extract_words_nonempty_words name words Hwords Hadj) as Hne.
  destruct (any is_letter name) eqn:Hlet;
    [|rewrite (extract_words_no_letter name Hlet) in Hwords; discriminate].
  destruct (any is_sep (strip "-_" name)) eqn:Hsep.
  - rewrite (extract_words_unfold name Hlet), Hsep in Hwords.
    injection Hwords as <-.
    pose proof (pieces_all_alnum _ (all_strip _ _ Hall)) as Hp.
    apply List.Forall_forall. intros w Hw.
    split; [exact (proj1 (List.Forall_forall _ _) Hne w Hw)|].
    apply in_map_iff in Hw. destruct Hw as (x & <- & Hx).
    apply all_alnum_lower. exact (proj1 (List.Forall_forall _ _) Hp x Hx).
  - destruct (compound_words name Hlet Hsep) as (toks & _ & _ & Hw & Hld).
    congruence.
Qed.

(** For a name made of ASCII letters, digits, hyphens and underscores,
    with a letter and without two adjacent separators once stripped, the
    kebab-case suggestion conforms to the built-in kebab-case pattern:
    checking the suggestion returns the empty list. *)
Theorem kebab_suggestion_conformant (self : Convention) (name : string) :
  cases self !! "kebab-case" ≫= pattern = None ->
  any is_letter name = true ->
  all (fun c => is_alnum c || is_sep c) name = true ->
  no_adjacent is_sep (strip "-_" name) = true ->
  exists s, get_suggested_name self name "kebab-case" = Ok (PyStr s) /\
            check self s "kebab-case" = Ok [].
Proof.
  intros Hover Hlet Hall Hadj.
  destruct (extract_words_letter_ok name Hlet) as (words & Hwords & Hne).
  pose proof (extract_words_ld_words name words Hwords Hall Hadj) as Hld.
  unfold get_suggested_name, convert_case. rewrite Hwords. cbn [bind].
  destruct (3 <? List.length words).
  - destruct (first_chars_initialism words) as (cs & -> & Hcs).
    { eapply Forall_impl; [exact Hld|]. now intros w [H _]. }
    cbn [bind String.eqb Ascii.eqb Bool.eqb]. eexists. split; [reflexivity|].
    apply kebab_words_conformant; [assumption|discriminate|].
    rewrite Hcs. constructor; [|constructor].
    now apply initialism_ld.
  - cbn [bind String.eqb Ascii.eqb Bool.eqb]. eexists. split; [reflexivity|].
    now apply kebab_words_conformant.
Qed.

Lemma kebab_suggestion_conformant_witness :
  any is_letter "Open_AEC-PDFStudio_Tool2" = true /\
  all (fun c => is_alnum c || is_sep c) "Open_AEC-PDFStudio_Tool2" = true /\
  no_adjacent is_sep (strip "-_" "Open_AEC-PDFStudio_Tool2") = true /\
  get_suggested_name no_overrides "Open_AEC-PDFStudio_Tool2" "kebab-case" =
    Ok (PyStr "oapt") /\
  exists s,
    get_suggested_name no_overrides "Open_AEC-PDFStudio_Tool2" "kebab-case" =
      Ok (PyStr s) /\
    check no_overrides s "kebab-case" = Ok [].
Proof.
  assert (H1 : any is_letter "Open_AEC-PDFStudio_Tool2" = true)
    by (vm_compute; reflexivity).
  assert (H2 : all (fun c => is_alnum c || is_sep c) "Open_AEC-PDFStudio_Tool2" = true)
    by (vm_compute; reflexivity).
  assert (H3 : no_adjacent is_sep (strip "-_" "Open_AEC-PDFStudio_Tool2") = true)
    by (vm_compute; reflexivity).
  split; [exact H1|]. split; [exact H2|]. split; [exact H3|].
  split; [vm_compute; reflexivity|].
  exact (kebab_suggestion_conformant no_overrides _ eq_refl H1 H2 H3).
Defined.

(** ** PascalCase against the other built-in patterns *)

Lemma match_anchored_first body s (P : ascii -> bool) :
  plain body = true ->
  (forall w, lang body w -> exists c t, w = String c t /\ P c = true) ->
  re_match (anchored body) s <> None ->
  exists c t, s = String c t /\ P c = true.
Proof.
  intros Hplain Hfirst Hm. apply (match_anchored _ _ Hplain) in Hm.
  destruct Hm as [Hl | (w & -> & Hl)];
    destruct (Hfirst _ Hl) as (c & t & -> & Hc); eauto.
Qed.

Lemma class_star_first rs rs' w :
  lang (Seq (Class rs) (Star (Class rs'))) w ->
  exists c t, w = String c t /\ in_class rs c = true.
Proof.
  intros H. apply lang_seq_inv in H. destruct H as (w1 & w2 & -> & H1 & _).
  apply lang_class_inv in H1. destruct H1 as (c & -> & Hc). eauto.
Qed.

Lemma kebab_first w :
  lang kebab_body w -> exists c t, w = String c t /\ is_ld c = true.
Proof.
  intros H. apply lang_seq_inv in H. destruct H as (w1 & w2 & -> & H1 & _).
  apply lang_plus_class in H1. destruct H1 as [Hne Hall].
  destruct w1 as [|c t]; [contradiction|]. simpl in Hall.
  apply andb_prop in Hall. destruct Hall as [Hc _].
  rewrite in_class_ld in Hc. exists c, (t +:+ w2). now split.
Qed.

Lemma builtin_match_first case_name pat name :
  CASE_PATTERNS !! case_name = Some pat ->
  re_match pat name <> None ->
  exists c t, name = String c t /\
    if String.eqb case_name "PascalCase" then is_upper c = true else is_ld c = true.
Proof.
  intros Hpat Hm.
  destruct (builtin_pattern_anchored _ _ Hpat) as (body & Hbody & Hplain & Hexec).
  rewrite (re_match_exec_ext _ _ _ Hexec) in Hm.
  destruct (CASE_PATTERNS_lookup _ _ Hpat) as [[-> _]|[[-> _]|[[-> _]|[-> _]]]];
    cbn in Hbody; injection Hbody as <-; cbn [String.eqb Ascii.eqb Bool.eqb].
  - apply (match_anchored_first _ _ _ Hplain kebab_first Hm).
  - apply (match_anchored_first _ _ _ Hplain); [|exact Hm].
    intros w Hw. destruct (class_star_first _ _ _ Hw) as (c & t & -> & Hc).
    rewrite in_class_lower in Hc. exists c, t. split; [reflexivity|].
    unfold is_ld. now rewrite Hc.
  - apply (match_anchored_first _ _ _ Hplain); [|exact Hm].
    intros w Hw. destruct (class_star_first _ _ _ Hw) as (c & t & -> & Hc).
    rewrite in_class_lower in Hc. exists c, t. split; [reflexivity|].
    unfold is_ld. now rewrite Hc.
  - apply (match_anchored_first _ _ _ Hplain); [|exact Hm].
    intros w Hw. destruct (class_star_first _ _ _ Hw) as (c & t & -> & Hc).
    rewrite in_class_upper in Hc. eauto.
Qed.

Lemma check_mismatch_head self name case_name pat :
  get_pattern self case_name = Some pat ->
  re_match pat name = None ->
  any is_letter name = true ->
  exists rest, check self name case_name = Ok (("Does not match " +:+ case_name) :: rest).
Proof.
  intros Hpat Hm Hlet. unfold check. rewrite Hpat, Hm.
  destruct (extract_words_letter_ok name Hlet) as (words & -> & Hne). cbn [bind].
  destruct (3 <? List.length words) eqn:Hlen; [eexists; reflexivity|].
  apply Nat.ltb_ge in Hlen.
  destruct (convert_case_small words case_name Hne Hlen) as [v ->]. cbn [bind].
  destruct (pyval_eqb v (PyStr name)); eexists; reflexivity.
Qed.

(** Under the built-in patterns a name that conforms to PascalCase
    conforms to none of the other three styles: checking it against any
    of them reports a mismatch (while kebab-case, snake_case and camelCase
    share names such as "abc"). *)
Theorem pascal_excludes_other_styles (name case_name : string) :
  check no_overrides name "PascalCase" = Ok [] ->
  In case_name ["kebab-case"; "snake_case"; "camelCase"] ->
  exists rest,
    check no_overrides name case_name = Ok (("Does not match " +:+ case_name) :: rest).
Proof.
  intros Hpascal Hstyle.
  apply (check_empty_iff no_overrides name "PascalCase" pascal_pattern eq_refl)
    in Hpascal.
  destruct (builtin_match_first "PascalCase" pascal_pattern name eq_refl Hpascal)
    as (c & t & -> & Hc). cbn [String.eqb Ascii.eqb Bool.eqb] in Hc.
  assert (Hlet : any is_letter (String c t) = true).
  { simpl. unfold is_letter. rewrite Hc. now rewrite orb_true_r. }
  assert (Hother : forall pat,
            CASE_PATTERNS !! case_name = Some pat ->
            String.eqb case_name "PascalCase" = false ->
            re_match pat (String c t) = None).
  { intros pat Hpat Hneq.
    destruct (re_match pat (String c t)) eqn:Hm; [|reflexivity]. exfalso.
    destruct (builtin_match_first case_name pat (String c t) Hpat) as (c' & t' & E & Hc');
      [congruence|].
    rewrite Hneq in Hc'. injection E as <- <-.
    rewrite (upper_not_ld c Hc) in Hc'. discriminate. }
  simpl in Hstyle. destruct Hstyle as [<-|[<-|[<-|[]]]].
  - apply (check_mismatch_head no_overrides (String c t) "kebab-case" kebab_pattern eq_refl);
      [now apply Hother|exact Hlet].
  - apply (check_mismatch_head no_overrides (String c t) "snake_case" snake_pattern eq_refl);
      [now apply Hother|exact Hlet].
  - apply (check_mismatch_head no_overrides (String c t) "camelCase" camel_pattern eq_refl);
      [now apply Hother|exact Hlet].
Qed.

Lemma pascal_excludes_other_styles_witness :
  check no_overrides "OpenAec" "PascalCase" = Ok [] /\
  In "camelCase" ["kebab-case"; "snake_case"; "camelCase"] /\
  check no_overrides "OpenAec" "camelCase" =
    Ok ["Does not match camelCase"; "Suggested: 'openAec'"] /\
  exists rest,
    check no_overrides "OpenAec" "camelCase" = Ok ("Does not match camelCase" :: rest).
Proof.
  assert (H1 : check no_overrides "OpenAec" "PascalCase" = Ok [])
    by (vm_compute; reflexivity).
  assert (H2 : In "camelCase" ["kebab-case"; "snake_case"; "camelCase"])
    by (simpl; tauto).
  split; [exact H1|]. split; [exact H2|]. split; [vm_compute; reflexivity|].
  exact (pascal_excludes_other_styles "OpenAec" "camelCase" H1 H2).
Defined.

(** ** Acronyms in compound-capital names *)

Lemma plus_ld_stops prev s :
  stops is_ld s = true -> exec (Plus lower_digit_cls) (prev, s) = [].
Proof.
  intros Hs. unfold lower_digit_cls.
  rewrite (exec_plus_class _ is_ld) by apply in_class_ld.
  destruct s as [|c t]; [reflexivity|]. simpl in Hs.
  apply negb_true_iff in Hs. now rewrite Hs.
Qed.

Lemma run_ends_follow p prev U u d r :
  all p U = true -> p u = true -> p d = false ->
  exists l,
    run_ends p prev (U +:+ String u (String d r)) =
      (Some u, String d r) :: (last_of prev U, String u (String d r)) :: l.
Proof.
  intros HU Hu Hd. revert prev. induction U as [|c U IH]; intros prev.
  - exists []. simpl. now rewrite Hu, Hd.
  - simpl in HU. apply andb_prop in HU. destruct HU as [Hc HU].
    destruct (IH HU (Some c)) as [l Hl]. eexists.
    change (String c U +:+ String u (String d r))
      with (String c (U +:+ String u (String d r))).
    cbn [run_ends]. rewrite Hc, Hl. reflexivity.
Qed.

Lemma last_of_upper c U :
  is_upper c = true -> all is_upper U = true ->
  exists x, last_of (Some c) U = Some x /\ is_upper x = true.
Proof.
  revert c. induction U as [|c' U IH]; intros c Hc HU; simpl; [eauto|].
  simpl in HU. apply andb_prop in HU. destruct HU as [Hc' HU]. now apply IH.
Qed.

Lemma lower_word c : is_lower c = true -> is_word c = true.
Proof. intros H. unfold is_word, is_letter. now rewrite H. Qed.

Lemma lower_not_upper c : is_lower c = true -> is_upper c = false.
Proof. intros H. apply ld_not_upper. now apply lower_ld. Qed.

Lemma ends_acronym_stops_ld s : ends_acronym s = true -> stops is_ld s = true.
Proof.
  destruct s as [|u t]; [reflexivity|]. simpl. intros H.
  apply negb_true_iff. destruct (is_ld u) eqn:Hld; [|reflexivity].
  rewrite (ld_not_upper u Hld) in H. simpl in H. rewrite orb_false_r in H.
  apply negb_true_iff in H.
  assert (is_word u = true); [|congruence].
  unfold is_ld in Hld. unfold is_word, is_letter.
  destruct (is_lower u); [reflexivity|]. simpl in Hld. rewrite Hld.
  now rewrite orb_true_r.
Qed.

(** A run of upper-case letters is matched up to the place where
    [ends_acronym] holds. *)
Lemma match_at_camel_acronym prev c U more :
  is_upper c = true -> all is_upper U = true -> ends_acronym more = true ->
  match_at camel_word_re (prev, String c (U +:+ more)) =
    Some (last_of (Some c) U, more).
Proof.
  intros Hc HU Hmore. unfold match_at. rewrite exec_camel_word.
  unfold upper_cls at 1. rewrite exec_class, in_class_upper, Hc.
  cbn [app flat_map].
  rewrite (plus_ld_stops (Some c) (U +:+ more)), (plus_ld_stops prev (String c _)).
  2: { simpl. now rewrite (upper_not_ld c Hc). }
  2: { destruct U as [|c' U'].
       - now apply ends_acronym_stops_ld.
       - simpl in HU. apply andb_prop in HU. destruct HU as [Hc' _].
         simpl. now rewrite (upper_not_ld c' Hc'). }
  cbn [app]. unfold upper_cls at 2.
  rewrite (exec_plus_class _ is_upper) by apply in_class_upper. rewrite Hc.
  destruct (last_of_upper c U Hc HU) as (x & Hx & Hxu).
  assert (Hlook : forall (l : list state) (st : state),
             match l ++ [st] with [] => [] | _ :: _ => [st] end = [st]).
  { intros [|a l] st; reflexivity. }
  destruct more as [|u t].
  - destruct (run_ends_head is_upper (Some c) (U +:+ "")) as [l Hl].
    rewrite (skip_run_app is_upper (Some c) U "" HU eq_refl) in Hl.
    rewrite Hl. cbn [flat_map exec].
    unfold prev_is_word, next_is_word. cbn [fst snd]. rewrite Hx, (upper_word x Hxu).
    cbn [xorb]. rewrite Hlook. reflexivity.
  - simpl in Hmore. destruct (is_word u) eqn:Hw; simpl in Hmore.
    + apply andb_prop in Hmore. destruct Hmore as [Hu Ht].
      destruct t as [|d r]; [discriminate|].
      destruct (run_ends_follow is_upper (Some c) U u d r HU Hu
                  (lower_not_upper d Ht)) as [l Hl].
      rewrite Hl. cbn [flat_map].
      assert (H1 : exec (Lookahead (Alt (Seq upper_cls lower_cls) WordB))
                        (Some u, String d r) = []).
      { cbn [exec flat_map]. unfold upper_cls, lower_cls. cbn [exec].
        unfold step_char. cbn [snd]. rewrite in_class_upper, (lower_not_upper d Ht).
        cbn [flat_map app]. unfold prev_is_word, next_is_word. cbn [fst snd].
        now rewrite Hw, (lower_word d Ht). }
      assert (H2 : exec (Lookahead (Alt (Seq upper_cls lower_cls) WordB))
                        (last_of (Some c) U, String u (String d r)) =
                   [(last_of (Some c) U, String u (String d r))]).
      { cbn [exec flat_map]. unfold upper_cls, lower_cls. cbn [exec].
        unfold step_char. cbn [snd]. rewrite in_class_upper, Hu.
        cbn [flat_map snd]. rewrite in_class_lower, Ht. reflexivity. }
      rewrite H1, H2. reflexivity.
    + destruct (run_ends_head is_upper (Some c) (U +:+ String u t)) as [l Hl].
      rewrite (skip_run_app is_upper (Some c) U (String u t) HU) in Hl.
      2: { simpl. apply negb_true_iff.
           destruct (is_upper u) eqn:Hu; [|reflexivity].
           now rewrite (upper_word u Hu) in Hw. }
      rewrite Hl. cbn [flat_map exec].
      unfold prev_is_word, next_is_word. cbn [fst snd].
      rewrite Hx, (upper_word x Hxu), Hw.
      cbn [xorb]. rewrite Hlook. reflexivity.
Qed.

Lemma join_empty_then_stops toks more :
  Forall (fun w => starts_upper w = true) toks -> stops is_ld more = true ->
  stops is_ld (join "" toks +:+ more) = true.
Proof.
  intros H Hmore. destruct H as [|w ws Hw _]; [exact Hmore|].
  rewrite join_empty_cons. destruct w as [|c t]; [discriminate|].
  simpl in *. now rewrite (upper_not_ld c Hw).
Qed.

(** A text that starts with well-formed words is cut into these words,
    and the search goes on behind them. *)
Lemma findall_camel_tokens_then : forall toks fuel prev more,
  Forall (fun w => is_token w = true) toks ->
  Forall (fun w => starts_upper w = true) (tail toks) ->
  stops is_ld more = true ->
  findall_loop camel_word_re (List.length toks + fuel) prev (join "" toks +:+ more) =
    toks ++ findall_loop camel_word_re fuel (last_of prev (join "" toks)) more.
Proof.
  induction toks as [|tok toks IH]; intros fuel prev more Htok Hup Hmore.
  - reflexivity.
  - rewrite join_empty_cons, last_of_app, sapp_assoc. simpl in Hup.
    inversion Htok as [|? ? Ht Htoks]; subst.
    pose proof (join_empty_then_stops toks more Hup Hmore) as Hstop.
    assert (Hrec : forall p,
              findall_loop camel_word_re (List.length toks + fuel) p
                           (join "" toks +:+ more) =
              toks ++ findall_loop camel_word_re fuel (last_of p (join "" toks)) more).
    { intros p. apply IH; [assumption|now destruct Hup|assumption]. }
    cbn [List.length Nat.add app].
    destruct tok as [|c t]; [discriminate|]. simpl in Ht.
    apply andb_prop in Ht. destruct Ht as [Hall Hc].
    destruct (is_ld c) eqn:Hld.
    + pose proof (match_at_camel_ld prev c (t +:+ join "" toks +:+ more) Hld) as Hm.
      rewrite (skip_run_app is_ld (Some c) t _ Hall Hstop) in Hm.
      change (String c t +:+ join "" toks +:+ more)
        with (String c (t +:+ join "" toks +:+ more)).
      rewrite (findall_camel_match _ prev _ _ (String c t) Hm);
        [|reflexivity|discriminate].
      cbn [fst rest snd]. now rewrite Hrec.
    + simpl in Hc. apply andb_prop in Hc. destruct Hc as [Hupc Hne].
      destruct t as [|d u]; [discriminate|]. simpl in Hall.
      apply andb_prop in Hall. destruct Hall as [Hd Hu].
      pose proof (match_at_camel_upper_ld prev c d (u +:+ join "" toks +:+ more)
                    Hupc Hd) as Hm.
      rewrite (skip_run_app is_ld (Some d) u _ Hu Hstop) in Hm.
      change (String c (String d u) +:+ join "" toks +:+ more)
        with (String c (String d (u +:+ join "" toks +:+ more))).
      rewrite (findall_camel_match _ prev _ _ (String c (String d u)) Hm);
        [|reflexivity|discriminate].
      cbn [fst rest snd]. now rewrite Hrec.
Qed.

Lemma tokens_length toks :
  Forall (fun w => is_token w = true) toks ->
  List.length toks <= String.length (join "" toks).
Proof.
  induction 1 as [|w ws Hw _ IH]; [simpl; lia|].
  rewrite join_empty_cons, slength_app. destruct w; [discriminate|].
  simpl. lia.
Qed.

(** The acronym branch of the tokenizer: in a name without separators,
    a run of upper-case letters that stands at the end of the name or
    before a word that starts with an upper-case letter followed by a
    lower-case letter is one word of its own, between the well-formed
    words before and after it. *)
Theorem extract_words_acronym (toks1 toks2 : list string) (acr : string) :
  Forall (fun w => is_token w = true) (toks1 ++ toks2) ->
  Forall (fun w => starts_upper w = true) (tail toks1 ++ toks2) ->
  acr <> "" -> all is_upper acr = true ->
  ends_acronym (join "" toks2) = true ->
  extract_words (join "" toks1 +:+ acr +:+ join "" toks2) =
    Ok (map lower (toks1 ++ acr :: toks2)).
Proof.
  intros Htok Hup Hne Hacr Hend.
  apply Forall_app in Htok. destruct Htok as [Htok1 Htok2].
  apply Forall_app in Hup. destruct Hup as [Hup1 Hup2].
  destruct acr as [|c U]; [contradiction|]. simpl in Hacr.
  apply andb_prop in Hacr. destruct Hacr as [Hc HU].
  set (name := join "" toks1 +:+ String c U +:+ join "" toks2).
  assert (Halnum : all is_alnum name = true).
  { unfold name. rewrite !all_app.
    rewrite (all_join_empty is_alnum toks1), (all_join_empty is_alnum toks2).
    - simpl. rewrite (upper_alnum c Hc).
      now rewrite (all_impl is_upper is_alnum U upper_alnum HU).
    - eapply Forall_impl; [exact Htok2|]. apply is_token_alnum.
    - eapply Forall_impl; [exact Htok1|]. apply is_token_alnum. }
  assert (Hlet : any is_letter name = true).
  { unfold name. rewrite !any_app. simpl. unfold is_letter at 2. rewrite Hc.
    now rewrite !orb_true_r. }
  pose proof (alnum_sep_free name Halnum) as Hfree.
  rewrite extract_words_camel_path;
    [|assumption|now apply sep_free_first_ok|now apply sep_free_last_ok
     |now apply sep_free_no_sep].
  assert (Hfind : re_findall camel_word_re name = toks1 ++ String c U :: toks2).
  { unfold re_findall.
    pose proof (tokens_length toks1 Htok1) as Hlen1.
    assert (Hlen : String.length name =
                   String.length (join "" toks1) + S (String.length U) +
                   String.length (join "" toks2)).
    { unfold name. rewrite !slength_app. simpl. lia. }
    replace (S (String.length name))
      with (List.length toks1 +
            S (String.length name - List.length toks1)) by lia.
    assert (Hf : String.length (join "" toks2) <
                 String.length name - List.length toks1) by lia.
    revert Hf. generalize (String.length name - List.length toks1).
    intros f Hf. unfold name.
    rewrite findall_camel_tokens_then;
      [|assumption|assumption|simpl; now rewrite (upper_not_ld c Hc)].
    f_equal.
    change (String c U +:+ join "" toks2) with (String c (U +:+ join "" toks2)).
    rewrite (findall_camel_match _ _ _ _ (String c U)
               (match_at_camel_acronym _ c U (join "" toks2) Hc HU Hend));
      [|reflexivity|discriminate].
    f_equal. cbn [fst rest snd].
    apply findall_camel_tokens; [assumption|now destruct Hup2|exact Hf]. }
  rewrite Hfind.
  destruct (toks1 ++ String c U :: toks2) eqn:E; [|reflexivity].
  now destruct toks1.
Qed.

Lemma extract_words_acronym_witness :
  Forall (fun w => is_token w = true) (["open"; "My"] ++ ["Studio"; "V2"]) /\
  Forall (fun w => starts_upper w = true) (tail ["open"; "My"] ++ ["Studio"; "V2"]) /\
  all is_upper "PDF" = true /\
  ends_acronym (join "" ["Studio"; "V2"]) = true /\
  extract_words "openMyPDFStudioV2" = Ok ["open"; "my"; "pdf"; "studio"; "v2"].
Proof.
  assert (H1 : Forall (fun w => is_token w = true) (["open"; "My"] ++ ["Studio"; "V2"]))
    by (repeat constructor).
  assert (H2 : Forall (fun w => starts_upper w = true)
                      (tail ["open"; "My"] ++ ["Studio"; "V2"]))
    by (repeat constructor).
  assert (H3 : all is_upper "PDF" = true) by reflexivity.
  assert (H4 : ends_acronym (join "" ["Studio"; "V2"]) = true) by reflexivity.
  split; [exact H1|]. split; [exact H2|]. split; [exact H3|]. split; [exact H4|].
  apply (extract_words_acronym ["open"; "My"] ["Studio"; "V2"] "PDF" H1 H2);
    [discriminate|exact H3|exact H4].
Defined.

(** ** Upper-case letters the tokenizer drops *)

Lemma digit_not_upper d : is_digit d = true -> is_upper d = false.
Proof. ascii_cases d. Qed.

Lemma digit_not_lower d : is_digit d = true -> is_lower d = false.
Proof. ascii_cases d. Qed.

Lemma digit_word d : is_digit d = true -> is_word d = true.
Proof. ascii_cases d. Qed.

Lemma digit_ld d : is_digit d = true -> is_ld d = true.
Proof. intros H. unfold is_ld. rewrite H. apply orb_true_r. Qed.

Lemma upper_not_lower c : is_upper c = true -> is_lower c = false.
Proof. ascii_cases c. Qed.

Lemma lookahead_acronym_fails x c more :
  is_upper x = true -> is_upper c = true -> stops is_lower more = true ->
  exec (Lookahead (Alt (Seq upper_cls lower_cls) WordB)) (Some x, String c more) = [].
Proof.
  intros Hx Hc Hmore. cbn [exec flat_map]. unfold upper_cls, lower_cls. cbn [exec].
  unfold step_char. cbn [snd]. rewrite in_class_upper, Hc. cbn [flat_map snd].
  unfold prev_is_word, next_is_word. cbn [fst snd].
  rewrite (upper_word x Hx), (upper_word c Hc). cbn [xorb].
  destruct more as [|e r]; [reflexivity|]. simpl in Hmore.
  apply negb_true_iff in Hmore. now rewrite in_class_lower, Hmore.
Qed.

Lemma lookahead_digit_fails x d t :
  is_upper x = true -> is_digit d = true ->
  exec (Lookahead (Alt (Seq upper_cls lower_cls) WordB)) (Some x, String d t) = [].
Proof.
  intros Hx Hd. cbn [exec flat_map]. unfold upper_cls, lower_cls. cbn [exec].
  unfold step_char. cbn [snd]. rewrite in_class_upper, (digit_not_upper d Hd).
  cbn [flat_map app]. unfold prev_is_word, next_is_word. cbn [fst snd].
  now rewrite (upper_word x Hx), (digit_word d Hd).
Qed.

Lemma upper_digit_stops_lower U d t :
  all is_upper U = true -> is_digit d = true ->
  stops is_lower (U +:+ String d t) = true.
Proof.
  intros HU Hd. destruct U as [|c U]; simpl.
  - now rewrite (digit_not_lower d Hd).
  - simpl in HU. apply andb_prop in HU. destruct HU as [Hc _].
    now rewrite (upper_not_lower c Hc).
Qed.

(** No stopping place of a run of upper-case letters before a digit
    passes the lookahead. *)
Lemma acronym_before_digit_fails U x d t :
  is_upper x = true -> all is_upper U = true -> is_digit d = true ->
  flat_map (exec (Lookahead (Alt (Seq upper_cls lower_cls) WordB)))
           (run_ends is_upper (Some x) (U +:+ String d t)) = [].
Proof.
  revert x. induction U as [|c U IH]; intros x Hx HU Hd.
  - cbn [String.append run_ends]. rewrite (digit_not_upper d Hd).
    cbn [flat_map]. now rewrite lookahead_digit_fails.
  - simpl in HU. apply andb_prop in HU. destruct HU as [Hc HU].
    change (String c U +:+ String d t) with (String c (U +:+ String d t)).
    cbn [run_ends]. rewrite Hc, flat_map_app, (IH c Hc HU Hd).
    cbn [flat_map app].
    rewrite (lookahead_acronym_fails x c _ Hx Hc (upper_digit_stops_lower U d t HU Hd)).
    reflexivity.
Qed.

Lemma match_at_camel_before_digit prev c U d t :
  is_upper c = true -> U <> "" -> all is_upper U = true -> is_digit d = true ->
  match_at camel_word_re (prev, String c (U +:+ String d t)) = None.
Proof.
  intros Hc Hne HU Hd. unfold match_at. rewrite exec_camel_word.
  unfold upper_cls at 1. rewrite exec_class, in_class_upper, Hc.
  cbn [app flat_map].
  rewrite (plus_ld_stops (Some c) (U +:+ String d t)), (plus_ld_stops prev (String c _)).
  2: { simpl. now rewrite (upper_not_ld c Hc). }
  2: { destruct U as [|c' U']; [contradiction|].
       simpl in HU. apply andb_prop in HU. destruct HU as [Hc' _].
       simpl. now rewrite (upper_not_ld c' Hc'). }
  cbn [app]. unfold upper_cls at 2.
  rewrite (exec_plus_class _ is_upper) by apply in_class_upper. rewrite Hc.
  now rewrite acronym_before_digit_fails.
Qed.

Lemma all_app_one p U u : all p U = true -> p u = true -> all p (U +:+ String u "") = true.
Proof. intros HU Hu. rewrite all_app, HU. simpl. now rewrite Hu. Qed.

Lemma findall_camel_dropped : forall U fuel prev u d t,
  all is_upper U = true -> is_upper u = true -> is_digit d = true ->
  findall_loop camel_word_re (String.length U + fuel) prev
               (U +:+ String u (String d t)) =
    findall_loop camel_word_re fuel (last_of prev U) (String u (String d t)).
Proof.
  induction U as [|c U IH]; intros fuel prev u d t HU Hu Hd; [reflexivity|].
  simpl in HU. apply andb_prop in HU. destruct HU as [Hc HU].
  change (String c U +:+ String u (String d t))
    with (String c (U +:+ String u (String d t))).
  cbn [String.length Nat.add last_of].
  rewrite findall_camel_skip; [now apply IH|].
  change (String u (String d t)) with (String u "" +:+ String d t).
  rewrite <- sapp_assoc.
  apply match_at_camel_before_digit; try assumption.
  - now apply sapp_nonempty_r.
  - now apply all_app_one.
Qed.

(** The tokenizer loses characters: a run of upper-case letters in front
    of a word that starts with an upper-case letter followed by a digit
    (as in "HTTP2") is matched by neither branch of the compound-capital
    pattern, so its letters appear in no returned word. *)
Theorem extract_words_drops_acronym
    (acr : string) (u d : ascii) (t : string) (toks : list string) :
  all is_upper acr = true ->
  is_upper u = true -> is_digit d = true -> all is_ld t = true ->
  Forall (fun w => is_token w = true) toks ->
  Forall (fun w => starts_upper w = true) toks ->
  extract_words (acr +:+ String u (String d t) +:+ join "" toks) =
    Ok (lower (String u (String d t)) :: map lower toks).
Proof.
  intros Hacr Hu Hd Ht Htok Hup.
  set (tok := String u (String d t)).
  assert (Htok0 : is_token tok = true).
  { unfold tok. simpl. now rewrite (digit_ld d Hd), Ht, Hu, orb_true_r. }
  assert (Hjoin : tok +:+ join "" toks = join "" (tok :: toks))
    by now rewrite join_empty_cons.
  set (name := acr +:+ tok +:+ join "" toks).
  assert (Halnum : all is_alnum name = true).
  { unfold name. rewrite Hjoin, all_app.
    rewrite (all_impl is_upper is_alnum acr upper_alnum Hacr).
    apply all_join_empty. constructor.
    - now apply is_token_alnum.
    - eapply Forall_impl; [exact Htok|]. apply is_token_alnum. }
  assert (Hlet : any is_letter name = true).
  { unfold name, tok. rewrite !any_app. simpl. unfold is_letter at 2. rewrite Hu.
    now rewrite !orb_true_r. }
  pose proof (alnum_sep_free name Halnum) as Hfree.
  rewrite extract_words_camel_path;
    [|assumption|now apply sep_free_first_ok|now apply sep_free_last_ok
     |now apply sep_free_no_sep].
  assert (Hfind : re_findall camel_word_re name = tok :: toks).
  { unfold re_findall.
    assert (Hlen : S (String.length name) =
                   String.length acr + S (String.length (join "" (tok :: toks)))).
    { unfold name. rewrite Hjoin, slength_app. lia. }
    rewrite Hlen. unfold name, tok.
    change (String u (String d t) +:+ join "" toks)
      with (String u (String d (t +:+ join "" toks))).
    rewrite findall_camel_dropped by assumption.
    change (String u (String d (t +:+ join "" toks)))
      with (tok +:+ join "" toks).
    rewrite Hjoin. apply findall_camel_tokens; [now constructor|exact Hup|lia]. }
  rewrite Hfind. reflexivity.
Qed.

Lemma extract_words_drops_acronym_witness :
  all is_upper "HTT" = true /\ is_upper "P" = true /\ is_digit "2" = true /\
  extract_words "HTTP2Client" = Ok ["p2"; "client"].
Proof.
  split; [reflexivity|]. split; [reflexivity|]. split; [reflexivity|].
  apply (extract_words_drops_acronym "HTT" "P" "2" "" ["Client"]);
    try reflexivity; repeat constructor.
Defined.

(** ** [check] and [get_suggested_name] together *)

(** For a name of at most 3 words that fails the pattern of the style,
    the name [check] suggests is the one [get_suggested_name] returns for
    the same name and style; [check] leaves the suggestion out exactly
    when it equals the name. *)
Theorem check_suggests_suggested_name
    (self : Convention) (name case_name : string) (pat : regex) (words : list string) :
  get_pattern self case_name = Some pat ->
  re_match pat name = None ->
  extract_words name = Ok words ->
  List.length words <= 3 ->
  exists v,
    get_suggested_name self name case_name = Ok v /\
    check self name case_name =
      Ok (("Does not match " +:+ case_name) ::
          if pyval_eqb v (PyStr name) then []
          else ["Suggested: '" +:+ py_str v +:+ "'"]).
Proof.
  intros Hpat Hm Hwords Hlen.
  assert (Hne : words <> []).
  { destruct (any is_letter name) eqn:Hlet.
    - destruct (extract_words_letter_ok name Hlet) as (ws & Hws & Hne). congruence.
    - rewrite (extract_words_no_letter name Hlet) in Hwords. discriminate. }
  destruct (convert_case_small words case_name Hne Hlen) as [v Hv].
  exists v. split.
  - unfold get_suggested_name, convert_case. rewrite Hwords. exact Hv.
  - unfold check. rewrite Hpat, Hm, Hwords. cbn [bind].
    rewrite (proj2 (Nat.ltb_ge 3 (List.length words)) Hlen), Hv. cbn [bind].
    destruct (pyval_eqb v (PyStr name)); reflexivity.
Qed.

Lemma check_suggests_suggested_name_witness :
  get_pattern no_overrides "snake_case" = Some snake_pattern /\
  re_match snake_pattern "XMLHttpRequest" = None /\
  extract_words "XMLHttpRequest" = Ok ["xml"; "http"; "request"] /\
  get_suggested_name no_overrides "XMLHttpRequest" "snake_case" =
    Ok (PyStr "xml_http_request") /\
  exists v,
    get_suggested_name no_overrides "XMLHttpRequest" "snake_case" = Ok v /\
    check no_overrides "XMLHttpRequest" "snake_case" =
      Ok (("Does not match " +:+ "snake_case") ::
          if pyval_eqb v (PyStr "XMLHttpRequest") then []
          else ["Suggested: '" +:+ py_str v +:+ "'"]).
Proof.
  assert (H1 : get_pattern no_overrides "snake_case" = Some snake_pattern)
    by reflexivity.
  assert (H2 : re_match snake_pattern "XMLHttpRequest" = None)
    by (vm_compute; reflexivity).
  assert (H3 : extract_words "XMLHttpRequest" = Ok ["xml"; "http"; "request"])
    by (vm_compute; reflexivity).
  split; [exact H1|]. split; [exact H2|]. split; [exact H3|].
  split; [vm_compute; reflexivity|].
  apply (check_suggests_suggested_name no_overrides "XMLHttpRequest" "snake_case"
           snake_pattern ["xml"; "http"; "request"] H1 H2 H3).
  simpl. lia.
Defined.

(** ** Overrides of the conventions document *)

(** An entry of [naming.case] for one style changes nothing for a name
    checked against another style: the verdict is the one of the document
    without that entry. *)
Theorem check_override_other_style
    (overrides : gmap string case_entry) (other : string) (entry : case_entry)
    (name case_name : string) :
  case_name <> other ->
  check {| cases := <[other := entry]> overrides |} name case_name =
    check {| cases := overrides |} name case_name.
Proof.
  intros Hneq. unfold check, get_pattern. cbn [cases].
  rewrite lookup_insert_ne by congruence. reflexivity.
Qed.

Lemma check_override_other_style_witness :
  "kebab-case" <> "snake_case" /\
  check {| cases := <["snake_case" := {| pattern := Some (Plus upper_cls) |}]> ∅ |}
        "My_Repo" "kebab-case" =
    Ok ["Does not match kebab-case"; "Suggested: 'my-repo'"].
Proof.
  assert (H : "kebab-case" <> "snake_case") by discriminate.
  split; [exact H|].
  rewrite (check_override_other_style ∅ "snake_case"
             {| pattern := Some (Plus upper_cls) |} "My_Repo" "kebab-case" H).
  vm_compute. reflexivity.
Defined.

(** * Blocks of a compound-capital name *)

Lemma capital_inv b : is_capital b = true -> exists c, b = String c "" /\ is_upper c = true.
Proof. destruct b as [|c [|d t]]; try discriminate. simpl. eauto. Qed.

Lemma capital_alnum b : is_capital b = true -> all is_alnum b = true.
Proof.
  intros (c & -> & Hc)%capital_inv. simpl. now rewrite (upper_alnum c Hc).
Qed.

Lemma blocks_ok_cons b rest :
  blocks_ok (b :: rest) = true ->
  ((is_token b = true /\ stops is_ld (join "" rest) = true) \/
   (is_capital b = true /\ ends_acronym (join "" rest) = true)) /\
  blocks_ok rest = true.
Proof.
  cbn [blocks_ok]. intros [H Hrest]%andb_prop. split; [|exact Hrest].
  apply orb_prop in H. destruct H as [H|H]; apply andb_prop in H; tauto.
Qed.

Lemma blocks_alnum bs :
  blocks_ok bs = true -> Forall (fun b => all is_alnum b = true) bs.
Proof.
  induction bs as [|b rest IH]; [constructor|].
  intros [[[Hb _]|[Hb _]] Hrest]%blocks_ok_cons; constructor; auto using is_token_alnum, capital_alnum.
Qed.

Lemma block_nonempty b rest : blocks_ok (b :: rest) = true -> b <> "".
Proof.
  intros [[[Hb _]|[Hb _]] _]%blocks_ok_cons; destruct b; discriminate.
Qed.

(** In a text made of blocks every block after the first starts with an
    upper-case letter. *)
Lemma blocks_tail_upper bs :
  blocks_ok bs = true -> Forall (fun b => starts_upper b = true) (tail bs).
Proof.
  induction bs as [|b rest IH]; [constructor|].
  intros [Hb Hrest]%blocks_ok_cons. cbn [tail].
  destruct rest as [|b' rest']; [constructor|].
  constructor; [|exact (IH Hrest)].
  pose proof (block_nonempty _ _ Hrest) as Hne.
  pose proof (blocks_alnum _ Hrest) as Hal. inversion Hal as [|? ? Hb' _]; subst.
  destruct b' as [|c t]; [contradiction|].
  simpl in Hb'. apply andb_prop in Hb'. destruct Hb' as [Hc _].
  rewrite join_empty_cons in Hb. simpl in Hb. simpl.
  destruct (alnum_cases c Hc) as [Hld|Hu]; [|exact Hu].
  exfalso. destruct Hb as [[_ Hs]|[_ He]].
  - rewrite Hld in Hs. discriminate.
  - rewrite (ld_not_upper c Hld) in He. simpl in He. rewrite orb_false_r in He.
    apply negb_true_iff in He.
    assert (is_word c = true); [|congruence].
    unfold is_word, is_letter. unfold is_ld in Hld.
    destruct (is_lower c); [reflexivity|]. simpl in Hld. rewrite Hld.
    now rewrite orb_true_r.
Qed.

(** A text made of blocks is cut back into these blocks. *)
Lemma findall_blocks : forall bs fuel prev,
  blocks_ok bs = true ->
  String.length (join "" bs) < fuel ->
  findall_loop camel_word_re fuel prev (join "" bs) = bs.
Proof.
  induction bs as [|b rest IH]; intros fuel prev Hok Hlen.
  - apply findall_camel_empty.
  - apply blocks_ok_cons in Hok. destruct Hok as [Hb Hrest].
    rewrite join_empty_cons in *.
    destruct fuel as [|f]; [lia|].
    assert (Hrec : forall p, findall_loop camel_word_re f p (join "" rest) = rest).
    { intros p. apply IH; [assumption|].
      rewrite slength_app in Hlen.
      destruct Hb as [[Hb _]|[Hb _]]; destruct b; try discriminate; simpl in Hlen; lia. }
    destruct Hb as [[Ht Hstop]|[Hcap Hend]].
    + destruct b as [|c t]; [discriminate|]. simpl in Ht.
      apply andb_prop in Ht. destruct Ht as [Hall Hc].
      destruct (is_ld c) eqn:Hld.
      * pose proof (match_at_camel_ld prev c (t +:+ join "" rest) Hld) as Hm.
        rewrite (skip_run_app is_ld (Some c) t _ Hall Hstop) in Hm.
        change (String c t +:+ join "" rest) with (String c (t +:+ join "" rest)).
        rewrite (findall_camel_match f prev _ _ (String c t) Hm);
          [now rewrite Hrec|reflexivity|discriminate].
      * simpl in Hc. apply andb_prop in Hc. destruct Hc as [Hupc Hne].
        destruct t as [|d u]; [discriminate|]. simpl in Hall.
        apply andb_prop in Hall. destruct Hall as [Hd Hu].
        pose proof (match_at_camel_upper_ld prev c d (u +:+ join "" rest) Hupc Hd) as Hm.
        rewrite (skip_run_app is_ld (Some d) u _ Hu Hstop) in Hm.
        change (String c (String d u) +:+ join "" rest)
          with (String c (String d (u +:+ join "" rest))).
        rewrite (findall_camel_match f prev _ _ (String c (String d u)) Hm);
          [now rewrite Hrec|reflexivity|discriminate].
    + apply capital_inv in Hcap. destruct Hcap as (c & -> & Hc).
      pose proof (match_at_camel_acronym prev c "" (join "" rest) Hc eq_refl Hend) as Hm.
      change (String c ("" +:+ join "" rest)) with (String c "" +:+ join "" rest) in Hm.
      rewrite (findall_camel_match f prev _ _ (String c "") Hm);
        [now rewrite Hrec|reflexivity|discriminate].
Qed.

(** The tokenizer on a name made of blocks. *)
Lemma extract_words_blocks bs :
  bs <> [] -> blocks_ok bs = true ->
  any is_letter (join "" bs) = true ->
  extract_words (join "" bs) = Ok (map lower bs).
Proof.
  intros Hne Hok Hlet.
  assert (Hfree : all (fun c => negb (is_sep c)) (join "" bs) = true).
  { apply alnum_sep_free, all_join_empty. now apply blocks_alnum. }
  rewrite extract_words_camel_path;
    [|assumption|now apply sep_free_first_ok|now apply sep_free_last_ok
     |now apply sep_free_no_sep].
  unfold re_findall. rewrite findall_blocks by (assumption || lia).
  destruct bs; [contradiction|reflexivity].
Qed.

(** A name of letters and digits whose upper-case letters are followed
    as [capital_follow] says is made of blocks. *)
Lemma blocks_exist s :
  all is_alnum s = true -> single_capitals s = true ->
  exists bs,
    join "" bs = s /\ blocks_ok bs = true /\
    match s with
    | EmptyString => bs = []
    | String c _ => exists t0 more, bs = String c t0 :: more
    end.
Proof.
  induction s as [|c t IH]; intros Hall Hcap.
  - exists []. repeat split.
  - simpl in Hall. apply andb_prop in Hall. destruct Hall as [Hc Ht].
    cbn [single_capitals] in Hcap. apply andb_prop in Hcap.
    destruct Hcap as [Hcond Hcap].
    destruct (IH Ht Hcap) as (bs & Hjoin & Hok & Hhead).
    destruct t as [|d u].
    + subst bs. exists [String c ""]. repeat split; [|eauto].
      cbn [blocks_ok join String.concat stops]. rewrite andb_true_r.
      destruct (alnum_cases c Hc) as [Hld|Hu].
      * simpl. now rewrite Hld.
      * simpl. rewrite Hu. now rewrite orb_true_r.
    + destruct Hhead as (t0 & more & ->).
      pose proof Hok as Hok'. apply blocks_ok_cons in Hok'.
      destruct Hok' as [Hb Hmore].
      rewrite join_empty_cons in Hjoin.
      destruct (is_ld d) eqn:Hd.
      * destruct Hb as [[Htok Hstop]|[Hcp _]].
        2: { apply capital_inv in Hcp. destruct Hcp as (x & E & Hx).
             injection E as <- _. now rewrite (upper_not_ld d Hx) in Hd. }
        exists (String c (String d t0) :: more). repeat split; [| |eauto].
        -- rewrite join_empty_cons. simpl. simpl in Hjoin. now rewrite Hjoin.
        -- cbn [blocks_ok]. rewrite Hmore, Hstop, andb_true_r, andb_true_r.
           apply orb_true_iff. left.
           pose proof (token_head_ld d t0 Htok Hd) as Hdt.
           unfold is_token. rewrite Hdt.
           destruct (alnum_cases c Hc) as [Hld|Hu]; [now rewrite Hld|].
           rewrite Hu. simpl. now rewrite orb_true_r.
      * assert (Hjoin' : join "" (String d t0 :: more) = String d u)
          by now rewrite join_empty_cons.
        exists (String c "" :: String d t0 :: more). repeat split; [| |eauto].
        -- rewrite join_empty_cons, Hjoin'. reflexivity.
        -- cbn [blocks_ok] in *. rewrite Hok, andb_true_r. rewrite Hjoin'.
           destruct (alnum_cases c Hc) as [Hld|Hu].
           ++ apply orb_true_iff. left. simpl. now rewrite Hld, Hd.
           ++ apply orb_true_iff. right. rewrite Hu in Hcond. simpl in Hcond.
              rewrite Hd in Hcond. simpl in Hcond.
              simpl. rewrite Hu, Hcond. now rewrite orb_true_r.
Qed.

Lemma capitalize_lower_block b :
  is_token b = true \/ is_capital b = true -> starts_upper b = true ->
  capitalize (lower b) = b.
Proof.
  intros [Ht|Hc] Hup; [now apply capitalize_lower_token|].
  apply capital_inv in Hc. destruct Hc as (c & -> & Hc). simpl.
  now rewrite (upper_lower_char c Hc).
Qed.

Lemma capitalize_lower_blocks bs :
  blocks_ok bs = true -> Forall (fun b => starts_upper b = true) bs ->
  map capitalize (map lower bs) = bs.
Proof.
  induction bs as [|b rest IH]; intros Hok Hup; [reflexivity|].
  apply blocks_ok_cons in Hok. destruct Hok as [Hb Hrest].
  inversion Hup as [|? ? Hbu Hru]; subst. cbn [map].
  rewrite (IH Hrest Hru). f_equal. apply capitalize_lower_block; [|assumption].
  destruct Hb as [[H _]|[H _]]; auto.
Qed.

(** The words of a camelCase name whose capitals stand alone, rendered
    in camelCase, are the name. *)
Lemma camel_blocks_identity name words :
  lang camel_body name -> single_capitals name = true ->
  extract_words name = Ok words ->
  exists w ws, words = w :: ws /\ w +:+ join "" (map capitalize ws) = name.
Proof.
  intros (c & t & -> & Hc & Ht)%class_star_shape Hcap Hwords.
  rewrite in_class_lower in Hc.
  assert (Hall : all is_alnum (String c t) = true).
  { simpl. rewrite (ld_alnum c (lower_ld c Hc)). simpl. revert Ht.
    apply all_impl. intros d. now rewrite in_class_alnum. }
  destruct (blocks_exist _ Hall Hcap) as (bs & Hjoin & Hok & t0 & more & ->).
  rewrite <- Hjoin in Hwords. rewrite extract_words_blocks in Hwords;
    [|discriminate|assumption|].
  - injection Hwords as <-.
    pose proof (blocks_tail_upper _ Hok) as Hup. cbn [tail] in Hup.
    apply blocks_ok_cons in Hok. destruct Hok as [Hb Hmore].
    exists (lower (String c t0)), (map lower more). split; [reflexivity|].
    assert (Htok : is_token (String c t0) = true).
    { destruct Hb as [[H _]|[H _]]; [exact H|].
      apply capital_inv in H. destruct H as (x & E & Hx). injection E as <- _.
      now rewrite (lower_not_upper c Hc) in Hx. }
    rewrite (lower_all_ld (String c t0)) by (apply token_head_ld; auto using lower_ld).
    rewrite (capitalize_lower_blocks more Hmore Hup).
    now rewrite <- join_empty_cons.
  - rewrite Hjoin. simpl. now rewrite (lower_letter c Hc).
Qed.

(** The same for PascalCase. *)
Lemma pascal_blocks_identity name words :
  lang pascal_body name -> single_capitals name = true ->
  extract_words name = Ok words ->
  join "" (map capitalize words) = name.
Proof.
  intros (c & t & -> & Hc & Ht)%class_star_shape Hcap Hwords.
  rewrite in_class_upper in Hc.
  assert (Hall : all is_alnum (String c t) = true).
  { simpl. rewrite (upper_alnum c Hc). simpl. revert Ht.
    apply all_impl. intros d. now rewrite in_class_alnum. }
  destruct (blocks_exist _ Hall Hcap) as (bs & Hjoin & Hok & t0 & more & ->).
  rewrite <- Hjoin in Hwords. rewrite extract_words_blocks in Hwords;
    [|discriminate|assumption|].
  - injection Hwords as <-.
    pose proof (blocks_tail_upper _ Hok) as Hup. cbn [tail] in Hup.
    change (join "" (map capitalize (map lower (String c t0 :: more))) = String c t).
    rewrite capitalize_lower_blocks; [assumption|assumption|].
    constructor; [exact Hc|exact Hup].
  - rewrite Hjoin. simpl. now rewrite (upper_letter c Hc).
Qed.

(** ** Words that come back from camelCase and PascalCase *)

Lemma plain_word_inv w : plain_word w = true -> w <> "" /\ all is_ld w = true.
Proof.
  unfold plain_word. intros [Hne Hall]%andb_prop. split; [|exact Hall].
  intros ->. discriminate.
Qed.

Lemma cap_word_inv w rest :
  cap_word_ok w rest = true ->
  exists c t, w = String c t /\ is_lower c = true /\ all is_ld t = true /\
    (t <> "" \/
     rest = [] \/
     exists e d u rest', rest = String e (String d u) :: rest' /\ is_lower d = true).
Proof.
  destruct w as [|c t]; [discriminate|]. simpl.
  intros [[Hc Ht]%andb_prop H]%andb_prop. exists c, t. repeat split; try assumption.
  destruct t as [|x y]; [|left; discriminate]. right. simpl in H.
  destruct rest as [|[|e [|d u]] rest']; try discriminate; [now left|].
  right. eauto 6.
Qed.

Lemma capitalize_cap_word c t :
  is_lower c = true -> all is_ld t = true ->
  capitalize (String c t) = String (upper_char c) t /\
  lower (String (upper_char c) t) = String c t.
Proof.
  intros Hc Ht. simpl. rewrite (lower_all_ld t Ht). split; [reflexivity|].
  now rewrite (lower_upper_char c Hc).
Qed.

Lemma cap_words_blocks ws :
  cap_words_ok ws = true ->
  blocks_ok (map capitalize ws) = true /\
  map lower (map capitalize ws) = ws /\
  Forall (fun b => starts_upper b = true) (map capitalize ws).
Proof.
  induction ws as [|w rest IH]; [repeat split; constructor|].
  cbn [cap_words_ok]. intros [Hw Hrest]%andb_prop.
  destruct (IH Hrest) as (IH1 & IH2 & IH3).
  destruct (cap_word_inv w rest Hw) as (c & t & -> & Hc & Ht & Hnext).
  destruct (capitalize_cap_word c t Hc Ht) as [Ecap Elow].
  cbn [map]. rewrite Ecap.
  pose proof (upper_char_lower c Hc) as Hup.
  split; [|split].
  - cbn [blocks_ok]. rewrite IH1, andb_true_r. apply orb_true_iff.
    destruct t as [|x y].
    + right. simpl. rewrite Hup. simpl.
      destruct Hnext as [Hne|[->|(e & d & u & rest' & -> & Hd)]];
        [now contradiction Hne|reflexivity|].
      apply andb_prop in Hrest. destruct Hrest as [He _].
      destruct (cap_word_inv _ _ He) as (e' & t' & E & He' & _ & _).
      injection E as <- <-.
      cbn [map]. rewrite join_empty_cons. simpl.
      rewrite (upper_char_lower e He'), (lower_char_ld d (lower_ld d Hd)), Hd.
      apply orb_true_r.
    + left. rewrite (join_empty_stops _ IH3), andb_true_r.
      unfold is_token. rewrite Ht, Hup. simpl. now rewrite orb_true_r.
  - rewrite Elow, IH2. reflexivity.
  - constructor; [exact Hup|exact IH3].
Qed.

Lemma upper_char_letter c : is_letter (upper_char c) = is_letter c.
Proof. ascii_cases c. Qed.

Lemma any_letter_capitalize w : any is_letter (capitalize w) = any is_letter w.
Proof.
  destruct w as [|c t]; [reflexivity|]. simpl.
  now rewrite upper_char_letter, any_letter_lower.
Qed.

Lemma any_letter_join_capitalize ws :
  any is_letter (join "" (map capitalize ws)) = any is_letter (join "" ws).
Proof.
  induction ws as [|w ws IH]; [reflexivity|]. cbn [map].
  now rewrite !join_empty_cons, !any_app, any_letter_capitalize, IH.
Qed.

Lemma any_letter_join_sep sc ws :
  is_sep sc = true ->
  any is_letter (join (String sc "") ws) = any is_letter (join "" ws).
Proof.
  intros Hsc. induction ws as [|w [|w' ws] IH]; [reflexivity|now rewrite !join_one|].
  rewrite join_cons, (join_empty_cons w), !any_app, IH. simpl.
  now rewrite (sep_not_letter sc Hsc).
Qed.

(** The words of a name have a letter among them. *)
Lemma extract_words_letter_in_words name words :
  extract_words name = Ok words -> any is_letter (join "" words) = true.
Proof.
  intros Hwords. rewrite <- (any_letter_join_sep "-" words eq_refl).
  apply (extract_words_ok_letter _ words).
  now apply (roundtrip_separator name).
Qed.

(** A plain word followed by capitalized words is tokenized back. *)
Lemma roundtrip_camel_words w ws :
  plain_word w = true -> cap_words_ok ws = true ->
  any is_letter (join "" (w :: ws)) = true ->
  extract_words (w +:+ join "" (map capitalize ws)) = Ok (w :: ws).
Proof.
  intros [Hne Hld]%plain_word_inv Hws Hlet.
  destruct (cap_words_blocks ws Hws) as (H1 & H2 & H3).
  rewrite <- join_empty_cons. rewrite extract_words_blocks.
  - cbn [map]. now rewrite (lower_all_ld w Hld), H2.
  - discriminate.
  - cbn [blocks_ok]. rewrite H1, andb_true_r. apply orb_true_iff. left.
    now rewrite (all_ld_token w Hne Hld), (join_empty_stops _ H3).
  - rewrite join_empty_cons, any_app, any_letter_join_capitalize.
    now rewrite join_empty_cons, any_app in Hlet.
Qed.

(** Capitalized words are tokenized back. *)
Lemma roundtrip_pascal_words words :
  pascal_words_ok words = true ->
  any is_letter (join "" words) = true ->
  extract_words (join "" (map capitalize words)) = Ok words.
Proof.
  intros Hok Hlet. destruct words as [|[|c t] ws]; try discriminate.
  cbn [pascal_words_ok] in Hok. destruct (is_digit c) eqn:Hd.
  - apply andb_prop in Hok. destruct Hok as [Hw Hws].
    assert (Ecap : capitalize (String c t) = String c t).
    { apply plain_word_inv in Hw. destruct Hw as [_ Hld]. simpl in Hld.
      apply andb_prop in Hld. destruct Hld as [_ Ht]. simpl.
      rewrite (lower_all_ld t Ht). unfold upper_char.
      now rewrite (digit_not_lower c Hd). }
    cbn [map]. rewrite Ecap, join_empty_cons.
    now apply roundtrip_camel_words.
  - destruct (cap_words_blocks _ Hok) as (H1 & H2 & H3).
    rewrite extract_words_blocks.
    + now rewrite H2.
    + discriminate.
    + exact H1.
    + now rewrite any_letter_join_capitalize.
Qed.

(** * [check], the collapse and the round trips *)

(** ** [Convention.check] on a name that fails the pattern *)

Lemma all_nonempty_forall words :
  all_nonempty words = true -> Forall (fun w => w <> EmptyString) words.
Proof.
  induction words as [|w ws IH]; [constructor|]. cbn [all_nonempty forallb].
  intros [Hw Hws]%andb_prop. constructor; [|now apply IH].
  intros ->. discriminate.
Qed.

Lemma first_chars_empty_word words :
  all_nonempty words = false ->
  first_chars words = Raise (IndexError "string index out of range").
Proof.
  induction words as [|w ws IH]; [discriminate|]. cbn [all_nonempty forallb].
  destruct w as [|c t]; [reflexivity|]. cbn [String.eqb negb andb].
  intros Hws. cbn [first_chars first_char bind].
  unfold all_nonempty in IH. now rewrite (IH Hws).
Qed.





(** ** The collapse, for every word sequence *)

(** C3. With more than 3 words and a built-in style, [convert_case]
    returns the rendering of the one-word sequence made of the initialism
    of the words (the initialism itself, capitalized for PascalCase) as
    long as every word has a first character; a word without one makes
    the collapse raise [IndexError]. *)
Theorem convert_case_collapse (words : list string) (target_case : string) :
  3 < List.length words ->
  In target_case CASE_STYLES ->
  exists rendered : string,
    render [initialism words] target_case = Some rendered /\
    rendered = (if String.eqb target_case "PascalCase"
                then capitalize (initialism words) else initialism words) /\
    convert_case (Words words) target_case =
      if all_nonempty words then Ok (PyStr rendered)
      else Raise (IndexError "string index out of range").
Proof.
  intros Hlen Hstyle.
  exists (if String.eqb target_case "PascalCase"
          then capitalize (initialism words) else initialism words).
  assert (Hrender : render [initialism words] target_case =
            Some (if String.eqb target_case "PascalCase"
                  then capitalize (initialism words) else initialism words)).
  { unfold render. simpl in Hstyle.
    destruct Hstyle as [<-|[<-|[<-|[<-|[]]]]]; cbn [String.eqb Ascii.eqb Bool.eqb map];
      rewrite ?join_one; try reflexivity.
    cbn [join String.concat]. now rewrite sapp_nil_r. }
  split; [exact Hrender|]. split; [reflexivity|].
  unfold convert_case. cbn [bind]. apply Nat.ltb_lt in Hlen. rewrite Hlen.
  destruct (all_nonempty words) eqn:Hne.
  - destruct (first_chars_initialism words (all_nonempty_forall words Hne))
      as (cs & Hcs & Hj).
    rewrite Hcs. cbn [bind]. rewrite Hj. unfold render in Hrender. simpl in Hstyle.
    destruct Hstyle as [<-|[<-|[<-|[<-|[]]]]];
      cbn [String.eqb Ascii.eqb Bool.eqb] in *; congruence.
  - now rewrite (first_chars_empty_word words Hne).
Qed.

Lemma convert_case_collapse_witness :
  3 < List.length ["a"; ""; "b"; "c"] /\
  In "kebab-case" CASE_STYLES /\
  convert_case (Words ["a"; ""; "b"; "c"]) "kebab-case" =
    Raise (IndexError "string index out of range") /\
  convert_case (Words ["open"; "pdf"; "studio"; "tool"]) "PascalCase" =
    Ok (PyStr "Opst").
Proof.
  assert (Hlen : 3 < List.length ["a"; ""; "b"; "c"]) by (simpl; lia).
  assert (Hin : In "kebab-case" CASE_STYLES) by (simpl; tauto).
  split; [exact Hlen|]. split; [exact Hin|]. split.
  - destruct (convert_case_collapse ["a"; ""; "b"; "c"] "kebab-case" Hlen Hin)
      as (rendered & _ & _ & H).
    exact H.
  - destruct (convert_case_collapse ["open"; "pdf"; "studio"; "tool"] "PascalCase")
      as (rendered & _ & -> & H); [simpl; lia|simpl; tauto|].
    exact H.
Defined.

(** ** Conformant names come back from their words *)

Lemma delimiter_words_identity sc name words :
  is_sep sc = true ->
  all (fun c => if is_sep c then Ascii.eqb c sc else negb (is_upper c)) name = true ->
  first_ok name = true -> last_ok name = true -> any is_sep name = true ->
  extract_words name = Ok words ->
  join (String sc "") words = name.
Proof.
  intros Hsc Hall Hf Hl Hsep Hwords.
  pose proof (extract_words_ok_letter name words Hwords) as Hlet.
  rewrite extract_words_delimiter_path in Hwords by assumption.
  injection Hwords as <-. rewrite join_lower_pieces. apply smap_fixed.
  revert Hall. apply all_impl. intros c Hc. apply Ascii.eqb_eq.
  destruct (is_sep c).
  - apply Ascii.eqb_eq in Hc. now subst c.
  - apply negb_true_iff in Hc. unfold lower_char. now rewrite Hc.
Qed.

Lemma ends_with_app_one w c d : ends_with c (w +:+ String d "") = Ascii.eqb d c.
Proof. unfold ends_with. now rewrite last_of_app. Qed.

Lemma ends_with_all p c w :
  all p w = true -> p c = false -> ends_with c w = false.
Proof.
  intros Hall Hc. unfold ends_with.
  destruct (last_of None w) as [d|] eqn:E; [|reflexivity].
  destruct (last_of_all p w None d Hall E) as [E'|Hd]; [congruence|].
  destruct (Ascii.eqb_spec d c) as [->|]; [congruence|reflexivity].
Qed.

Lemma ends_with_last c w :
  ends_with c w = false -> last_of None w <> Some c.
Proof.
  unfold ends_with. intros H E. rewrite E in H. now rewrite Ascii.eqb_refl in H.
Qed.

Lemma snake_all w :
  lang snake_body w -> all (fun c => is_ld c || Ascii.eqb c "_") w = true.
Proof.
  intros (c & t & -> & Hc & Ht)%class_star_shape. rewrite in_class_lower in Hc.
  simpl. rewrite (lower_ld c Hc). simpl. revert Ht. apply all_impl.
  intros d. now rewrite in_class_snake.
Qed.

(** The words of a name that ends with a line feed and has a separator,
    joined by the separator, are the name: the line feed stays in the
    last word. *)
Lemma line_feed_words_identity sc w words :
  is_sep sc = true ->
  all (fun c => is_ld c || Ascii.eqb c sc) w = true ->
  first_ok w = true -> w <> "" ->
  any is_sep (w +:+ String LF "") = true ->
  extract_words (w +:+ String LF "") = Ok words ->
  join (String sc "") words = w +:+ String LF "".
Proof.
  intros Hsc Hall Hf Hne Hsep Hwords.
  apply (delimiter_words_identity sc _ words Hsc); try assumption.
  - rewrite all_app. apply andb_true_intro. split; [|reflexivity].
    revert Hall. apply all_impl. intros c Hc.
    destruct (is_ld c) eqn:Hld.
    + now rewrite (ld_not_sep c Hld), (ld_not_upper c Hld).
    + simpl in Hc. apply Ascii.eqb_eq in Hc. subst c. rewrite Hsc.
      apply Ascii.eqb_refl.
  - now rewrite first_ok_app.
  - now rewrite last_ok_app by discriminate.
Qed.

(** C7, amended. For a built-in style and a name that the style's
    built-in pattern matches, whose tokenization yields at most 3 words,
    rendering the words of the name in the style gives the name: for
    kebab-case unless the name ends with a line feed and has no hyphen;
    for snake_case unless the name ends with an underscore, or with a line
    feed and has no underscore; for camelCase and PascalCase when the name
    does not end with a line feed and every upper-case letter of the name
    is its last character or is followed by a lower-case letter or digit,
    or by an upper-case letter with a lower-case letter behind it. *)
Theorem render_extract_identity
    (name target_case : string) (pat : regex) (words : list string) :
  CASE_PATTERNS !! target_case = Some pat ->
  re_match pat name <> None ->
  extract_words name = Ok words ->
  List.length words <= 3 ->
  (target_case = "kebab-case" ->
   ends_with LF name = true -> any is_sep name = true) ->
  (target_case = "snake_case" ->
   if ends_with LF name then any is_sep name = true
   else ends_with "_" name = false) ->
  (target_case = "camelCase" \/ target_case = "PascalCase" ->
   ends_with LF name = false /\ single_capitals name = true) ->
  convert_case (Words words) target_case = Ok (PyStr name).
Proof.
  intros Hpat Hm Hwords Hlen Hkebab Hsnake Hcamel.
  rewrite (convert_case_no_collapse words target_case Hlen).
  destruct (builtin_pattern_anchored _ _ Hpat) as (body & Hbody & Hplain & Hexec).
  rewrite (re_match_exec_ext _ _ _ Hexec) in Hm.
  apply (match_anchored _ _ Hplain) in Hm.
  apply CASE_PATTERNS_lookup in Hpat.
  destruct Hpat as [[-> ->]|[[-> ->]|[[-> ->]|[-> ->]]]];
    cbn in Hbody; injection Hbody as <-; cbn [String.eqb Ascii.eqb Bool.eqb];
    destruct Hm as [Hfull|(w & -> & Hw)].
  - destruct (kebab_shape name Hfull) as (Hall & Hf & Hl).
    now rewrite (join_words_identity "-" name words).
  - destruct (kebab_shape w Hw) as (Hall & Hf & Hl).
    assert (Hne : w <> "")
      by (destruct (kebab_first w Hw) as (c & t & -> & _); discriminate).
    rewrite (line_feed_words_identity "-" w words); try easy.
    apply (Hkebab eq_refl). now rewrite ends_with_app_one.
  - pose proof (Hsnake eq_refl) as Hs.
    rewrite (ends_with_all _ LF name (snake_all name Hfull) eq_refl) in Hs.
    destruct (snake_shape name Hfull (ends_with_last _ _ Hs)) as (Hall & Hf & Hl).
    now rewrite (join_words_identity "_" name words).
  - pose proof (Hsnake eq_refl) as Hs. rewrite ends_with_app_one in Hs.
    change (Ascii.eqb LF LF) with true in Hs.
    assert (Hfirst : first_ok w = true /\ w <> "").
    { destruct (class_star_shape _ _ _ Hw) as (c & t & -> & Hc & _).
      rewrite in_class_lower in Hc. split; [|discriminate].
      simpl. now rewrite (ld_not_sep c (lower_ld c Hc)). }
    destruct Hfirst as [Hf Hne].
    rewrite (line_feed_words_identity "_" w words); try easy.
    now apply snake_all.
  - destruct (Hcamel (or_introl eq_refl)) as [_ Hcap].
    destruct (camel_blocks_identity name words Hfull Hcap Hwords) as (x & xs & -> & E).
    now rewrite E.
  - destruct (Hcamel (or_introl eq_refl)) as [Hlf _].
    rewrite ends_with_app_one in Hlf. discriminate.
  - destruct (Hcamel (or_intror eq_refl)) as [_ Hcap].
    now rewrite (pascal_blocks_identity name words Hfull Hcap Hwords).
  - destruct (Hcamel (or_intror eq_refl)) as [Hlf _].
    rewrite ends_with_app_one in Hlf. discriminate.
Qed.

Lemma render_extract_identity_witness :
  CASE_PATTERNS !! "camelCase" = Some camel_pattern /\
  re_match camel_pattern "getXValue2" <> None /\
  extract_words "getXValue2" = Ok ["get"; "x"; "value2"] /\
  ends_with LF "getXValue2" = false /\
  single_capitals "getXValue2" = true /\
  convert_case (Words ["get"; "x"; "value2"]) "camelCase" = Ok (PyStr "getXValue2").
Proof.
  assert (H1 : CASE_PATTERNS !! "camelCase" = Some camel_pattern)
    by (vm_compute; reflexivity).
  assert (H2 : re_match camel_pattern "getXValue2" <> None)
    by (vm_compute; discriminate).
  assert (H3 : extract_words "getXValue2" = Ok ["get"; "x"; "value2"])
    by (vm_compute; reflexivity).
  assert (H4 : ends_with LF "getXValue2" = false) by (vm_compute; reflexivity).
  assert (H5 : single_capitals "getXValue2" = true) by (vm_compute; reflexivity).
  split; [exact H1|]. split; [exact H2|]. split; [exact H3|]. split; [exact H4|].
  split; [exact H5|].
  apply (render_extract_identity "getXValue2" "camelCase" camel_pattern _ H1 H2 H3).
  - simpl. lia.
  - discriminate.
  - discriminate.
  - intros _. split; [exact H4|exact H5].
Defined.

(** ** Tokenizing a rendering *)

(** C8, amended. For a name of ASCII characters whose tokenization
    yields at most 3 words, rendering the words in kebab-case or
    snake_case and tokenizing the result yields the same words; for
    camelCase this holds when the first word is a non-empty word of
    lower-case letters and digits and the others can be capitalized (see
    [cap_word_ok]); for PascalCase when this is so and the first word
    starts with a digit, or when every word can be capitalized. *)
Theorem extract_render_extract (name target_case : string) (words : list string) :
  all is_ascii name = true ->
  extract_words name = Ok words ->
  List.length words <= 3 ->
  target_case = "kebab-case" \/ target_case = "snake_case" \/
  (target_case = "camelCase" /\ camel_words_ok words = true) \/
  (target_case = "PascalCase" /\ pascal_words_ok words = true) ->
  exists rendered : string,
    render words target_case = Some rendered /\
    convert_case (Words words) target_case = Ok (PyStr rendered) /\
    extract_words rendered = Ok words.
Proof.
  intros _ Hwords Hlen Hstyle.
  pose proof (extract_words_letter_in_words name words Hwords) as Hlet.
  rewrite (convert_case_no_collapse words target_case Hlen). unfold render.
  destruct Hstyle as [->|[->|[[-> Hok]|[-> Hok]]]]; cbn [String.eqb Ascii.eqb Bool.eqb].
  - eexists. split; [reflexivity|]. split; [reflexivity|].
    now apply (roundtrip_separator name words "-").
  - eexists. split; [reflexivity|]. split; [reflexivity|].
    now apply (roundtrip_separator name words "_").
  - destruct words as [|w ws]; [discriminate|].
    cbn [camel_words_ok] in Hok. apply andb_prop in Hok. destruct Hok as [Hw Hws].
    eexists. split; [reflexivity|]. split; [reflexivity|].
    now apply roundtrip_camel_words.
  - eexists. split; [reflexivity|]. split; [reflexivity|].
    now apply roundtrip_pascal_words.
Qed.

Lemma extract_render_extract_witness :
  all is_ascii "get-x_value" = true /\
  extract_words "get-x_value" = Ok ["get"; "x"; "value"] /\
  camel_words_ok ["get"; "x"; "value"] = true /\
  convert_case (Words ["get"; "x"; "value"]) "camelCase" = Ok (PyStr "getXValue") /\
  exists rendered : string,
    render ["get"; "x"; "value"] "camelCase" = Some rendered /\
    convert_case (Words ["get"; "x"; "value"]) "camelCase" = Ok (PyStr rendered) /\
    extract_words rendered = Ok ["get"; "x"; "value"].
Proof.
  assert (H0 : all is_ascii "get-x_value" = true) by (vm_compute; reflexivity).
  assert (H : extract_words "get-x_value" = Ok ["get"; "x"; "value"])
    by (vm_compute; reflexivity).
  assert (H1 : camel_words_ok ["get"; "x"; "value"] = true) by (vm_compute; reflexivity).
  split; [exact H0|]. split; [exact H|]. split; [exact H1|].
  split; [vm_compute; reflexivity|].
  apply (extract_render_extract "get-x_value" "camelCase" _ H0 H).
  - simpl. lia.
  - right. right. left. split; [reflexivity|exact H1].
Defined.
